(** * SwarScript: notation engine, taal model and beat grid

    A shallow embedding of [notation_engine.py], [taal_definitions.py] and
    [beat_grid.py], with the properties of the notation rules, the parser,
    the rhythm-cycle model and the beat grid proved over it.

    Python values are modelled as follows.
    - [str] is a list of Unicode code points ([ustring], code points in [N]);
      the combining marks of the notation are code points of their own.
    - [int] is [Z].
    - A raised exception is the [Raise] branch of [result].
    - The interpreter's Unicode tables outside ASCII (full upper-casing and
      decimal digit values) and its cap on the length of a numeral are the
      fields of [PyEnv]; every statement holds for every such environment. *)

From Stdlib Require Import String Ascii DecimalString List ZArith NArith Bool Lia.
Import ListNotations.

Set Implicit Arguments.
Local Open Scope N_scope.

(* ===================================================================== *)
(** ** Python strings and the built-ins the sources call *)
(* ===================================================================== *)

Definition ustring := list N.

(** An ASCII literal as a Python string. *)
Definition lit (s : string) : ustring := map N_of_ascii (list_ascii_of_string s).

Definition ustring_eqb (a b : ustring) : bool :=
  if list_eq_dec N.eq_dec a b then true else false.

(** [x in xs] for a list of strings. *)
Definition str_in_list (x : ustring) (xs : list ustring) : bool :=
  existsb (ustring_eqb x) xs.

(** [int in xs] for a list of integers. *)
Definition int_in_list (x : Z) (xs : list Z) : bool := existsb (Z.eqb x) xs.

(** [sep.join(parts)]. *)
Fixpoint join (sep : ustring) (parts : list ustring) : ustring :=
  match parts with
  | [] => []
  | [p] => p
  | p :: ps => p ++ sep ++ join sep ps
  end.

(** [str(n)] for an integer. *)
Definition str_of_int (z : Z) : ustring := lit (NilZero.string_of_int (Z.to_int z)).

(** [repr] of a list of plain strings (no quote or escape inside). *)
Definition repr_str_list (l : list ustring) : ustring :=
  lit "[" ++ join (lit ", ") (map (fun s => lit "'" ++ s ++ lit "'") l) ++ lit "]".

(** The characters [str.isspace], [str.strip] and [str.split] treat as
    white space. *)
Definition py_isspace (c : N) : bool :=
  ((9 <=? c) && (c <=? 13)) || ((28 <=? c) && (c <=? 32))
  || (c =? 133) || (c =? 160) || (c =? 5760)
  || ((8192 <=? c) && (c <=? 8202))
  || (c =? 8232) || (c =? 8233) || (c =? 8239) || (c =? 8287) || (c =? 12288).

Fixpoint dropwhile (p : N -> bool) (s : ustring) : ustring :=
  match s with
  | [] => []
  | c :: r => if p c then dropwhile p r else s
  end.

Definition lstrip (s : ustring) : ustring := dropwhile py_isspace s.
Definition rstrip (s : ustring) : ustring := rev (dropwhile py_isspace (rev s)).

(** [s.strip()]. *)
Definition strip (s : ustring) : ustring := rstrip (lstrip s).

(** [s.split()]: the maximal runs of characters that are not white space. *)
Fixpoint split_ws (s : ustring) : list ustring :=
  match s with
  | [] => []
  | c :: r =>
      if py_isspace c then split_ws r
      else match r with
           | [] => [[c]]
           | c' :: _ =>
               if py_isspace c' then [c] :: split_ws r
               else match split_ws r with
                    | w :: ws => (c :: w) :: ws
                    | [] => [[c]]
                    end
           end
  end.

Fixpoint starts_with (p s : ustring) : bool :=
  match p, s with
  | [], _ => true
  | _ :: _, [] => false
  | a :: p', b :: s' => (a =? b) && starts_with p' s'
  end.

(** [sub in s] for strings. *)
Fixpoint contains (sub s : ustring) : bool :=
  match s with
  | [] => starts_with sub []
  | _ :: r => starts_with sub s || contains sub r
  end.

(** [s.replace(old, new)] for a non-empty [old]: occurrences are found left
    to right and do not overlap; [skip] counts the characters of an
    occurrence still to be passed over. *)
Fixpoint replace_from (old new : ustring) (skip : nat) (s : ustring) : ustring :=
  match s with
  | [] => []
  | c :: r =>
      match skip with
      | S k => replace_from old new k r
      | O => if starts_with old s
             then new ++ replace_from old new (List.length old - 1) r
             else c :: replace_from old new 0 r
      end
  end.

Definition replace (old new s : ustring) : ustring := replace_from old new 0 s.

(** [c in s] and [s.count(c)] for a one-character [c]. *)
Definition has_char (c : N) (s : ustring) : bool := existsb (N.eqb c) s.
Definition count_char (c : N) (s : ustring) : nat := List.length (filter (N.eqb c) s).

(** [s.split(sep)] for a one-character [sep]: never empty. *)
Fixpoint split_on (sep : N) (s : ustring) : list ustring :=
  match s with
  | [] => [[]]
  | c :: r =>
      if c =? sep then [] :: split_on sep r
      else match split_on sep r with
           | w :: ws => (c :: w) :: ws
           | [] => [[c]]
           end
  end.

(** What the interpreter brings and the sources do not fix: the full
    upper-casing of a code point outside ASCII (one code point may become
    several), the decimal digit value of a code point outside ASCII, and
    the cap on the number of digits [int] converts ([0]: no cap). *)
Record PyEnv := {
  upper_full : N -> list N;
  to_decimal : N -> option N;
  max_str_digits : N
}.

(** An environment for evaluating examples: no case mapping and no digits
    outside ASCII, the default cap of 4300 digits. *)
Definition ascii_env : PyEnv :=
  {| upper_full := fun c => [c]; to_decimal := fun _ => None; max_str_digits := 4300 |}.

Definition upper_char (env : PyEnv) (c : N) : list N :=
  if c <? 128 then [if (97 <=? c) && (c <=? 122) then c - 32 else c]
  else upper_full env c.

(** [s.upper()]. *)
Definition py_upper (env : PyEnv) (s : ustring) : ustring := flat_map (upper_char env) s.

(** The white space [int] skips around a numeral. *)
Definition int_space (c : N) : bool :=
  if c <? 127 then ((9 <=? c) && (c <=? 13)) || (c =? 32) else py_isspace c.

Definition digit_value (env : PyEnv) (c : N) : option Z :=
  if c <? 127
  then if (48 <=? c) && (c <=? 57) then Some (Z.of_N (c - 48)) else None
  else option_map Z.of_N (to_decimal env c).

(** The digits of a numeral after its first one: single underscores are
    allowed between digits. Returns the value, the number of digits and
    the rest of the text. *)
Fixpoint int_digits (env : PyEnv) (acc : Z) (n : N) (s : ustring)
  : option (Z * N * ustring) :=
  match s with
  | [] => Some (acc, n, [])
  | c :: r =>
      match digit_value env c with
      | Some d => int_digits env (10 * acc + d) (n + 1) r
      | None =>
          if c =? 95 then
            match r with
            | c' :: r' =>
                match digit_value env c' with
                | Some d => int_digits env (10 * acc + d) (n + 1) r'
                | None => None
                end
            | [] => None
            end
          else Some (acc, n, s)
      end
  end.

(** [int(s)]: [None] stands for the [ValueError] it raises. *)
Definition py_int (env : PyEnv) (s : ustring) : option Z :=
  let s := dropwhile int_space s in
  let '(neg, s) :=
    match s with
    | c :: r => if c =? 45 then (true, r) else if c =? 43 then (false, r) else (false, s)
    | [] => (false, s)
    end in
  match s with
  | [] => None
  | c :: r =>
      match digit_value env c with
      | None => None
      | Some d =>
          match int_digits env d 1 r with
          | None => None
          | Some (v, n, rest) =>
              if forallb int_space rest
              then if (0 <? max_str_digits env) && (max_str_digits env <? n)
                   then None
                   else Some (if neg then (- v)%Z else v)
              else None
          end
      end
  end.

(** Exceptions the modelled code raises. *)
Inductive exn :=
| ValueError (msg : ustring)
| IndexError.

Inductive result (A : Type) :=
| Ok (a : A)
| Raise (e : exn).
Arguments Ok {A} a.
Arguments Raise {A} e.

Definition bind {A B} (r : result A) (k : A -> result B) : result B :=
  match r with
  | Ok a => k a
  | Raise e => Raise e
  end.

Notation "x <- r ;; k" := (bind r (fun x => k))
  (at level 61, r at next level, right associativity).

(** [mapM] for [result]: the first exception wins. *)
Fixpoint map_result {A B} (f : A -> result B) (l : list A) : result (list B) :=
  match l with
  | [] => Ok []
  | a :: r => b <- f a ;; bs <- map_result f r ;; Ok (b :: bs)
  end.

(* ===================================================================== *)
(** ** notation_engine.py *)
(* ===================================================================== *)

Definition COMBINING_DOT_ABOVE : N := 775.            (* U+0307 *)
Definition COMBINING_DOT_BELOW : N := 803.            (* U+0323 *)
Definition COMBINING_UNDERLINE : N := 818.            (* U+0332 *)
Definition COMBINING_VERTICAL_LINE_ABOVE : N := 781.  (* U+030D *)

(** The fields of the dataclass [Note]. *)
Record Note := {
  base : ustring;
  komal : bool;
  tivra : bool;
  octave : Z
}.

Definition valid_bases : list ustring :=
  [lit "SA"; lit "RE"; lit "GA"; lit "MA"; lit "PA"; lit "DHA"; lit "NI"].

Definition komal_bases : list ustring := [lit "RE"; lit "GA"; lit "DHA"; lit "NI"].

(** The five checks of [Note.validate], each with the message it appends. *)
Definition err_base (n : Note) : ustring :=
  lit "Invalid base note '" ++ base n ++ lit "'. Must be one of " ++ repr_str_list valid_bases.
Definition err_komal (n : Note) : ustring :=
  lit "'" ++ base n ++ lit "' cannot be komal. Only RE, GA, DHA, NI can be komal".
Definition err_tivra (n : Note) : ustring :=
  lit "'" ++ base n ++ lit "' cannot be tivra. Only MA can be tivra".
Definition err_both : ustring := lit "Note cannot be both komal and tivra".
Definition err_octave (n : Note) : ustring :=
  lit "Octave " ++ str_of_int (octave n) ++ lit " out of range. Must be between -3 and +3".

Definition bad_base (n : Note) : bool := negb (str_in_list (base n) valid_bases).
Definition bad_komal (n : Note) : bool := komal n && negb (str_in_list (base n) komal_bases).
Definition bad_tivra (n : Note) : bool := tivra n && negb (ustring_eqb (base n) (lit "MA")).
Definition bad_both (n : Note) : bool := komal n && tivra n.
Definition bad_octave (n : Note) : bool := negb ((-3 <=? octave n)%Z && (octave n <=? 3)%Z).

(** [Note.validate]: the messages of the violated rules, in the order of
    the checks. *)
Definition validate (n : Note) : list ustring :=
  let errors := [] in
  let errors := if bad_base n then errors ++ [err_base n] else errors in
  let errors := if bad_komal n then errors ++ [err_komal n] else errors in
  let errors := if bad_tivra n then errors ++ [err_tivra n] else errors in
  let errors := if bad_both n then errors ++ [err_both] else errors in
  let errors := if bad_octave n then errors ++ [err_octave n] else errors in
  errors.

(** [Note(base, komal, tivra, octave)]: the dataclass constructor followed
    by [__post_init__]. *)
Definition Note_init (env : PyEnv) (b : ustring) (k t : bool) (o : Z) : result Note :=
  let self := {| base := py_upper env b; komal := k; tivra := t; octave := o |} in
  match validate self with
  | [] => Ok self
  | errors => Raise (ValueError (lit "Invalid note: " ++ join (lit ", ") errors))
  end.

(** [result[:-1] + result[-1] + dots]: indexing an empty string raises. *)
Definition append_to_last (res dots : ustring) : result ustring :=
  match rev res with
  | [] => Raise IndexError
  | l :: _ => Ok (removelast res ++ [l] ++ dots)
  end.

(** [Note.to_notation]. *)
Definition to_notation (n : Note) : result ustring :=
  let res := base n in
  let res := if komal n then flat_map (fun c => [c; COMBINING_UNDERLINE]) res else res in
  res <- (if tivra n
          then match res with
               | [] => Raise IndexError
               | c :: r => Ok ([c] ++ [COMBINING_VERTICAL_LINE_ABOVE] ++ r)
               end
          else Ok res) ;;
  if (octave n >? 0)%Z
  then append_to_last res (repeat COMBINING_DOT_ABOVE (Z.to_nat (octave n)))
  else if (octave n <? 0)%Z
  then append_to_last res (repeat COMBINING_DOT_BELOW (Z.to_nat (Z.abs (octave n))))
  else Ok res.

(** [parts[1]] parsed as an integer, with the default of the [except]
    branch when the index or the conversion fails. *)
Definition int_or (env : PyEnv) (parts : list ustring) (default : Z) : Z :=
  match nth_error parts 1 with
  | Some p => match py_int env p with
              | Some v => v
              | None => default
              end
  | None => default
  end.

(** [NotationParser.parse_note_spec]. *)
Definition parse_note_spec (env : PyEnv) (spec : ustring) : ustring * bool * bool * Z :=
  let spec := py_upper env (strip spec) in
  let komal := contains (lit "_K") spec in
  let spec := if komal then replace (lit "_K") [] spec else spec in
  let tivra := contains (lit "_T") spec in
  let spec := if tivra then replace (lit "_T") [] spec else spec in
  if has_char 43 spec then
    let parts := split_on 43 spec in
    (hd [] parts, komal, tivra, int_or env parts 1)
  else if has_char 45 spec && Nat.eqb (count_char 45 spec) 1 then
    let parts := split_on 45 spec in
    (hd [] parts, komal, tivra, (- int_or env parts 1)%Z)
  else (spec, komal, tivra, 0%Z).

(** One turn of the loop of [parse_sequence] on the notes collected so far
    and the lines printed so far. Only [ValueError] is caught. *)
Definition parse_step (env : PyEnv) (st : list Note * list ustring) (part : ustring)
  : result (list Note * list ustring) :=
  let '(notes, out) := st in
  match part with
  | [] => Ok st
  | _ =>
      let '(b, k, t, o) := parse_note_spec env part in
      match Note_init env b k t o with
      | Ok note => Ok (notes ++ [note], out)
      | Raise (ValueError e) =>
          Ok (notes, out ++ [lit "Warning: Skipping invalid note '" ++ part ++ lit "': " ++ e])
      | Raise e => Raise e
      end
  end.

Fixpoint parse_loop (env : PyEnv) (st : list Note * list ustring) (parts : list ustring)
  : result (list Note * list ustring) :=
  match parts with
  | [] => Ok st
  | part :: rest => st' <- parse_step env st part ;; parse_loop env st' rest
  end.

(** [NotationParser.parse_sequence] with what it prints. *)
Definition parse_sequence_out (env : PyEnv) (sequence : ustring)
  : result (list Note * list ustring) :=
  parse_loop env ([], []) (split_ws (strip sequence)).

(** [NotationParser.parse_sequence]: the returned list. *)
Definition parse_sequence (env : PyEnv) (sequence : ustring) : result (list Note) :=
  st <- parse_sequence_out env sequence ;; Ok (fst st).

(** [NotationParser.generate_notation_sequence]. *)
Definition generate_notation_sequence (notes : list Note) (separator : ustring)
  : result ustring :=
  rendered <- map_result to_notation notes ;; Ok (join separator rendered).

(* ===================================================================== *)
(** ** taal_definitions.py *)
(* ===================================================================== *)

Local Open Scope Z_scope.

(** The fields of the dataclass [Taal]. *)
Record Taal := {
  name : ustring;
  display_name : ustring;
  total_matras : Z;
  vibhag_structure : list Z;
  sam_position : Z;
  khali_positions : list Z;
  tali_positions : list Z;
  bols : option (list ustring)
}.

(** [sum(xs)]. *)
Definition sum (xs : list Z) : Z := fold_left Z.add xs 0.

(** [repr] of a list of integers. *)
Definition repr_int_list (l : list Z) : ustring :=
  lit "[" ++ join (lit ", ") (map str_of_int l) ++ lit "]".

(** The loops of [__post_init__] over the khali and the tali positions:
    the first position out of range raises. *)
Fixpoint check_positions (kind : ustring) (total : Z) (ps : list Z) : result unit :=
  match ps with
  | [] => Ok tt
  | pos :: r =>
      if (pos <? 1) || (pos >? total)
      then Raise (ValueError (kind ++ lit " position " ++ str_of_int pos
                              ++ lit " is out of range (1-" ++ str_of_int total ++ lit ")"))
      else check_positions kind total r
  end.

(** [Taal(...)]: the dataclass constructor followed by [__post_init__]. *)
Definition Taal_init (self : Taal) : result Taal :=
  if negb (sum (vibhag_structure self) =? total_matras self)
  then Raise (ValueError (lit "Vibhag structure " ++ repr_int_list (vibhag_structure self)
                          ++ lit " does not sum to total matras "
                          ++ str_of_int (total_matras self)))
  else
    _ <- check_positions (lit "Khali") (total_matras self) (khali_positions self) ;;
    _ <- check_positions (lit "Tali") (total_matras self) (tali_positions self) ;;
    Ok self.

(** The loop of [get_vibhag_for_matra] from index [i] with running total
    [cumulative]; [fallback] is the value returned after the loop. *)
Fixpoint vibhag_walk (matra cumulative i fallback : Z) (vs : list Z) : Z :=
  match vs with
  | [] => fallback
  | count :: r =>
      let cumulative := cumulative + count in
      if matra <=? cumulative then i + 1
      else vibhag_walk matra cumulative (i + 1) fallback r
  end.

(** [Taal.get_vibhag_for_matra]. *)
Definition get_vibhag_for_matra (self : Taal) (matra : Z) : result Z :=
  if (matra <? 1) || (matra >? total_matras self)
  then Raise (ValueError (lit "Matra " ++ str_of_int matra ++ lit " is out of range (1-"
                          ++ str_of_int (total_matras self) ++ lit ")"))
  else Ok (vibhag_walk matra 0 0 (Z.of_nat (List.length (vibhag_structure self)))
             (vibhag_structure self)).

Fixpoint start_walk (cumulative : Z) (vs : list Z) : list Z :=
  match vs with
  | [] => []
  | count :: r => (cumulative + count + 1) :: start_walk (cumulative + count) r
  end.

(** [Taal.get_vibhag_start_matras]. *)
Definition get_vibhag_start_matras (self : Taal) : list Z :=
  1 :: start_walk 0 (removelast (vibhag_structure self)).

(** [Taal.is_sam], [Taal.is_khali], [Taal.is_tali]. *)
Definition taal_is_sam (self : Taal) (matra : Z) : bool := matra =? sam_position self.
Definition taal_is_khali (self : Taal) (matra : Z) : bool := int_in_list matra (khali_positions self).
Definition taal_is_tali (self : Taal) (matra : Z) : bool := int_in_list matra (tali_positions self).

(** [Taal.get_matra_symbol]. *)
Definition get_matra_symbol (self : Taal) (matra : Z) : result ustring :=
  if taal_is_sam self matra then Ok (lit "X")
  else if taal_is_khali self matra then Ok (lit "0")
  else if taal_is_tali self matra then
    v <- get_vibhag_for_matra self matra ;; Ok (str_of_int v)
  else Ok [].

(** The catalog. *)
Definition TEENTAAL : Taal := {|
  name := lit "teentaal";
  display_name := lit "TeenTaal (" ++ [2340; 2368; 2344; 2340; 2366; 2354]%N ++ lit ")";
  total_matras := 16;
  vibhag_structure := [4; 4; 4; 4];
  sam_position := 1;
  khali_positions := [9];
  tali_positions := [1; 5; 13];
  bols := Some (map lit ["Dha"; "Dhin"; "Dhin"; "Dha"; "Dha"; "Dhin"; "Dhin"; "Dha";
                         "Dha"; "Tin"; "Tin"; "Ta"; "Ta"; "Dhin"; "Dhin"; "Dha"]%string)
|}.

Definition DADRA : Taal := {|
  name := lit "dadra";
  display_name := lit "Dadra (" ++ [2342; 2366; 2342; 2352; 2366]%N ++ lit ")";
  total_matras := 6;
  vibhag_structure := [3; 3];
  sam_position := 1;
  khali_positions := [4];
  tali_positions := [1];
  bols := Some (map lit ["Dha"; "Dhin"; "Na"; "Dha"; "Tin"; "Na"]%string)
|}.

Definition JHAPTAAL : Taal := {|
  name := lit "jhaptaal";
  display_name := lit "JhapTaal (" ++ [2333; 2346; 2340; 2366; 2354]%N ++ lit ")";
  total_matras := 10;
  vibhag_structure := [2; 3; 2; 3];
  sam_position := 1;
  khali_positions := [6];
  tali_positions := [1; 3; 8];
  bols := Some (map lit ["Dhi"; "Na"; "Dhi"; "Dhi"; "Na"; "Ti"; "Na"; "Dhi"; "Dhi"; "Na"]%string)
|}.

Definition EKTAAL : Taal := {|
  name := lit "ektaal";
  display_name := lit "EkTaal (" ++ [2319; 2325; 2340; 2366; 2354]%N ++ lit ")";
  total_matras := 12;
  vibhag_structure := [2; 2; 2; 2; 2; 2];
  sam_position := 1;
  khali_positions := [3; 7; 11];
  tali_positions := [1; 5; 9];
  bols := Some (map lit ["Dhin"; "Dhin"; "DhaGe"; "TiRaKiTa"; "Tu"; "Na";
                         "Kat"; "Ta"; "DhaGe"; "TiRaKiTa"; "Dhin"; "Na"]%string)
|}.

Definition RUPAK : Taal := {|
  name := lit "rupak";
  display_name := lit "Rupak (" ++ [2352; 2370; 2346; 2325]%N ++ lit ")";
  total_matras := 7;
  vibhag_structure := [3; 2; 2];
  sam_position := 1;
  khali_positions := [1];
  tali_positions := [4; 6];
  bols := Some (map lit ["Tin"; "Tin"; "Na"; "Dhi"; "Na"; "Dhi"; "Na"]%string)
|}.

Definition KEHERWA : Taal := {|
  name := lit "keherwa";
  display_name := lit "Keherwa (" ++ [2325; 2361; 2352; 2357; 2366]%N ++ lit ")";
  total_matras := 8;
  vibhag_structure := [4; 4];
  sam_position := 1;
  khali_positions := [5];
  tali_positions := [1];
  bols := Some (map lit ["Dha"; "Ge"; "Na"; "Ti"; "Na"; "Ka"; "Dhi"; "Na"]%string)
|}.

(** [TAAL_LIBRARY], in insertion order. *)
Definition TAAL_LIBRARY : list (ustring * Taal) :=
  [(lit "teentaal", TEENTAAL); (lit "dadra", DADRA); (lit "jhaptaal", JHAPTAAL);
   (lit "ektaal", EKTAAL); (lit "rupak", RUPAK); (lit "keherwa", KEHERWA)].

(* ===================================================================== *)
(** ** beat_grid.py *)
(* ===================================================================== *)

(** The fields of the dataclass [MatraCell]. *)
Record MatraCell := {
  matra_number : Z;
  vibhag_number : Z;
  is_sam : bool;
  is_khali : bool;
  is_tali : bool;
  symbol : ustring;
  swars : list ustring;
  rendered_notation : ustring
}.

Definition with_swars (cell : MatraCell) (sw : list ustring) (rn : ustring) : MatraCell :=
  {| matra_number := matra_number cell; vibhag_number := vibhag_number cell;
     is_sam := is_sam cell; is_khali := is_khali cell; is_tali := is_tali cell;
     symbol := symbol cell; swars := sw; rendered_notation := rn |}.

(** The body of the loop of [MatraCell._render_notation] for one swar: the
    [try] block, whose [except Exception] keeps the raw text. What
    [parse_sequence] prints is no part of the cell. *)
Definition render_swar (env : PyEnv) (swar : ustring) : ustring :=
  if ustring_eqb swar (lit "-") then lit "-"
  else
    match (notes <- parse_sequence env swar ;;
           match notes with
           | [] => Ok swar
           | _ => generate_notation_sequence notes (lit " ")
           end) with
    | Ok rendered => rendered
    | Raise _ => swar
    end.

(** [MatraCell._render_notation], as the new value of [rendered_notation]. *)
Definition _render_notation (env : PyEnv) (sw : list ustring) : ustring :=
  match sw with
  | [] => []
  | _ => join (lit " ") (map (render_swar env) sw)
  end.

(** [MatraCell.set_swars]. *)
Definition set_swars (env : PyEnv) (cell : MatraCell) (swar_input : ustring) : MatraCell :=
  let sw :=
    if ustring_eqb (strip swar_input) (lit "-") then [lit "-"]
    else match strip swar_input with
         | _ :: _ => split_ws (strip swar_input)
         | [] => []
         end in
  with_swars cell sw (_render_notation env sw).

(** [MatraCell.is_empty] and [MatraCell.get_display_text]. *)
Definition is_empty (cell : MatraCell) : bool := Nat.eqb (List.length (swars cell)) 0.
Definition get_display_text (cell : MatraCell) : ustring :=
  match rendered_notation cell with
  | _ :: _ => rendered_notation cell
  | [] => []
  end.

(** [VibhagGroup]: its cells are the very objects of [BeatGrid.matras], so
    the group holds their positions in that list rather than copies. *)
Record VibhagGroup := {
  vg_vibhag_number : Z;
  vg_matras : list nat;
  vg_start_matra : Z;
  vg_end_matra : Z
}.

(** The state of a [BeatGrid] object. *)
Record BeatGrid := {
  taal : Taal;
  matras : list MatraCell;
  vibhags : list VibhagGroup
}.

(** The inner loop of [_initialize_grid]: [k] cells from beat [matra_num]. *)
Fixpoint init_cells (t : Taal) (vnum matra_num : Z) (k : nat) : result (list MatraCell) :=
  match k with
  | O => Ok []
  | S k' =>
      sym <- get_matra_symbol t matra_num ;;
      rest <- init_cells t vnum (matra_num + 1) k' ;;
      Ok ({| matra_number := matra_num; vibhag_number := vnum;
             is_sam := taal_is_sam t matra_num; is_khali := taal_is_khali t matra_num;
             is_tali := taal_is_tali t matra_num; symbol := sym;
             swars := []; rendered_notation := [] |} :: rest)
  end.

(** The outer loop of [_initialize_grid] from vibhag index [vidx], with
    [done] cells created so far. *)
Fixpoint init_vibhags (t : Taal) (vidx matra_num : Z) (done : nat) (vs : list Z)
  : result (list MatraCell * list VibhagGroup) :=
  match vs with
  | [] => Ok ([], [])
  | matra_count :: r =>
      let k := Z.to_nat matra_count in
      cells <- init_cells t (vidx + 1) matra_num k ;;
      rest <- init_vibhags t (vidx + 1) (matra_num + Z.of_nat k) (done + k) r ;;
      Ok (cells ++ fst rest,
          {| vg_vibhag_number := vidx + 1; vg_matras := seq done k;
             vg_start_matra := matra_num;
             vg_end_matra := matra_num + matra_count - 1 |} :: snd rest)
  end.

(** [BeatGrid(taal)]. *)
Definition BeatGrid_init (t : Taal) : result BeatGrid :=
  r <- init_vibhags t 0 1 0 (vibhag_structure t) ;;
  Ok {| taal := t; matras := fst r; vibhags := snd r |}.

Definition with_matras (g : BeatGrid) (ms : list MatraCell) : BeatGrid :=
  {| taal := taal g; matras := ms; vibhags := vibhags g |}.

(** [l[i] = x] for an index known to be in range. *)
Fixpoint list_set {A} (i : nat) (x : A) (l : list A) : list A :=
  match l, i with
  | [], _ => []
  | _ :: r, O => x :: r
  | a :: r, S j => a :: list_set j x r
  end.

(** [self.matras[i].set_swars(text)] for [i >= 0]: the index raises past
    the end of the list. *)
Definition set_cell_at (env : PyEnv) (g : BeatGrid) (i : nat) (text : ustring)
  : result BeatGrid :=
  match nth_error (matras g) i with
  | None => Raise IndexError
  | Some cell => Ok (with_matras g (list_set i (set_swars env cell text) (matras g)))
  end.

(** [BeatGrid.set_matra_swars]: the grid after the call and the returned
    flag. *)
Definition set_matra_swars (env : PyEnv) (g : BeatGrid) (matra_number : Z)
  (swar_input : ustring) : result (BeatGrid * bool) :=
  if (matra_number <? 1) || (matra_number >? total_matras (taal g))
  then Ok (g, false)
  else g' <- set_cell_at env g (Z.to_nat (matra_number - 1)) swar_input ;; Ok (g', true).

(** [BeatGrid.get_matra]. *)
Definition get_matra (g : BeatGrid) (matra_number : Z) : result (option MatraCell) :=
  if (matra_number <? 1) || (matra_number >? total_matras (taal g))
  then Ok None
  else match nth_error (matras g) (Z.to_nat (matra_number - 1)) with
       | Some cell => Ok (Some cell)
       | None => Raise IndexError
       end.

(** [BeatGrid.clear_grid]. *)
Definition clear_grid (g : BeatGrid) : BeatGrid :=
  with_matras g (map (fun m => with_swars m [] []) (matras g)).

(** The loop of [fill_from_sequence] from index [i]. *)
Fixpoint fill_loop (env : PyEnv) (g : BeatGrid) (i : nat) (parts : list ustring)
  : result BeatGrid :=
  match parts with
  | [] => Ok g
  | swar :: rest =>
      g' <- (if Z.of_nat i <? total_matras (taal g)
             then set_cell_at env g i swar
             else Ok g) ;;
      fill_loop env g' (S i) rest
  end.

(** [BeatGrid.fill_from_sequence]: the grid after the call and the
    returned pair. *)
Definition fill_from_sequence (env : PyEnv) (g : BeatGrid) (sequence : ustring)
  : result (BeatGrid * (bool * ustring)) :=
  let g := clear_grid g in
  let parts := split_ws (strip sequence) in
  match parts with
  | [] => Ok (g, (true, lit "Grid cleared"))
  | _ =>
      let n := Z.of_nat (List.length parts) in
      if n >? total_matras (taal g)
      then Ok (g, (false, lit "Too many swars (" ++ str_of_int n ++ lit ") for "
                          ++ display_name (taal g) ++ lit " ("
                          ++ str_of_int (total_matras (taal g)) ++ lit " matras)"))
      else g' <- fill_loop env g 0 parts ;;
           Ok (g', (true, lit "Filled " ++ str_of_int n ++ lit " matras"))
  end.

(** [BeatGrid.get_rendered_notation]. *)
Definition display_or_dash (m : MatraCell) : ustring :=
  match get_display_text m with
  | _ :: _ => get_display_text m
  | [] => lit "-"
  end.

Definition get_rendered_notation (g : BeatGrid) : ustring :=
  join (lit " ") (map display_or_dash (matras g)).

(** [BeatGrid.is_complete] and [BeatGrid.get_filled_count]. *)
Definition is_complete (g : BeatGrid) : bool :=
  forallb (fun m => negb (is_empty m)) (matras g).
Definition get_filled_count (g : BeatGrid) : Z :=
  sum (map (fun _ => 1) (filter (fun m => negb (is_empty m)) (matras g))).

(* ===================================================================== *)
(** ** The other functions of the three modules and of export_notation.py *)
(* ===================================================================== *)

(** [NotationParser.create_note]: [None] where construction raises
    [ValueError]. *)
Definition create_note (env : PyEnv) (b : ustring) (k t : bool) (o : Z)
  : result (option Note) :=
  match Note_init env b k t o with
  | Ok n => Ok (Some n)
  | Raise (ValueError _) => Ok None
  | Raise e => Raise e
  end.

(** [get_valid_komal_notes], [get_valid_tivra_notes], [can_be_komal] and
    [can_be_tivra]. *)
Definition get_valid_komal_notes : list ustring :=
  [lit "RE"; lit "GA"; lit "DHA"; lit "NI"].
Definition get_valid_tivra_notes : list ustring := [lit "MA"].
Definition can_be_komal (env : PyEnv) (b : ustring) : bool :=
  str_in_list (py_upper env b) get_valid_komal_notes.
Definition can_be_tivra (env : PyEnv) (b : ustring) : bool :=
  str_in_list (py_upper env b) get_valid_tivra_notes.

(** [Taal.num_vibhags]. *)
Definition num_vibhags (self : Taal) : Z := Z.of_nat (List.length (vibhag_structure self)).

(** [s.lower()]: a text of ASCII characters is lower-cased character by
    character; for any other text the interpreter's full lower-casing,
    which looks at the context of a character, is the parameter
    [lower_full]. *)
Definition ascii_lower_char (c : N) : N :=
  if ((65 <=? c) && (c <=? 90))%N then (c + 32)%N else c.

Definition py_lower (lower_full : ustring -> ustring) (s : ustring) : ustring :=
  if forallb (fun c => (c <? 128)%N) s then map ascii_lower_char s else lower_full s.

(** [d.get(key)] for a dict written as the list of its items. *)
Fixpoint dict_get {V} (d : list (ustring * V)) (key : ustring) : option V :=
  match d with
  | [] => None
  | (k, v) :: r => if ustring_eqb k key then Some v else dict_get r key
  end.

(** [get_taal], [get_available_taals] and [get_taal_display_names]. *)
Definition get_taal (lower_full : ustring -> ustring) (name : ustring) : option Taal :=
  dict_get TAAL_LIBRARY (py_lower lower_full name).

Definition get_available_taals : list ustring := map fst TAAL_LIBRARY.

Definition get_taal_display_names : list (ustring * ustring) :=
  map (fun e => (fst e, display_name (snd e))) TAAL_LIBRARY.

(** The argument of [create_beat_grid]: a [Taal] object or a name. *)
Inductive taal_or_name :=
| GivenTaal (t : Taal)
| GivenName (name : ustring).

(** [create_beat_grid]. *)
Definition create_beat_grid (lower_full : ustring -> ustring) (x : taal_or_name)
  : result (option BeatGrid) :=
  match x with
  | GivenTaal t => g <- BeatGrid_init t ;; Ok (Some g)
  | GivenName name =>
      match get_taal lower_full name with
      | None => Ok None
      | Some t => g <- BeatGrid_init t ;; Ok (Some g)
      end
  end.

(** [l[a:b]] for a list: a negative bound counts from the end, and both
    bounds are brought back into the list. *)
Definition slice_bound (len i : Z) : Z :=
  if i <? 0 then Z.max 0 (i + len) else Z.min i len.

Definition py_slice {A} (l : list A) (a b : Z) : list A :=
  let len := Z.of_nat (List.length l) in
  let lo := slice_bound len a in
  let hi := slice_bound len b in
  firstn (Z.to_nat (hi - lo)) (skipn (Z.to_nat lo) l).

(** [BeatGrid.get_all_swars_as_sequence]. *)
Definition swars_text (m : MatraCell) : ustring :=
  match swars m with
  | [] => []
  | sw => join (lit " ") sw
  end.

Definition get_all_swars_as_sequence (g : BeatGrid) : ustring :=
  let parts := map swars_text (matras g) in
  join (lit " | ")
       (map (fun v => join (lit " ")
                        (py_slice parts (vg_start_matra v - 1) (vg_end_matra v)))
            (vibhags g)).

(** The cells of a vibhag group, read in the grid through their positions. *)
Definition vibhag_cells (g : BeatGrid) (v : VibhagGroup) : list MatraCell :=
  flat_map (fun i => match nth_error (matras g) i with
                     | Some m => [m]
                     | None => []
                     end) (vg_matras v).

(** [f"{s:^8}"] and the like: [s] centred in [width] columns, the odd
    space going to the right; a longer [s] is left as it is. *)
Definition fmt_center (width : nat) (s : ustring) : ustring :=
  let pad := (width - List.length s)%nat in
  let left := (pad / 2)%nat in
  repeat 32%N left ++ s ++ repeat 32%N (pad - left).

(** The swar of a cell as the text export shows it. *)
Definition export_swar (m : MatraCell) : ustring :=
  let swar := display_or_dash m in
  let swar := if (7 <? List.length swar)%nat then firstn 6 swar ++ [8230%N] else swar in
  fmt_center 8 swar.

Definition export_symbol (m : MatraCell) : ustring :=
  fmt_center 8 (match symbol m with
                | _ :: _ => symbol m
                | [] => lit " "
                end).

Definition export_number (m : MatraCell) : ustring :=
  fmt_center 8 (str_of_int (matra_number m)).

(** One of the three rows of a line of the text export. *)
Definition export_row (field : MatraCell -> ustring) (g : BeatGrid) : ustring :=
  join (lit " | ")
       (map (fun v => join (lit " ") (map field (vibhag_cells g v))) (vibhags g)).

(** The lines of one grid, numbered from [line_num]. *)
Fixpoint export_lines (line_num : Z) (grids : list BeatGrid) : list ustring :=
  match grids with
  | [] => []
  | g :: rest =>
      [lit "--- Line " ++ str_of_int line_num ++ lit " ---";
       lit "Matra:  " ++ export_row export_number g;
       lit "Symbol: " ++ export_row export_symbol g;
       lit "Swar:   " ++ export_row export_swar g;
       []]
      ++ export_lines (line_num + 1) rest
  end.

(** [generate_text_notation_multi]. *)
Definition generate_text_notation_multi (grids : list BeatGrid) (include_header : bool)
  : ustring :=
  match grids with
  | [] => []
  | g0 :: _ =>
      let taal := taal g0 in
      let header :=
        if include_header
        then [repeat 61%N 70;
              display_name taal;
              lit "Total Matras: " ++ str_of_int (total_matras taal)
                ++ lit " | Vibhags: " ++ str_of_int (num_vibhags taal)
                ++ lit " | Lines: " ++ str_of_int (Z.of_nat (List.length grids));
              repeat 61%N 70;
              []]
        else [] in
      join [10%N]
           (header ++ export_lines 1 grids
            ++ [repeat 45%N 70;
                lit "Legend: X = Sam (first beat), 0 = Khali (empty beat)"])
  end.

(** [distribute_swars_to_matras]. Its outcomes: the list it returns, or
    one of the two errors its statements can raise. *)
Inductive distributed :=
| Distributed (r : list (list ustring))
| DistZeroDivisionError
| DistIndexError.

(** [for i, swar in enumerate(swars): result[i] = [swar]], from index [i];
    [None] when an index is past the end of [result]. *)
Fixpoint assign_each (i : nat) (swars : list ustring) (result : list (list ustring))
  : option (list (list ustring)) :=
  match swars with
  | [] => Some result
  | s :: r =>
      if (i <? List.length result)%nat
      then assign_each (S i) r (list_set i [s] result)
      else None
  end.

(** [for i in range(n): result[i] = swars[int(i * x):int((i + 1) * x)]],
    where [index i] is [int(i * x)]. *)
Definition spread_each (index : Z -> Z) (swars : list ustring) (n : nat)
    (result : list (list ustring)) : list (list ustring) :=
  fold_left (fun r i => list_set i (py_slice swars (index (Z.of_nat i))
                                              (index (Z.of_nat i + 1))) r)
            (seq 0 n) result.

(** [scaled i n d] is [int(i * (n / d))] as the interpreter computes it
    in floating point, for [d] other than 0; the sources do not fix it,
    and it is not always the integer part of the exact quotient. *)
Definition distribute_swars_to_matras (scaled : Z -> Z -> Z -> Z)
    (swars : list ustring) (total_matras : Z) : distributed :=
  let result := repeat (@nil ustring) (Z.to_nat total_matras) in
  match swars with
  | [] => Distributed result
  | _ =>
      let len := Z.of_nat (List.length swars) in
      if len <=? total_matras then
        match assign_each 0 swars result with
        | Some r => Distributed r
        | None => DistIndexError
        end
      else if total_matras =? 0 then DistZeroDivisionError
      else Distributed (spread_each (fun i => scaled i len total_matras) swars
                                    (Z.to_nat total_matras) result)
  end.

(* ===================================================================== *)
(** ** The vocabulary of the statements *)
(* ===================================================================== *)

(** The five rules of a note, as propositions on its fields. *)
Definition rules_hold (n : Note) : Prop :=
  In (base n) valid_bases /\
  (komal n = true -> In (base n) komal_bases) /\
  (tivra n = true -> base n = lit "MA") /\
  ~ (komal n = true /\ tivra n = true) /\
  -3 <= octave n <= 3.

(** The messages of the violated rules, in the order of the rules. *)
Definition violated_messages (n : Note) : list ustring :=
  map snd (filter fst
    [(bad_base n, err_base n); (bad_komal n, err_komal n); (bad_tivra n, err_tivra n);
     (bad_both n, err_both); (bad_octave n, err_octave n)]).

(** [mark] placed after every character of [s]. *)
Fixpoint after_every (mark : N) (s : ustring) : ustring :=
  match s with
  | [] => []
  | c :: r => c :: mark :: after_every mark r
  end.

(** [mark] placed after the first character of [s] only. *)
Definition after_first (mark : N) (s : ustring) : ustring :=
  match s with
  | [] => []
  | c :: r => c :: mark :: r
  end.

(** The rendering of a note in the words of the notation rules: komal
    marks, then the tivra mark, then the octave dots at the very end. *)
Definition render_spec (n : Note) : ustring :=
  let s := base n in
  let s := if komal n then after_every COMBINING_UNDERLINE s else s in
  let s := if tivra n then after_first COMBINING_VERTICAL_LINE_ABOVE s else s in
  if octave n =? 0 then s
  else s ++ repeat (if 0 <? octave n then COMBINING_DOT_ABOVE else COMBINING_DOT_BELOW)
                   (Z.abs_nat (octave n)).

(** A token: a non-empty string free of white space. *)
Definition is_token (t : ustring) : Prop :=
  t <> [] /\ Forall (fun c => py_isspace c = false) t.

(** The note a token stands for, if it stands for one. *)
Definition note_of_token (env : PyEnv) (tok : ustring) : option Note :=
  let '(b, k, t, o) := parse_note_spec env tok in
  match Note_init env b k t o with
  | Ok n => Some n
  | Raise _ => None
  end.

Fixpoint keep_some {A} (l : list (option A)) : list A :=
  match l with
  | [] => []
  | Some a :: r => a :: keep_some r
  | None :: r => keep_some r
  end.

(** The notes of the tokens that stand for one, in the order of the tokens. *)
Definition notes_of_tokens (env : PyEnv) (toks : list ustring) : list Note :=
  keep_some (map (note_of_token env) toks).

(** The rendering of one swar of a cell: the continuation marker as it is,
    a text with at least one note as the rendered notes, any other text
    unchanged. *)
Definition render_token_spec (env : PyEnv) (tok : ustring) : ustring :=
  if ustring_eqb tok (lit "-") then lit "-"
  else match notes_of_tokens env (split_ws tok) with
       | [] => tok
       | ns => join (lit " ") (map render_spec ns)
       end.

(** Tokens assigned to the cells in order; cells past the last token are
    left as they are. *)
Fixpoint fill_cells (env : PyEnv) (cells : list MatraCell) (parts : list ustring)
  : list MatraCell :=
  match cells, parts with
  | c :: cs, p :: ps => set_swars env c p :: fill_cells env cs ps
  | _, _ => cells
  end.

(** The grid of a taal, for the taals whose grid can be built. *)
Definition grid_of (t : Taal) : BeatGrid :=
  match BeatGrid_init t with
  | Ok g => g
  | Raise _ => {| taal := t; matras := []; vibhags := [] |}
  end.

(** A beat number within the cycle. *)
Definition in_cycle (total pos : Z) : Prop := 1 <= pos <= total.

(** Two descriptions outside the shipped catalog: a cycle of no beat at
    all, and a cycle with a negative vibhag. *)
Definition zero_taal : Taal := {|
  name := lit "zero"; display_name := lit "Zero";
  total_matras := 0; vibhag_structure := [];
  sam_position := 1; khali_positions := []; tali_positions := []; bols := None
|}.

Definition negative_vibhag_taal : Taal := {|
  name := lit "odd"; display_name := lit "Odd";
  total_matras := 4; vibhag_structure := [5; -1];
  sam_position := 1; khali_positions := [3]; tali_positions := [1]; bols := None
|}.

(** The komal and tivra markers looked for and removed in an upper-cased
    text: the text left and the two flags. *)
Definition strip_markers (spec : ustring) : ustring * bool * bool :=
  let k := contains (lit "_K") spec in
  let spec := if k then replace (lit "_K") [] spec else spec in
  let t := contains (lit "_T") spec in
  let spec := if t then replace (lit "_T") [] spec else spec in
  (spec, k, t).

(** The text in which [parse_note_spec] looks for the octave suffix: the
    trimmed, upper-cased text without its komal and tivra markers. *)
Definition remaining (env : PyEnv) (text : ustring) : ustring :=
  fst (fst (strip_markers (py_upper env (strip text)))).

Definition komal_marked (env : PyEnv) (text : ustring) : bool :=
  snd (fst (strip_markers (py_upper env (strip text)))).

Definition tivra_marked (env : PyEnv) (text : ustring) : bool :=
  snd (strip_markers (py_upper env (strip text))).

(** [int(d)] or the default. *)
Definition int_default (env : PyEnv) (d : ustring) (default : Z) : Z :=
  match py_int env d with
  | Some v => v
  | None => default
  end.

Definition ascii_digit (c : N) : Prop := (48 <= c <= 57)%N.

(** The number a string of ASCII digits writes. *)
Definition digits_value (ds : ustring) : Z :=
  fold_left (fun acc c => 10 * acc + Z.of_N (c - 48)) ds 0.

(** The cap on the digits of a numeral leaves [ds] alone. *)
Definition within_cap (env : PyEnv) (ds : ustring) : Prop :=
  max_str_digits env = 0%N \/ (N.of_nat (List.length ds) <= max_str_digits env)%N.










(** The grids a program can hold: built from a constructed taal, then
    changed by the operations of the grid only. *)
Inductive reachable (env : PyEnv) (t : Taal) : BeatGrid -> Prop :=
| reach_init g :
    Taal_init t = Ok t -> BeatGrid_init t = Ok g -> reachable env t g
| reach_set g beat text g' flag :
    reachable env t g -> set_matra_swars env g beat text = Ok (g', flag) ->
    reachable env t g'
| reach_clear g :
    reachable env t g -> reachable env t (clear_grid g)
| reach_fill g text g' r :
    reachable env t g -> fill_from_sequence env g text = Ok (g', r) ->
    reachable env t g'.

(** The rendering kept in a cell is the rendering of its swars. *)
Definition cache_fresh (env : PyEnv) (m : MatraCell) : Prop :=
  rendered_notation m = _render_notation env (swars m).

(** Concrete inputs on which the statements are exercised. *)
Definition komal_re_low : Note :=
  {| base := lit "RE"; komal := true; tivra := false; octave := -1 |}.

Definition dadra_grid : BeatGrid := grid_of DADRA.

(** Settles the comparisons of code points that the hypotheses decide. *)
Ltac settle_comparisons :=
  repeat match goal with
    | |- context [(?a <=? ?b)%N] =>
        first [ replace (a <=? b)%N with true by (symmetry; apply N.leb_le; lia)
              | replace (a <=? b)%N with false by (symmetry; apply N.leb_gt; lia) ]
    | |- context [(?a <? ?b)%N] =>
        first [ replace (a <? b)%N with true by (symmetry; apply N.ltb_lt; lia)
              | replace (a <? b)%N with false by (symmetry; apply N.ltb_ge; lia) ]
    | |- context [(?a =? ?b)%N] =>
        first [ replace (a =? b)%N with true by (symmetry; apply N.eqb_eq; lia)
              | replace (a =? b)%N with false by (symmetry; apply N.eqb_neq; lia) ]
    end.

(** What construction gives a cell and no operation changes. *)
Definition cell_meta (m : MatraCell) : Z * Z * bool * bool * bool * ustring :=
  (matra_number m, vibhag_number m, is_sam m, is_khali m, is_tali m, symbol m).

(** A cell emptied. *)
Definition cleared (m : MatraCell) : MatraCell := with_swars m [] [].

(** Two grids that differ in the swars of their cells at most. *)
Definition same_frame (g g' : BeatGrid) : Prop :=
  taal g' = taal g /\ vibhags g' = vibhags g /\
  map cleared (matras g') = map cleared (matras g).

(** The cells of the first [k] vibhags of a structure: a negative entry
    gives no cell. *)
Definition cells_before (vs : list Z) (k : nat) : nat :=
  list_sum (map Z.to_nat (firstn k vs)).

(** The accents and the symbol of a cell are those its taal gives its
    beat. *)
Definition cell_of_taal (t : Taal) (c : MatraCell) : Prop :=
  is_sam c = taal_is_sam t (matra_number c) /\
  is_khali c = taal_is_khali t (matra_number c) /\
  is_tali c = taal_is_tali t (matra_number c) /\
  get_matra_symbol t (matra_number c) = Ok (symbol c).

(** The four combining marks of the notation, and a text without them. *)
Definition is_mark (c : N) : bool :=
  (c =? COMBINING_DOT_ABOVE)%N || (c =? COMBINING_DOT_BELOW)%N
  || (c =? COMBINING_UNDERLINE)%N || (c =? COMBINING_VERTICAL_LINE_ABOVE)%N.

Definition unmarked (s : ustring) : ustring := filter (fun c => negb (is_mark c)) s.

(** The base and the octave [parse_note_spec] returns. *)
Definition spec_base (env : PyEnv) (text : ustring) : ustring :=
  fst (fst (fst (parse_note_spec env text))).

Definition spec_octave (env : PyEnv) (text : ustring) : Z :=
  snd (parse_note_spec env text).

(** Lists put one after the other with [sep] between them. *)
Fixpoint join_lists {A} (sep : list A) (groups : list (list A)) : list A :=
  match groups with
  | [] => []
  | [x] => x
  | x :: r => x ++ sep ++ join_lists sep r
  end.

(** The token that separates the vibhags in a sequence. *)
Definition is_bar (tok : ustring) : bool := ustring_eqb tok (lit "|").

(** The number and the symbol of a cell fit the eight columns the text
    export gives a field. *)
Definition fits_meta (x : Z * Z * bool * bool * bool * ustring) : bool :=
  let '(n, _, _, _, _, s) := x in
  (List.length s <=? 8)%nat && (List.length (str_of_int n) <=? 8)%nat.

Definition fits_column (m : MatraCell) : bool := fits_meta (cell_meta m).

(** The width of a row of the text export whose fields all take eight
    columns: a space between the fields of a vibhag, " | " between two
    vibhags. *)
Definition row_width (g : BeatGrid) : nat :=
  (list_sum (map (fun v => 9 * List.length (vibhag_cells g v) - 1) (vibhags g))
   + 3 * (List.length (vibhags g) - 1))%nat.

(** What the rendered notation of a grid shows for a cell: a dash for a
    cell without swar, else the rendering of each swar. *)
Definition cell_fields (env : PyEnv) (m : MatraCell) : list ustring :=
  match swars m with
  | [] => [lit "-"]
  | sw => map (render_token_spec env) sw
  end.

(** A beat shows an accent symbol. *)
Definition has_symbol (t : Taal) (beat : Z) : bool :=
  match get_matra_symbol t beat with
  | Ok (_ :: _) => true
  | _ => false
  end.

(** The grid an operation leaves, for the concrete inputs below. *)
Definition grid_after {A} (r : result (BeatGrid * A)) (g : BeatGrid) : BeatGrid :=
  match r with
  | Ok (g', _) => g'
  | Raise _ => g
  end.

Definition dadra_set : BeatGrid :=
  grid_after (set_matra_swars ascii_env dadra_grid 2 (lit " sa  re ")) dadra_grid.

Definition dadra_set_other : BeatGrid :=
  grid_after (set_matra_swars ascii_env dadra_grid 3 (lit "pa")) dadra_grid.

Definition dadra_filled : BeatGrid :=
  grid_after (fill_from_sequence ascii_env dadra_grid (lit "SA RE_k - GA")) dadra_grid.

(* ===================================================================== *)
(** ** Strings *)
(* ===================================================================== *)

Lemma ustring_eqb_eq (a b : ustring) : ustring_eqb a b = true <-> a = b.
Proof.
  unfold ustring_eqb. destruct (list_eq_dec N.eq_dec a b); split; congruence.
Qed.

Lemma ustring_eqb_refl (a : ustring) : ustring_eqb a a = true.
Proof. now apply ustring_eqb_eq. Qed.

Lemma str_in_list_In (x : ustring) (xs : list ustring) :
  str_in_list x xs = true <-> In x xs.
Proof.
  unfold str_in_list. rewrite existsb_exists. split.
  - intros [y [Hy He]]. apply ustring_eqb_eq in He. now subst.
  - intros H. exists x. split; [assumption | apply ustring_eqb_refl].
Qed.

Lemma int_in_list_In (x : Z) (xs : list Z) : int_in_list x xs = true <-> In x xs.
Proof.
  unfold int_in_list. rewrite existsb_exists. split.
  - intros [y [Hy He]]. apply Z.eqb_eq in He. now subst.
  - intros H. exists x. split; [assumption | apply Z.eqb_refl].
Qed.

(* ===================================================================== *)
(** ** Note construction *)
(* ===================================================================== *)

Lemma validate_violated (n : Note) : validate n = violated_messages n.
Proof.
  unfold validate, violated_messages.
  destruct (bad_base n), (bad_komal n), (bad_tivra n), (bad_both n), (bad_octave n);
    reflexivity.
Qed.

Lemma bad_base_iff n : bad_base n = false <-> In (base n) valid_bases.
Proof.
  unfold bad_base. rewrite negb_false_iff. apply str_in_list_In.
Qed.

Lemma bad_komal_iff n : bad_komal n = false <-> (komal n = true -> In (base n) komal_bases).
Proof.
  unfold bad_komal. rewrite <- str_in_list_In.
  destruct (komal n), (str_in_list (base n) komal_bases); simpl; intuition congruence.
Qed.

Lemma bad_tivra_iff n : bad_tivra n = false <-> (tivra n = true -> base n = lit "MA").
Proof.
  unfold bad_tivra. rewrite <- ustring_eqb_eq.
  destruct (tivra n), (ustring_eqb (base n) (lit "MA")); simpl; intuition congruence.
Qed.

Lemma bad_both_iff n : bad_both n = false <-> ~ (komal n = true /\ tivra n = true).
Proof.
  unfold bad_both. destruct (komal n), (tivra n); simpl; intuition congruence.
Qed.

Lemma bad_octave_iff n : bad_octave n = false <-> -3 <= octave n <= 3.
Proof.
  unfold bad_octave. rewrite negb_false_iff, andb_true_iff. lia.
Qed.

Lemma validate_nil_iff n : validate n = [] <-> rules_hold n.
Proof.
  unfold rules_hold.
  rewrite <- bad_base_iff, <- bad_komal_iff, <- bad_tivra_iff, <- bad_both_iff,
    <- bad_octave_iff.
  rewrite validate_violated. unfold violated_messages.
  destruct (bad_base n), (bad_komal n), (bad_tivra n), (bad_both n), (bad_octave n);
    simpl; intuition congruence.
Qed.

Lemma Note_init_Ok env b k t o n :
  Note_init env b k t o = Ok n ->
  n = {| base := py_upper env b; komal := k; tivra := t; octave := o |} /\ validate n = [].
Proof.
  unfold Note_init. intros H.
  destruct (validate _) eqn:E; [| discriminate].
  inversion H; subst. now split.
Qed.

Lemma Note_init_valid env b k t o :
  let n := {| base := py_upper env b; komal := k; tivra := t; octave := o |} in
  validate n = [] -> Note_init env b k t o = Ok n.
Proof. intros n H. unfold Note_init. fold n. now rewrite H. Qed.

(** Construction raises nothing but [ValueError]. *)
Lemma Note_init_cases env b k t o :
  (exists n, Note_init env b k t o = Ok n) \/
  (exists msg, Note_init env b k t o = Raise (ValueError msg)).
Proof.
  unfold Note_init. destruct (validate _); [left | right]; eauto.
Qed.


(* ===================================================================== *)
(** ** Rendering a note *)
(* ===================================================================== *)

Lemma flat_map_after_every (mark : N) (s : ustring) :
  flat_map (fun c => [c; mark]) s = after_every mark s.
Proof. induction s as [| c r IH]; simpl; [reflexivity | now rewrite IH]. Qed.

Lemma append_to_last_app (res dots : ustring) :
  res <> [] -> append_to_last res dots = Ok (res ++ dots).
Proof.
  intros Hne. unfold append_to_last.
  destruct (rev res) as [| l r'] eqn:E.
  - apply (f_equal (@rev N)) in E. rewrite rev_involutive in E. simpl in E. contradiction.
  - apply (f_equal (@rev N)) in E. rewrite rev_involutive in E. simpl in E. subst res.
    rewrite removelast_last. now rewrite <- app_assoc.
Qed.

Lemma valid_base_nonempty (n : Note) : In (base n) valid_bases -> base n <> [].
Proof.
  intros H E. rewrite E in H. simpl in H.
  repeat (destruct H as [H | H]; [discriminate H |]). exact H.
Qed.

(** The code and the rules agree on every note with a non-empty base. *)
Lemma to_notation_render (n : Note) :
  base n <> [] -> to_notation n = Ok (render_spec n).
Proof.
  intros Hne. unfold to_notation, render_spec.
  rewrite flat_map_after_every.
  set (s1 := if komal n then after_every COMBINING_UNDERLINE (base n) else base n).
  assert (H1 : s1 <> []).
  { unfold s1. destruct (komal n); [| exact Hne].
    destruct (base n); [contradiction | discriminate]. }
  set (s2 := if tivra n then after_first COMBINING_VERTICAL_LINE_ABOVE s1 else s1).
  assert (H3 : s2 <> []).
  { unfold s2. destruct (tivra n); [| exact H1].
    destruct s1; [contradiction | discriminate]. }
  assert (H2 : (if tivra n
                then match s1 with
                     | [] => Raise IndexError
                     | c :: r => Ok ([c] ++ [COMBINING_VERTICAL_LINE_ABOVE] ++ r)
                     end
                else Ok s1) = Ok s2).
  { unfold s2. destruct (tivra n); [| reflexivity].
    destruct s1; [contradiction | reflexivity]. }
  etransitivity; [apply (f_equal (fun r => bind r _) H2) |]. cbn [bind].
  destruct (octave n >? 0) eqn:Hpos.
  - apply Z.gtb_lt in Hpos.
    replace (octave n =? 0) with false by (symmetry; apply Z.eqb_neq; lia).
    replace (0 <? octave n) with true by (symmetry; apply Z.ltb_lt; lia).
    rewrite append_to_last_app by exact H3.
    now rewrite Zabs2Nat.abs_nat_nonneg by lia.
  - assert (Hle : octave n <= 0).
    { destruct (Z.gtb_spec (octave n) 0); [discriminate | lia]. }
    destruct (octave n <? 0) eqn:Hneg.
    + apply Z.ltb_lt in Hneg.
      replace (octave n =? 0) with false by (symmetry; apply Z.eqb_neq; lia).
      replace (0 <? octave n) with false by (symmetry; apply Z.ltb_ge; lia).
      rewrite append_to_last_app by exact H3.
      now rewrite Zabs2Nat.abs_nat_spec.
    + apply Z.ltb_ge in Hneg.
      replace (octave n =? 0) with true by (symmetry; apply Z.eqb_eq; lia).
      reflexivity.
Qed.

Lemma to_notation_valid (n : Note) :
  validate n = [] -> to_notation n = Ok (render_spec n).
Proof.
  intros H. apply to_notation_render, valid_base_nonempty.
  apply validate_nil_iff in H. apply H.
Qed.

(** C2: a successfully constructed note renders as its base with, in this
    order, an underline after every character when komal, the vertical
    line after the first character when tivra, and [abs(octave)] dots
    above or below at the very end; tivra MA two octaves up is
    M, U+030D, A, U+0307, U+0307. *)
Theorem C2_render env b k t o n :
  Note_init env b k t o = Ok n ->
  to_notation n = Ok (render_spec n) /\
  (m <- Note_init env (lit "MA") false true 2 ;; to_notation m)
    = Ok ([77; 781; 65; 775; 775]%N).
Proof.
  intros H. split.
  - apply Note_init_Ok in H. now apply to_notation_valid.
  - reflexivity.
Qed.

(* ===================================================================== *)
(** ** The accent symbol of a beat *)
(* ===================================================================== *)

Lemma get_vibhag_in_range (t : Taal) (beat : Z) :
  1 <= beat <= total_matras t ->
  get_vibhag_for_matra t beat =
    Ok (vibhag_walk beat 0 0 (Z.of_nat (List.length (vibhag_structure t)))
          (vibhag_structure t)).
Proof.
  intros [H1 H2]. unfold get_vibhag_for_matra.
  replace (beat <? 1) with false by (symmetry; apply Z.ltb_ge; lia).
  replace (beat >? total_matras t) with false; [reflexivity |].
  symmetry. destruct (Z.gtb_spec beat (total_matras t)); [lia | reflexivity].
Qed.

Lemma int_in_list_false (x : Z) (xs : list Z) : ~ In x xs -> int_in_list x xs = false.
Proof.
  intros H. destruct (int_in_list x xs) eqn:E; [| reflexivity].
  apply int_in_list_In in E. contradiction.
Qed.

(** C3: within the cycle, the symbol of a beat is X on the sam, else 0 on
    a khali beat, else the vibhag number on a tali beat, else empty,
    whatever other accent lists the beat is in (Rupak lists beat 1 as
    khali and still shows X); TeenTaal gives X, 0, 2 and the empty string
    at beats 1, 9, 5 and 16. *)
Theorem C3_symbol_precedence (t : Taal) (beat : Z) :
  1 <= beat <= total_matras t ->
  (beat = sam_position t -> get_matra_symbol t beat = Ok (lit "X")) /\
  (beat <> sam_position t -> In beat (khali_positions t) ->
     get_matra_symbol t beat = Ok (lit "0")) /\
  (beat <> sam_position t -> ~ In beat (khali_positions t) ->
     In beat (tali_positions t) ->
     exists v, get_vibhag_for_matra t beat = Ok v /\
               get_matra_symbol t beat = Ok (str_of_int v)) /\
  (beat <> sam_position t -> ~ In beat (khali_positions t) ->
     ~ In beat (tali_positions t) -> get_matra_symbol t beat = Ok []) /\
  (In 1 (khali_positions RUPAK) /\ get_matra_symbol RUPAK 1 = Ok (lit "X")) /\
  get_matra_symbol TEENTAAL 1 = Ok (lit "X") /\
  get_matra_symbol TEENTAAL 9 = Ok (lit "0") /\
  get_matra_symbol TEENTAAL 5 = Ok (lit "2") /\
  get_matra_symbol TEENTAAL 16 = Ok (lit "").
Proof.
  intros Hr. unfold get_matra_symbol, taal_is_sam, taal_is_khali, taal_is_tali.
  split; [| split; [| split; [| split]]].
  - intros ->. now rewrite Z.eqb_refl.
  - intros Hs Hk. apply Z.eqb_neq in Hs. rewrite Hs.
    apply int_in_list_In in Hk. now rewrite Hk.
  - intros Hs Hk Ht. apply Z.eqb_neq in Hs. rewrite Hs.
    rewrite (int_in_list_false _ _ Hk). apply int_in_list_In in Ht. rewrite Ht.
    rewrite (get_vibhag_in_range t Hr). eexists. split; reflexivity.
  - intros Hs Hk Ht. apply Z.eqb_neq in Hs. rewrite Hs.
    now rewrite (int_in_list_false _ _ Hk), (int_in_list_false _ _ Ht).
  - repeat split; try reflexivity. simpl. auto.
Qed.

(* ===================================================================== *)
(** ** White space: [strip] and [split] *)
(* ===================================================================== *)

Lemma split_ws_all_space (s : ustring) :
  forallb py_isspace s = true -> split_ws s = [].
Proof.
  induction s as [| c r IH]; simpl; [reflexivity |].
  intros H. apply andb_true_iff in H as [Hc Hr]. rewrite Hc. auto.
Qed.

Lemma dropwhile_split (p : N -> bool) (s : ustring) :
  exists sp, s = sp ++ dropwhile p s /\ forallb p sp = true.
Proof.
  induction s as [| c r [sp [E F]]]; simpl.
  - exists []. split; reflexivity.
  - destruct (p c) eqn:Hc.
    + exists (c :: sp). simpl. rewrite Hc, F. split; [now f_equal | reflexivity].
    + exists []. split; reflexivity.
Qed.

Lemma split_ws_dropwhile (s : ustring) :
  split_ws (dropwhile py_isspace s) = split_ws s.
Proof.
  induction s as [| c r IH]; [reflexivity |].
  cbn [dropwhile]. destruct (py_isspace c) eqn:Hc; [| reflexivity].
  cbn [split_ws]. now rewrite Hc.
Qed.

Lemma split_ws_app_space (a sp : ustring) :
  forallb py_isspace sp = true -> split_ws (a ++ sp) = split_ws a.
Proof.
  intros Hsp. induction a as [| c r IH].
  - simpl. now apply split_ws_all_space.
  - cbn [app split_ws]. destruct (py_isspace c); [exact IH |].
    destruct r as [| c' r'].
    + cbn [app]. destruct sp as [| c' sp']; [reflexivity |].
      cbn [forallb] in Hsp. apply andb_true_iff in Hsp as [Hc' Hsp'].
      rewrite Hc'. f_equal. apply split_ws_all_space. cbn [forallb].
      now rewrite Hc', Hsp'.
    + cbn [app] in *. now rewrite IH.
Qed.

Lemma rstrip_split (s : ustring) :
  exists sp, s = rstrip s ++ sp /\ forallb py_isspace sp = true.
Proof.
  unfold rstrip. destruct (dropwhile_split py_isspace (rev s)) as [sp [E F]].
  exists (rev sp). split.
  - rewrite <- rev_app_distr, <- E. now rewrite rev_involutive.
  - rewrite forallb_forall in *. intros x Hx. apply F. now apply in_rev.
Qed.

Lemma split_ws_strip (s : ustring) : split_ws (strip s) = split_ws s.
Proof.
  unfold strip, lstrip.
  destruct (rstrip_split (dropwhile py_isspace s)) as [sp [E F]].
  rewrite <- (split_ws_dropwhile s). rewrite E at 2.
  now rewrite split_ws_app_space.
Qed.

Lemma split_ws_tokens (s : ustring) : Forall is_token (split_ws s).
Proof.
  induction s as [| c r IH]; cbn [split_ws]; [constructor |].
  destruct (py_isspace c) eqn:Hc; [exact IH |].
  assert (T1 : is_token [c]).
  { split; [discriminate | constructor; [exact Hc | constructor]]. }
  destruct r as [| c' r']; [constructor; [exact T1 | constructor] |].
  destruct (py_isspace c') eqn:Hc'; [constructor; assumption |].
  destruct (split_ws (c' :: r')) as [| w ws]; [constructor; [exact T1 | constructor] |].
  inversion IH as [| ? ? [Hw Fw] Hws]; subst.
  constructor; [| exact Hws].
  split; [discriminate | constructor; assumption].
Qed.

Lemma split_ws_token (t : ustring) : is_token t -> split_ws t = [t].
Proof.
  intros [Hne F]. induction F as [| c r Hc F IH]; [contradiction |].
  cbn [split_ws]. rewrite Hc. destruct r as [| c' r']; [reflexivity |].
  inversion F as [| ? ? Hc' F']; subst. rewrite Hc'.
  rewrite IH by discriminate. reflexivity.
Qed.

Lemma dropwhile_token (t : ustring) : is_token t -> dropwhile py_isspace t = t.
Proof.
  intros [Hne F]. destruct F as [| c r Hc F]; [contradiction |].
  simpl. now rewrite Hc.
Qed.

Lemma strip_token (t : ustring) : is_token t -> strip t = t.
Proof.
  intros T. unfold strip, lstrip, rstrip. rewrite (dropwhile_token T).
  assert (T' : is_token (rev t)).
  { destruct T as [Hne F]. split.
    - intros E. apply Hne. apply (f_equal (@rev N)) in E.
      now rewrite rev_involutive in E.
    - apply Forall_rev. exact F. }
  rewrite (dropwhile_token T'). apply rev_involutive.
Qed.

Lemma strip_all_space (s : ustring) : forallb py_isspace s = true -> strip s = [].
Proof.
  intros H. unfold strip, lstrip.
  assert (E : dropwhile py_isspace s = []).
  { induction s as [| c r IH]; [reflexivity |].
    simpl in *. apply andb_true_iff in H as [Hc Hr]. rewrite Hc. auto. }
  rewrite E. reflexivity.
Qed.

(* ===================================================================== *)
(** ** Parsing a sequence *)
(* ===================================================================== *)

Lemma parse_step_spec env notes out part :
  exists out',
    parse_step env (notes, out) part
    = Ok (notes ++ keep_some [note_of_token env part], out ++ out') /\
    (List.length (keep_some [note_of_token env part]) + List.length out' = 1)%nat
    \/ (part = [] /\ parse_step env (notes, out) part = Ok (notes, out)).
Proof.
  destruct part as [| c r].
  - exists []. right. split; reflexivity.
  - unfold parse_step, note_of_token.
    destruct (parse_note_spec env (c :: r)) as [[[b k] t] o].
    destruct (Note_init_cases env b k t o) as [[n E] | [msg E]]; rewrite E.
    + exists []. left. split; [now rewrite app_nil_r | reflexivity].
    + eexists [_]. left. split; [| reflexivity]. simpl. now rewrite app_nil_r.
Qed.

Lemma note_of_token_nil env : note_of_token env [] = None.
Proof. reflexivity. Qed.

Lemma parse_loop_spec env parts : forall notes out,
  Forall is_token parts ->
  exists out',
    parse_loop env (notes, out) parts
    = Ok (notes ++ notes_of_tokens env parts, out ++ out') /\
    (List.length (notes_of_tokens env parts) + List.length out'
     = List.length parts)%nat.
Proof.
  induction parts as [| p ps IH]; intros notes out F.
  - exists []. simpl. now rewrite !app_nil_r.
  - inversion F as [| ? ? [Hp _] Fps]; subst.
    cbn [parse_loop].
    destruct (parse_step_spec env notes out p) as [o1 [[E L] | [E _]]];
      [| contradiction].
    rewrite E. cbn [bind].
    destruct (IH (notes ++ keep_some [note_of_token env p]) (out ++ o1) Fps)
      as [o2 [E2 L2]].
    exists (o1 ++ o2). rewrite E2. unfold notes_of_tokens in *. cbn [map].
    split.
    + rewrite <- !app_assoc. do 2 f_equal.
      destruct (note_of_token env p); reflexivity.
    + rewrite length_app. cbn [List.length].
      destruct (note_of_token env p); cbn [keep_some List.length] in *; lia.
Qed.

Lemma parse_sequence_spec env text :
  parse_sequence env text = Ok (notes_of_tokens env (split_ws text)).
Proof.
  unfold parse_sequence, parse_sequence_out. rewrite split_ws_strip.
  destruct (parse_loop_spec env [] [] (split_ws_tokens text)) as [o [E _]].
  rewrite E. reflexivity.
Qed.

Lemma notes_of_tokens_valid env toks :
  Forall (fun n => validate n = []) (notes_of_tokens env toks).
Proof.
  unfold notes_of_tokens. induction toks as [| p ps IH]; [constructor |].
  cbn [map keep_some]. destruct (note_of_token env p) as [n |] eqn:E; [| exact IH].
  constructor; [| exact IH].
  unfold note_of_token in E. destruct (parse_note_spec env p) as [[[b k] t] o].
  destruct (Note_init env b k t o) as [n' | e] eqn:E'; [| discriminate].
  inversion E; subst. now apply Note_init_Ok in E'.
Qed.


(* ===================================================================== *)
(** ** Rendering the swars of a cell *)
(* ===================================================================== *)

Lemma generate_valid (notes : list Note) (sep : ustring) :
  Forall (fun n => validate n = []) notes ->
  generate_notation_sequence notes sep = Ok (join sep (map render_spec notes)).
Proof.
  intros F. unfold generate_notation_sequence.
  assert (E : map_result to_notation notes = Ok (map render_spec notes)).
  { induction F as [| n ns Hn F IH]; [reflexivity |].
    cbn [map_result map]. rewrite (to_notation_valid n Hn). cbn [bind].
    rewrite IH. reflexivity. }
  rewrite E. reflexivity.
Qed.

Lemma render_swar_spec env tok : render_swar env tok = render_token_spec env tok.
Proof.
  unfold render_swar, render_token_spec.
  destruct (ustring_eqb tok (lit "-")); [reflexivity |].
  rewrite parse_sequence_spec. cbn [bind].
  pose proof (notes_of_tokens_valid env (split_ws tok)) as F.
  destruct (notes_of_tokens env (split_ws tok)) as [| n ns]; [reflexivity |].
  now rewrite generate_valid.
Qed.

Lemma _render_notation_spec env sw :
  _render_notation env sw = join (lit " ") (map (render_token_spec env) sw).
Proof.
  unfold _render_notation. destruct sw as [| t r]; [reflexivity |].
  f_equal. apply map_ext. intros a. apply render_swar_spec.
Qed.

Lemma set_swars_token env cell t :
  is_token t ->
  set_swars env cell t = with_swars cell [t] (_render_notation env [t]).
Proof.
  intros T. unfold set_swars. rewrite (strip_token T).
  destruct (ustring_eqb t (lit "-")) eqn:E.
  - apply ustring_eqb_eq in E. now subst.
  - rewrite (split_ws_token T). destruct T as [Hne _].
    destruct t; [contradiction | reflexivity].
Qed.

(* ===================================================================== *)
(** ** Cells of a grid *)
(* ===================================================================== *)

Lemma length_list_set {A} (i : nat) (x : A) (l : list A) :
  List.length (list_set i x l) = List.length l.
Proof.
  revert i. induction l as [| a r IH]; intros [| j]; simpl; auto.
Qed.

Lemma nth_error_list_set_eq {A} (i : nat) (x : A) (l : list A) :
  (i < List.length l)%nat -> nth_error (list_set i x l) i = Some x.
Proof.
  revert i. induction l as [| a r IH]; intros [| j] H; simpl in *; try lia.
  - reflexivity.
  - apply IH. lia.
Qed.

Lemma nth_error_list_set_ne {A} (i j : nat) (x : A) (l : list A) :
  i <> j -> nth_error (list_set i x l) j = nth_error l j.
Proof.
  revert i j. induction l as [| a r IH]; intros [| i] [| j] H; simpl; auto.
  - contradiction.
Qed.

Lemma list_set_app {A} (pre : list A) (c x : A) (cs : list A) :
  list_set (List.length pre) x (pre ++ c :: cs) = pre ++ x :: cs.
Proof. induction pre as [| a r IH]; simpl; [reflexivity | now rewrite IH]. Qed.

Lemma nth_error_in_range (g : BeatGrid) (beat : Z) :
  total_matras (taal g) <= Z.of_nat (List.length (matras g)) ->
  1 <= beat <= total_matras (taal g) ->
  exists cell, nth_error (matras g) (Z.to_nat (beat - 1)) = Some cell.
Proof.
  intros Hl Hb.
  destruct (nth_error (matras g) (Z.to_nat (beat - 1))) as [cell |] eqn:E; [eauto |].
  apply nth_error_None in E. lia.
Qed.

Lemma sum_ones {A} (l : list A) : sum (map (fun _ => 1) l) = Z.of_nat (List.length l).
Proof.
  unfold sum.
  assert (H : forall acc, fold_left Z.add (map (fun _ : A => 1) l) acc
                          = acc + Z.of_nat (List.length l)).
  { induction l as [| a r IH]; intros acc; cbn [map fold_left List.length].
    - lia.
    - rewrite IH. lia. }
  rewrite H. lia.
Qed.

Lemma filled_count_length (g : BeatGrid) :
  get_filled_count g
  = Z.of_nat (List.length (filter (fun m => negb (is_empty m)) (matras g))).
Proof. unfold get_filled_count. apply sum_ones. Qed.

Lemma clear_grid_empty (g : BeatGrid) :
  Forall (fun m => swars m = [] /\ rendered_notation m = []) (matras (clear_grid g)).
Proof.
  unfold clear_grid. cbn [matras with_matras]. apply Forall_forall.
  intros m H. apply in_map_iff in H as [m0 [E _]]. subst. split; reflexivity.
Qed.

Lemma filter_empty_cells (cells : list MatraCell) :
  Forall (fun m => swars m = [] /\ rendered_notation m = []) cells ->
  filter (fun m => negb (is_empty m)) cells = [].
Proof.
  intros F. induction F as [| m ms [Hm _] F IH]; [reflexivity |].
  cbn [filter]. unfold is_empty at 1. rewrite Hm. exact IH.
Qed.

Lemma map_swars_empty (cells : list MatraCell) :
  Forall (fun m => swars m = [] /\ rendered_notation m = []) cells ->
  map swars cells = repeat [] (List.length cells).
Proof.
  intros F. induction F as [| m ms [Hm _] F IH]; [reflexivity |].
  cbn [map List.length repeat]. now rewrite Hm, IH.
Qed.

Lemma fill_loop_spec env parts : forall g pre cs,
  matras g = pre ++ cs ->
  Z.of_nat (List.length pre + List.length parts) <= total_matras (taal g) ->
  (List.length parts <= List.length cs)%nat ->
  fill_loop env g (List.length pre) parts
  = Ok (with_matras g (pre ++ fill_cells env cs parts)).
Proof.
  induction parts as [| p ps IH]; intros g pre cs Hm Ht Hl.
  - cbn [fill_loop]. destruct g as [t ms vs]. cbn in *. subst ms.
    destruct cs; reflexivity.
  - destruct cs as [| c cs']; [cbn in Hl; lia |].
    cbn [fill_loop fill_cells].
    replace (Z.of_nat (List.length pre) <? total_matras (taal g)) with true
      by (symmetry; apply Z.ltb_lt; cbn [List.length] in Ht; lia).
    unfold set_cell_at. rewrite Hm.
    rewrite nth_error_app2, Nat.sub_diag by lia. cbn [nth_error bind].
    rewrite list_set_app.
    set (x := set_swars env c p).
    specialize (IH (with_matras g (pre ++ x :: cs')) (pre ++ [x]) cs').
    rewrite length_app in IH. cbn [List.length] in IH.
    replace (List.length pre + 1)%nat with (S (List.length pre)) in IH by lia.
    rewrite IH.
    + unfold with_matras. cbn. now rewrite <- app_assoc.
    + cbn. now rewrite <- app_assoc.
    + cbn [taal with_matras List.length] in *. lia.
    + cbn [List.length] in Hl. lia.
Qed.

Lemma fill_cells_swars env : forall parts cells,
  Forall is_token parts ->
  Forall (fun m => swars m = [] /\ rendered_notation m = []) cells ->
  (List.length parts <= List.length cells)%nat ->
  map swars (fill_cells env cells parts)
  = map (fun t => [t]) parts ++ repeat [] (List.length cells - List.length parts) /\
  List.length (filter (fun m => negb (is_empty m)) (fill_cells env cells parts))
  = List.length parts /\
  Forall (fun m => rendered_notation m = _render_notation env (swars m))
         (fill_cells env cells parts).
Proof.
  induction parts as [| p ps IH]; intros cells Fp Fc Hl.
  - assert (E : fill_cells env cells [] = cells) by (destruct cells; reflexivity).
    rewrite E. cbn [map app List.length]. rewrite Nat.sub_0_r.
    rewrite (filter_empty_cells Fc). repeat split.
    + apply map_swars_empty, Fc.
    + eapply Forall_impl; [| exact Fc]. intros m [H1 H2]. now rewrite H1, H2.
  - destruct cells as [| c cs]; [cbn in Hl; lia |].
    inversion Fp as [| ? ? Tp Fps]; subst. inversion Fc as [| ? ? Hc Fcs]; subst.
    cbn [List.length] in Hl.
    destruct (IH cs Fps Fcs ltac:(lia)) as [E1 [E2 E3]].
    cbn [fill_cells map filter List.length]. rewrite (set_swars_token env c Tp).
    cbn [swars with_swars is_empty List.length Nat.eqb negb rendered_notation].
    repeat split.
    + cbn [app]. f_equal. exact E1.
    + cbn [List.length]. now rewrite E2.
    + constructor; [reflexivity | exact E3].
Qed.

(* ===================================================================== *)
(** ** Filling a grid from a sequence *)
(* ===================================================================== *)

Lemma clear_grid_length (g : BeatGrid) :
  List.length (matras (clear_grid g)) = List.length (matras g).
Proof. unfold clear_grid. cbn [matras with_matras]. apply length_map. Qed.



(* ===================================================================== *)
(** ** Setting one cell *)
(* ===================================================================== *)

Lemma map_list_set {A B} (f : A -> B) (i : nat) (x : A) (l : list A) :
  map f (list_set i x l) = list_set i (f x) (map f l).
Proof.
  revert i. induction l as [| a r IH]; intros [| j]; simpl; try reflexivity.
  now rewrite IH.
Qed.

Lemma set_matra_swars_out env g beat text :
  beat < 1 \/ total_matras (taal g) < beat ->
  set_matra_swars env g beat text = Ok (g, false).
Proof.
  intros H. unfold set_matra_swars.
  replace ((beat <? 1) || (beat >? total_matras (taal g))) with true; [reflexivity |].
  symmetry. apply orb_true_iff. destruct H as [H | H].
  - left. now apply Z.ltb_lt.
  - right. now apply Z.gtb_lt.
Qed.

Lemma set_matra_swars_in env g beat text cell :
  1 <= beat <= total_matras (taal g) ->
  nth_error (matras g) (Z.to_nat (beat - 1)) = Some cell ->
  set_matra_swars env g beat text
  = Ok (with_matras g (list_set (Z.to_nat (beat - 1)) (set_swars env cell text)
                         (matras g)), true).
Proof.
  intros [H1 H2] Hc. unfold set_matra_swars, set_cell_at.
  replace (beat <? 1) with false by (symmetry; apply Z.ltb_ge; lia).
  replace (beat >? total_matras (taal g)) with false
    by (symmetry; destruct (Z.gtb_spec beat (total_matras (taal g)));
        [lia | reflexivity]).
  cbn [orb]. rewrite Hc. reflexivity.
Qed.

(** C5: [set_matra_swars] answers [False] and changes nothing for a beat
    outside the cycle; inside it, and only in the cell of that beat, the
    swars become the continuation marker alone, the tokens of the trimmed
    text, or nothing for a blank text, and the rendering is recomputed at
    once: the marker as it is, a token with at least one note as its
    rendered notes, any other token unchanged, joined by single spaces. *)
Theorem C5_set_cell_swars env g beat text :
  total_matras (taal g) <= Z.of_nat (List.length (matras g)) ->
  (beat < 1 \/ total_matras (taal g) < beat ->
     set_matra_swars env g beat text = Ok (g, false)) /\
  (1 <= beat <= total_matras (taal g) ->
     exists cell cell',
       nth_error (matras g) (Z.to_nat (beat - 1)) = Some cell /\
       set_matra_swars env g beat text
       = Ok (with_matras g (list_set (Z.to_nat (beat - 1)) cell' (matras g)), true) /\
       cell' = with_swars cell (swars cell') (rendered_notation cell') /\
       (strip text = lit "-" -> swars cell' = [lit "-"]) /\
       (strip text <> lit "-" -> strip text <> [] ->
          swars cell' = split_ws (strip text)) /\
       (strip text = [] -> swars cell' = []) /\
       rendered_notation cell'
       = join (lit " ") (map (render_token_spec env) (swars cell')) /\
       nth_error (list_set (Z.to_nat (beat - 1)) cell' (matras g)) (Z.to_nat (beat - 1))
       = Some cell' /\
       (forall j, j <> Z.to_nat (beat - 1) ->
          nth_error (list_set (Z.to_nat (beat - 1)) cell' (matras g)) j
          = nth_error (matras g) j)).
Proof.
  intros Hlen. split; [apply set_matra_swars_out |].
  intros Hb. destruct (nth_error_in_range g Hlen Hb) as [cell Hc].
  exists cell, (set_swars env cell text).
  split; [exact Hc |].
  split; [now apply set_matra_swars_in |].
  split; [reflexivity |].
  unfold set_swars. cbn [swars rendered_notation with_swars].
  split; [| split; [| split; [| split; [| split]]]].
  - intros E. rewrite E. reflexivity.
  - intros H1 H2. destruct (ustring_eqb (strip text) (lit "-")) eqn:E.
    + apply ustring_eqb_eq in E. contradiction.
    + destruct (strip text); [contradiction | reflexivity].
  - intros E. rewrite E. reflexivity.
  - apply _render_notation_spec.
  - apply nth_error_list_set_eq. apply nth_error_Some. now rewrite Hc.
  - intros j Hj. apply nth_error_list_set_ne. auto.
Qed.

(** C10: from one grid state, emptying the cell of a beat and putting the
    continuation marker in it give two different cells (one empty, one
    not) and the same whole-grid rendering, with the field "-" for that
    beat in both. *)
Theorem C10_empty_vs_continuation env g beat :
  total_matras (taal g) <= Z.of_nat (List.length (matras g)) ->
  1 <= beat <= total_matras (taal g) ->
  exists g1 g2 c1 c2,
    set_matra_swars env g beat [] = Ok (g1, true) /\
    set_matra_swars env g beat (lit "-") = Ok (g2, true) /\
    nth_error (matras g1) (Z.to_nat (beat - 1)) = Some c1 /\
    nth_error (matras g2) (Z.to_nat (beat - 1)) = Some c2 /\
    is_empty c1 = true /\ is_empty c2 = false /\
    swars c1 = [] /\ swars c2 = [lit "-"] /\
    nth_error (map display_or_dash (matras g1)) (Z.to_nat (beat - 1)) = Some (lit "-") /\
    nth_error (map display_or_dash (matras g2)) (Z.to_nat (beat - 1)) = Some (lit "-") /\
    get_rendered_notation g1 = get_rendered_notation g2.
Proof.
  intros Hlen Hb. destruct (nth_error_in_range g Hlen Hb) as [cell Hc].
  set (i := Z.to_nat (beat - 1)) in *.
  assert (Hi : (i < List.length (matras g))%nat).
  { apply nth_error_Some. now rewrite Hc. }
  exists (with_matras g (list_set i (set_swars env cell []) (matras g))),
         (with_matras g (list_set i (set_swars env cell (lit "-")) (matras g))),
         (set_swars env cell []), (set_swars env cell (lit "-")).
  assert (D1 : display_or_dash (set_swars env cell []) = lit "-") by reflexivity.
  assert (D2 : display_or_dash (set_swars env cell (lit "-")) = lit "-") by reflexivity.
  split; [now apply set_matra_swars_in |].
  split; [now apply set_matra_swars_in |].
  cbn [matras with_matras].
  split; [now apply nth_error_list_set_eq |].
  split; [now apply nth_error_list_set_eq |].
  split; [reflexivity |]. split; [reflexivity |].
  split; [reflexivity |]. split; [reflexivity |].
  split; [| split].
  - rewrite map_list_set, D1. apply nth_error_list_set_eq. now rewrite length_map.
  - rewrite map_list_set, D2. apply nth_error_list_set_eq. now rewrite length_map.
  - unfold get_rendered_notation. cbn [matras with_matras].
    now rewrite !map_list_set, D1, D2.
Qed.

(* ===================================================================== *)
(** ** Constructing a taal and its grid *)
(* ===================================================================== *)

Lemma check_positions_Ok kind total ps :
  check_positions kind total ps = Ok tt <-> Forall (in_cycle total) ps.
Proof.
  induction ps as [| pos r IH]; cbn [check_positions].
  - split; [constructor | reflexivity].
  - destruct ((pos <? 1) || (pos >? total)) eqn:E.
    + split; [discriminate |]. intros F. inversion F as [| ? ? [H1 H2] _]; subst.
      apply orb_true_iff in E as [E | E].
      * apply Z.ltb_lt in E. lia.
      * apply Z.gtb_lt in E. lia.
    + apply orb_false_iff in E as [E1 E2]. apply Z.ltb_ge in E1.
      assert (pos <= total).
      { destruct (Z.gtb_spec pos total); [discriminate | lia]. }
      rewrite IH. split.
      * intros F. constructor; [split; lia | exact F].
      * intros F. now inversion F.
Qed.

Lemma check_positions_cases kind total ps :
  check_positions kind total ps = Ok tt \/
  exists msg, check_positions kind total ps = Raise (ValueError msg).
Proof.
  induction ps as [| pos r IH]; cbn [check_positions]; [now left |].
  destruct ((pos <? 1) || (pos >? total)); [right; eauto | exact IH].
Qed.

Lemma Taal_init_Ok_iff (t : Taal) :
  Taal_init t = Ok t <->
  sum (vibhag_structure t) = total_matras t /\
  Forall (in_cycle (total_matras t)) (khali_positions t) /\
  Forall (in_cycle (total_matras t)) (tali_positions t).
Proof.
  unfold Taal_init.
  rewrite <- (check_positions_Ok (lit "Khali")), <- (check_positions_Ok (lit "Tali")).
  destruct (sum (vibhag_structure t) =? total_matras t) eqn:E; cbn [negb].
  - apply Z.eqb_eq in E.
    destruct (check_positions_cases (lit "Khali") (total_matras t) (khali_positions t))
      as [K | [m K]]; rewrite K; cbn [bind].
    + destruct (check_positions_cases (lit "Tali") (total_matras t) (tali_positions t))
        as [T | [m T]]; rewrite T; cbn [bind]; intuition congruence.
    + intuition congruence.
  - apply Z.eqb_neq in E. intuition congruence.
Qed.

Lemma Taal_init_same (t t' : Taal) : Taal_init t = Ok t' -> t' = t.
Proof.
  unfold Taal_init. destruct (negb _); [discriminate |].
  destruct (check_positions _ _ (khali_positions t)); [| discriminate].
  cbn [bind]. destruct (check_positions _ _ (tali_positions t)); [| discriminate].
  cbn [bind]. congruence.
Qed.

Lemma sum_cons (a : Z) (l : list Z) : sum (a :: l) = a + sum l.
Proof.
  unfold sum. cbn [fold_left].
  assert (H : forall x y, fold_left Z.add l (x + y) = x + fold_left Z.add l y).
  { induction l as [| b r IH]; intros x y; cbn [fold_left]; [reflexivity |].
    rewrite <- Z.add_assoc. apply IH. }
  rewrite Z.add_comm. apply (H a 0).
Qed.

Lemma get_matra_symbol_total (t : Taal) (m : Z) :
  Forall (in_cycle (total_matras t)) (tali_positions t) ->
  exists s, get_matra_symbol t m = Ok s.
Proof.
  intros F. unfold get_matra_symbol.
  destruct (taal_is_sam t m); [eauto |].
  destruct (taal_is_khali t m); [eauto |].
  destruct (taal_is_tali t m) eqn:E; [| eauto].
  apply int_in_list_In in E. rewrite Forall_forall in F. apply F in E.
  rewrite (get_vibhag_in_range t E). cbn [bind]. eauto.
Qed.

Lemma init_cells_ok (t : Taal) (v : Z) (k : nat) : forall m,
  Forall (in_cycle (total_matras t)) (tali_positions t) ->
  exists cells,
    init_cells t v m k = Ok cells /\ List.length cells = k /\
    Forall (fun c => swars c = [] /\ rendered_notation c = []) cells.
Proof.
  induction k as [| k IH]; intros m F; cbn [init_cells].
  - exists []. repeat split. constructor.
  - destruct (get_matra_symbol_total t m F) as [s Hs]. rewrite Hs. cbn [bind].
    destruct (IH (m + 1) F) as [cells [E [L Fc]]]. rewrite E. cbn [bind].
    eexists. split; [reflexivity |]. split; [cbn; now rewrite L |].
    constructor; [split; reflexivity | exact Fc].
Qed.

Lemma init_vibhags_ok (t : Taal) (vs : list Z) : forall vidx m done,
  Forall (in_cycle (total_matras t)) (tali_positions t) ->
  exists r,
    init_vibhags t vidx m done vs = Ok r /\
    sum vs <= Z.of_nat (List.length (fst r)) /\
    (Forall (fun c => 0 <= c) vs -> Z.of_nat (List.length (fst r)) = sum vs) /\
    Forall (fun c => swars c = [] /\ rendered_notation c = []) (fst r).
Proof.
  induction vs as [| c r IH]; intros vidx m done F; cbn [init_vibhags].
  - exists ([], []). repeat split; try reflexivity. constructor.
  - destruct (init_cells_ok t (vidx + 1) (Z.to_nat c) m F) as [cells [E [L Fc]]].
    rewrite E. cbn [bind].
    destruct (IH (vidx + 1) (m + Z.of_nat (Z.to_nat c)) (done + Z.to_nat c)%nat F)
      as [rest [E2 [L2 [L3 Fr]]]].
    rewrite E2. cbn [bind]. eexists. split; [reflexivity |].
    cbn [fst]. rewrite length_app, sum_cons, L. repeat split.
    + lia.
    + intros Fp. inversion Fp; subst. specialize (L3 ltac:(assumption)). lia.
    + apply Forall_app. split; assumption.
Qed.

(** Every constructed taal has a grid: it has at least [total_matras]
    cells, exactly that many when no vibhag is negative, all empty. *)
Lemma BeatGrid_init_ok (t : Taal) :
  Taal_init t = Ok t ->
  exists g,
    BeatGrid_init t = Ok g /\ taal g = t /\
    total_matras t <= Z.of_nat (List.length (matras g)) /\
    (Forall (fun c => 0 <= c) (vibhag_structure t) ->
       Z.of_nat (List.length (matras g)) = total_matras t) /\
    get_filled_count g = 0.
Proof.
  intros H. apply Taal_init_Ok_iff in H as [Hs [_ Ft]].
  unfold BeatGrid_init.
  destruct (init_vibhags_ok t (vibhag_structure t) 0 1 0 Ft) as [r [E [L [L2 Fe]]]].
  rewrite E. cbn [bind]. eexists. split; [reflexivity |].
  cbn [taal matras]. rewrite <- Hs. repeat split; try assumption.
  rewrite filled_count_length. cbn [matras].
  now rewrite (filter_empty_cells Fe).
Qed.

(** The operations keep the taal and the number of cells of a grid. *)
Lemma set_matra_swars_shape env g beat text g' flag :
  set_matra_swars env g beat text = Ok (g', flag) ->
  taal g' = taal g /\ List.length (matras g') = List.length (matras g).
Proof.
  unfold set_matra_swars, set_cell_at.
  destruct ((beat <? 1) || (beat >? total_matras (taal g))).
  - intros H. inversion H; subst. now split.
  - destruct (nth_error (matras g) (Z.to_nat (beat - 1))); cbn [bind]; [| discriminate].
    intros H. inversion H; subst. cbn [taal matras with_matras].
    split; [reflexivity | apply length_list_set].
Qed.

(** C8, as the code has it: construction succeeds exactly when the
    vibhags sum to the beat count and every khali and tali position lies
    within the cycle, so the beat count is positive as soon as an accent
    position is listed; every taal of the catalog is constructed and has
    a positive beat count and positive vibhags. *)
Theorem C8_taal_construction (t : Taal) :
  (Taal_init t = Ok t <->
     sum (vibhag_structure t) = total_matras t /\
     Forall (in_cycle (total_matras t)) (khali_positions t) /\
     Forall (in_cycle (total_matras t)) (tali_positions t)) /\
  (forall t', Taal_init t = Ok t' -> t' = t) /\
  (Taal_init t = Ok t ->
     khali_positions t <> [] \/ tali_positions t <> [] -> 0 < total_matras t) /\
  Forall (fun e => Taal_init (snd e) = Ok (snd e) /\
                   0 < total_matras (snd e) /\
                   Forall (fun c => 0 < c) (vibhag_structure (snd e)))
         TAAL_LIBRARY.
Proof.
  split; [apply Taal_init_Ok_iff |].
  split; [intros t'; apply Taal_init_same |].
  split.
  - intros H Hne. apply Taal_init_Ok_iff in H as [_ [Fk Ft]].
    unfold in_cycle in *.
    destruct Hne as [Hne | Hne].
    + destruct Fk as [| p r Hp _]; [contradiction | lia].
    + destruct Ft as [| p r Hp _]; [contradiction | lia].
  - repeat constructor.
Qed.

(** C8 fails as stated: a cycle of no beat, and a cycle with a negative
    vibhag, are both constructed. *)
Lemma C8_nonpositive_constructed :
  Taal_init zero_taal = Ok zero_taal /\
  ~ 0 < total_matras zero_taal /\
  Taal_init negative_vibhag_taal = Ok negative_vibhag_taal /\
  ~ Forall (fun c => 0 < c) (vibhag_structure negative_vibhag_taal).
Proof.
  split; [reflexivity |]. split; [cbn; lia |]. split; [reflexivity |].
  intros F. cbn in F. inversion F as [| ? ? _ F']; subst.
  inversion F' as [| ? ? H _]; subst. lia.
Qed.

(* ===================================================================== *)
(** ** Searching, replacing and splitting *)
(* ===================================================================== *)

Lemma has_char_In (c : N) (s : ustring) : has_char c s = true <-> In c s.
Proof.
  unfold has_char. rewrite existsb_exists. split.
  - intros [x [Hx E]]. apply N.eqb_eq in E. now subst.
  - intros H. exists c. split; [exact H | apply N.eqb_refl].
Qed.

Lemma has_char_false (c : N) (s : ustring) : has_char c s = false <-> ~ In c s.
Proof.
  rewrite <- has_char_In. destruct (has_char c s); split; congruence.
Qed.

Lemma split_on_absent (sep : N) (s : ustring) :
  ~ In sep s -> split_on sep s = [s].
Proof.
  induction s as [| c r IH]; intros H; cbn [split_on]; [reflexivity |].
  destruct (N.eqb_spec c sep) as [E | E].
  - exfalso. apply H. left. exact E.
  - rewrite IH; [reflexivity |]. intros Hr. apply H. now right.
Qed.

Lemma split_on_app (sep : N) (a b : ustring) :
  ~ In sep a -> split_on sep (a ++ sep :: b) = a :: split_on sep b.
Proof.
  induction a as [| c r IH]; intros H; cbn [app split_on].
  - now rewrite N.eqb_refl.
  - destruct (N.eqb_spec c sep) as [E | E].
    + exfalso. apply H. left. exact E.
    + rewrite IH; [reflexivity |]. intros Hr. apply H. now right.
Qed.

(** A string with the character [c] splits at its first occurrence. *)
Lemma first_occurrence (c : N) (s : ustring) :
  In c s -> exists pre post, s = pre ++ c :: post /\ ~ In c pre.
Proof.
  induction s as [| x r IH]; intros H; [contradiction |].
  destruct (N.eq_dec x c) as [E | E].
  - subst. exists [], r. split; [reflexivity | intros []].
  - destruct H as [H | H]; [contradiction |].
    destruct (IH H) as [pre [post [E1 E2]]].
    exists (x :: pre), post. split; [cbn; now rewrite E1 |].
    intros [H' | H']; [contradiction | auto].
Qed.

Lemma count_char_app (c : N) (a b : ustring) :
  count_char c (a ++ b) = (count_char c a + count_char c b)%nat.
Proof. unfold count_char. now rewrite filter_app, length_app. Qed.

Lemma count_char_zero (c : N) (s : ustring) : count_char c s = 0%nat <-> ~ In c s.
Proof.
  unfold count_char. induction s as [| x r IH]; cbn [filter].
  - split; [intros _ [] | reflexivity].
  - destruct (N.eqb_spec c x) as [E | E]; cbn [List.length In].
    + split; [discriminate | intros H; exfalso; apply H; now left].
    + rewrite IH. split.
      * intros H [H' | H']; [congruence | auto].
      * intros H H'. apply H. now right.
Qed.

(* ===================================================================== *)
(** ** Numerals *)
(* ===================================================================== *)

Lemma digit_value_ascii env c :
  ascii_digit c -> digit_value env c = Some (Z.of_N (c - 48)).
Proof.
  intros [H1 H2]. unfold digit_value.
  replace (c <? 127)%N with true by (symmetry; apply N.ltb_lt; lia).
  replace (48 <=? c)%N with true by (symmetry; apply N.leb_le; lia).
  replace (c <=? 57)%N with true by (symmetry; apply N.leb_le; lia).
  reflexivity.
Qed.

Lemma int_space_digit c : ascii_digit c -> int_space c = false.
Proof.
  intros [H1 H2]. unfold int_space.
  replace (c <? 127)%N with true by (symmetry; apply N.ltb_lt; lia).
  replace (c <=? 13)%N with false by (symmetry; apply N.leb_gt; lia).
  replace (c =? 32)%N with false by (symmetry; apply N.eqb_neq; lia).
  now rewrite andb_false_r.
Qed.

Lemma int_digits_ascii env ds : forall acc n,
  Forall ascii_digit ds ->
  int_digits env acc n ds
  = Some (fold_left (fun a c => 10 * a + Z.of_N (c - 48)) ds acc,
          (n + N.of_nat (List.length ds))%N, []).
Proof.
  induction ds as [| c r IH]; intros acc n F; cbn [int_digits fold_left List.length].
  - now rewrite N.add_0_r.
  - inversion F as [| ? ? Hc Fr]; subst.
    rewrite (digit_value_ascii env Hc), (IH _ _ Fr).
    do 3 f_equal. lia.
Qed.

Lemma fold_digits_nonneg ds : forall acc,
  0 <= acc -> 0 <= fold_left (fun a c => 10 * a + Z.of_N (c - 48)) ds acc.
Proof.
  induction ds as [| c r IH]; intros acc H; cbn [fold_left]; [exact H |].
  apply IH. lia.
Qed.

(** [int] of a non-empty string of ASCII digits is the number they write,
    unless the cap on digits is exceeded. *)
Lemma py_int_digits env ds :
  ds <> [] -> Forall ascii_digit ds ->
  py_int env ds =
    if (0 <? max_str_digits env)%N && (max_str_digits env <? N.of_nat (List.length ds))%N
    then None else Some (digits_value ds).
Proof.
  intros Hne F. destruct ds as [| c r]; [contradiction |].
  inversion F as [| ? ? Hc Fr]; subst.
  unfold py_int. cbn [dropwhile]. rewrite (int_space_digit Hc).
  destruct Hc as [H1 H2].
  replace (c =? 45)%N with false by (symmetry; apply N.eqb_neq; lia).
  replace (c =? 43)%N with false by (symmetry; apply N.eqb_neq; lia).
  rewrite (digit_value_ascii env (conj H1 H2)), (int_digits_ascii env _ _ Fr).
  cbn [forallb List.length].
  replace (1 + N.of_nat (List.length r))%N with (N.of_nat (S (List.length r))) by lia.
  unfold digits_value. cbn [fold_left]. reflexivity.
Qed.

Lemma py_int_digits_value env ds v :
  ds <> [] -> Forall ascii_digit ds -> py_int env ds = Some v ->
  v = digits_value ds /\ 0 <= v.
Proof.
  intros Hne F H. rewrite (py_int_digits env Hne F) in H.
  destruct (_ && _); [discriminate |]. inversion H; subst.
  split; [reflexivity |]. unfold digits_value. apply fold_digits_nonneg. lia.
Qed.

(* ===================================================================== *)
(** ** The octave suffix of a note spec *)
(* ===================================================================== *)

Lemma parse_note_spec_remaining env text :
  parse_note_spec env text =
    let r := remaining env text in
    let k := komal_marked env text in
    let t := tivra_marked env text in
    if has_char 43 r then
      (hd [] (split_on 43 r), k, t, int_or env (split_on 43 r) 1)
    else if has_char 45 r && Nat.eqb (count_char 45 r) 1 then
      (hd [] (split_on 45 r), k, t, - int_or env (split_on 45 r) 1)
    else (r, k, t, 0).
Proof. reflexivity. Qed.

(** C6, as the code has it: after upper-casing and removal of the komal
    and tivra markers, a text with a "+" gives the text before the first
    "+" as base and, as octave, [int] of what stands between that "+" and
    the next one (or the end), +1 when [int] refuses it; a text without
    "+" and with exactly one "-" gives the text before the "-" as base
    and minus [int] of the text after it as octave, -1 when [int] refuses
    it; a text without "+" whose number of "-" is not one is returned
    whole as base, with octave 0. [int] of ASCII digits is the number
    they write, and [int] of the empty text fails. *)
Theorem C6_octave_suffix env text :
  let r := remaining env text in
  let k := komal_marked env text in
  let t := tivra_marked env text in
  (In 43%N r ->
     exists pre d rest,
       r = pre ++ 43%N :: d ++ rest /\ ~ In 43%N pre /\ ~ In 43%N d /\
       (rest = [] \/ exists rest', rest = 43%N :: rest') /\
       parse_note_spec env text = (pre, k, t, int_default env d 1)) /\
  (~ In 43%N r -> count_char 45 r = 1%nat ->
     exists pre d,
       r = pre ++ 45%N :: d /\ ~ In 45%N pre /\ ~ In 45%N d /\
       parse_note_spec env text = (pre, k, t, - int_default env d 1)) /\
  (~ In 43%N r -> count_char 45 r <> 1%nat ->
     parse_note_spec env text = (r, k, t, 0)) /\
  (forall ds, ds <> [] -> Forall ascii_digit ds -> within_cap env ds ->
     py_int env ds = Some (digits_value ds) /\ 0 <= digits_value ds) /\
  py_int env [] = None.
Proof.
  intros r k t. rewrite parse_note_spec_remaining. fold r k t. cbv zeta.
  split; [| split; [| split; [| split]]].
  - intros Hin. pose proof Hin as Hc. apply has_char_In in Hc. rewrite Hc.
    destruct (first_occurrence _ _ Hin) as [pre [post [E Hpre]]].
    rewrite E, (split_on_app _ _ post Hpre).
    destruct (in_dec N.eq_dec 43%N post) as [Hp | Hp].
    + destruct (first_occurrence _ _ Hp) as [d [rest' [E2 Hd]]].
      exists pre, d, (43%N :: rest'). rewrite E2, (split_on_app _ _ rest' Hd).
      repeat split; try assumption. right. eauto.
    + exists pre, post, []. rewrite (split_on_absent _ _ Hp), app_nil_r.
      repeat split; try assumption. now left.
  - intros Hno Hcount. apply has_char_false in Hno. rewrite Hno.
    assert (Hin : In 45%N r).
    { destruct (in_dec N.eq_dec 45%N r) as [H | H]; [exact H |].
      apply count_char_zero in H. congruence. }
    pose proof Hin as Hc. apply has_char_In in Hc. rewrite Hc, Hcount. cbn [andb Nat.eqb].
    destruct (first_occurrence _ _ Hin) as [pre [post [E Hpre]]].
    assert (Hpost : ~ In 45%N post).
    { apply count_char_zero. rewrite E, count_char_app in Hcount.
      apply count_char_zero in Hpre. rewrite Hpre in Hcount.
      unfold count_char in Hcount |- *. cbn [filter] in Hcount.
      rewrite N.eqb_refl in Hcount. cbn [List.length] in Hcount. lia. }
    exists pre, post. rewrite E, (split_on_app _ _ post Hpre), (split_on_absent _ _ Hpost).
    repeat split; assumption.
  - intros Hno Hcount. apply has_char_false in Hno. rewrite Hno.
    apply Nat.eqb_neq in Hcount. rewrite Hcount, andb_false_r. reflexivity.
  - intros ds Hne F Hcap. rewrite (py_int_digits env Hne F).
    assert (E : (0 <? max_str_digits env)%N
                && (max_str_digits env <? N.of_nat (List.length ds))%N = false).
    { destruct Hcap as [H | H].
      - rewrite H. reflexivity.
      - apply andb_false_iff. right. apply N.ltb_ge. exact H. }
    rewrite E. split; [reflexivity |]. unfold digits_value.
    apply fold_digits_nonneg. lia.
  - reflexivity.
Qed.

(** C6 fails as stated: a text with two "-" and a "+" after them gets the
    octave of the "+" suffix, not 0. *)
Lemma C6_multi_dash_with_plus :
  (1 < count_char 45 (remaining ascii_env (lit "SA--+2")))%nat /\
  parse_note_spec ascii_env (lit "SA--+2") = (lit "SA--", false, false, 2) /\
  snd (parse_note_spec ascii_env (lit "SA--+2")) <> 0.
Proof.
  split; [cbn; lia |]. split; [reflexivity |]. cbn. lia.
Qed.

(* ===================================================================== *)
(** ** Round trip through the parser *)
(* ===================================================================== *)

Lemma py_isspace_printable (c : N) : (33 <= c <= 127)%N -> py_isspace c = false.
Proof. intros H. unfold py_isspace. settle_comparisons. reflexivity. Qed.





Lemma valid_base_upper (b : ustring) :
  In b valid_bases -> b <> [] /\ Forall (fun c => (65 <= c <= 90)%N) b.
Proof.
  intros H. cbn in H.
  repeat (destruct H as [H | H];
          [subst b; split; [discriminate | repeat constructor; lia] |]).
  contradiction.
Qed.















(* ===================================================================== *)
(** ** The grids a program can hold *)
(* ===================================================================== *)

Lemma Forall_list_set {A} (P : A -> Prop) (i : nat) (x : A) (l : list A) :
  Forall P l -> P x -> Forall P (list_set i x l).
Proof.
  intros F Hx. revert i. induction F as [| a r Ha F IH]; intros [| j]; cbn [list_set];
    constructor; auto.
Qed.

Lemma set_swars_fresh env cell text : cache_fresh env (set_swars env cell text).
Proof. reflexivity. Qed.

Lemma set_cell_at_shape env g i text g' :
  set_cell_at env g i text = Ok g' ->
  taal g' = taal g /\ List.length (matras g') = List.length (matras g) /\
  (Forall (cache_fresh env) (matras g) -> Forall (cache_fresh env) (matras g')).
Proof.
  unfold set_cell_at. destruct (nth_error (matras g) i) as [cell |]; [| discriminate].
  intros H. inversion H; subst. cbn [taal matras with_matras].
  split; [reflexivity |]. split; [apply length_list_set |].
  intros F. apply Forall_list_set; [exact F | apply set_swars_fresh].
Qed.

Lemma fill_loop_shape env parts : forall g i g',
  fill_loop env g i parts = Ok g' ->
  taal g' = taal g /\ List.length (matras g') = List.length (matras g) /\
  (Forall (cache_fresh env) (matras g) -> Forall (cache_fresh env) (matras g')).
Proof.
  induction parts as [| p ps IH]; intros g i g' H; cbn [fill_loop] in H.
  - inversion H; subst. auto.
  - destruct (Z.of_nat i <? total_matras (taal g)).
    + destruct (set_cell_at env g i p) as [g1 | e] eqn:E; [| discriminate].
      cbn [bind] in H. apply set_cell_at_shape in E as [T1 [L1 F1]].
      apply IH in H as [T2 [L2 F2]].
      split; [congruence |]. split; [congruence | auto].
    + cbn [bind] in H. apply IH in H. exact H.
Qed.

Lemma clear_grid_fresh env g : Forall (cache_fresh env) (matras (clear_grid g)).
Proof.
  eapply Forall_impl; [| apply clear_grid_empty].
  intros m [H1 H2]. unfold cache_fresh. now rewrite H1, H2.
Qed.

Lemma fill_from_sequence_shape env g text g' r :
  fill_from_sequence env g text = Ok (g', r) ->
  taal g' = taal g /\ List.length (matras g') = List.length (matras g) /\
  Forall (cache_fresh env) (matras g').
Proof.
  unfold fill_from_sequence.
  destruct (split_ws (strip text)) as [| t0 ts].
  - intros H. inversion H; subst.
    split; [reflexivity |]. split; [apply clear_grid_length | apply clear_grid_fresh].
  - destruct (_ >? _).
    + intros H. inversion H; subst.
      split; [reflexivity |]. split; [apply clear_grid_length | apply clear_grid_fresh].
    + destruct (fill_loop env (clear_grid g) 0 (t0 :: ts)) as [g1 | e] eqn:E;
        [| discriminate].
      cbn [bind]. intros H. inversion H; subst.
      apply fill_loop_shape in E as [T [L F]].
      split; [exact T |]. split; [now rewrite L, clear_grid_length |].
      apply F, clear_grid_fresh.
Qed.

Lemma init_fresh env cells :
  Forall (fun c => swars c = [] /\ rendered_notation c = []) cells ->
  Forall (cache_fresh env) cells.
Proof.
  intros F. eapply Forall_impl; [| exact F].
  intros m [H1 H2]. unfold cache_fresh. now rewrite H1, H2.
Qed.

(** Every grid a program can hold belongs to its taal, has at least
    [total_matras] cells, and keeps in each cell the rendering of the
    swars of that cell. *)
Lemma reachable_inv env t g :
  reachable env t g ->
  taal g = t /\
  total_matras (taal g) <= Z.of_nat (List.length (matras g)) /\
  Forall (cache_fresh env) (matras g).
Proof.
  induction 1 as [g Ht Hg | g beat text g' flag Hr IH Hs | g Hr IH
                  | g text g' r Hr IH Hf].
  - unfold BeatGrid_init in Hg.
    apply Taal_init_Ok_iff in Ht as [Hs [_ Ft]].
    destruct (init_vibhags_ok t (vibhag_structure t) 0 1 0 Ft) as [x [E [L [_ Fe]]]].
    rewrite E in Hg. cbn [bind] in Hg. inversion Hg; subst. cbn [taal matras].
    split; [reflexivity |]. split; [lia | apply init_fresh, Fe].
  - destruct IH as [T [L F]].
    unfold set_matra_swars in Hs.
    destruct ((beat <? 1) || (beat >? total_matras (taal g))).
    + inversion Hs; subst. auto.
    + destruct (set_cell_at env g (Z.to_nat (beat - 1)) text) as [g1 | e] eqn:E;
        [| discriminate].
      cbn [bind] in Hs. inversion Hs; subst.
      apply set_cell_at_shape in E as [T1 [L1 F1]].
      split; [congruence |]. split; [rewrite T1, L1; exact L | auto].
  - destruct IH as [T [L F]].
    split; [exact T |]. split; [| apply clear_grid_fresh].
    rewrite clear_grid_length. exact L.
  - destruct IH as [T [L F]].
    apply fill_from_sequence_shape in Hf as [T1 [L1 F1]].
    split; [congruence |]. split; [rewrite T1, L1; exact L | exact F1].
Qed.

(* ===================================================================== *)
(** ** Tokens joined and split again *)
(* ===================================================================== *)

Lemma split_ws_head (c : N) (r : ustring) :
  py_isspace c = false -> split_ws (c :: r) <> [].
Proof.
  intros Hc. cbn [split_ws]. rewrite Hc.
  destruct r as [| c' r']; [discriminate |].
  destruct (py_isspace c'); [discriminate |].
  destruct (split_ws (c' :: r')); discriminate.
Qed.

Lemma split_ws_app_sep (a b : ustring) (sp : N) :
  py_isspace sp = true -> split_ws (a ++ sp :: b) = split_ws a ++ split_ws b.
Proof.
  intros Hsp. induction a as [| c r IH].
  - cbn [app split_ws]. now rewrite Hsp.
  - cbn [app]. cbn [split_ws]. destruct (py_isspace c) eqn:Hc; [exact IH |].
    destruct r as [| c' r'].
    + cbn [app]. rewrite Hsp. cbn [split_ws app] in *. rewrite Hsp. reflexivity.
    + cbn [app] in *. destruct (py_isspace c') eqn:Hc'.
      * rewrite IH. reflexivity.
      * rewrite IH. pose proof (split_ws_head c' r' Hc') as Hne.
        destruct (split_ws (c' :: r')) as [| w ws]; [contradiction | reflexivity].
Qed.

Lemma split_ws_join_space (xs : list ustring) :
  split_ws (join (lit " ") xs) = concat (map split_ws xs).
Proof.
  induction xs as [| x r IH]; [reflexivity |].
  destruct r as [| y r'].
  - cbn [join map concat]. now rewrite app_nil_r.
  - change (join (lit " ") (x :: y :: r'))
      with (x ++ 32%N :: join (lit " ") (y :: r')).
    rewrite split_ws_app_sep by reflexivity. rewrite IH. reflexivity.
Qed.

Lemma concat_split_tokens (toks : list ustring) :
  Forall is_token toks -> concat (map split_ws toks) = toks.
Proof.
  intros F. induction F as [| t r Ht F IH]; [reflexivity |].
  cbn [map concat]. rewrite (split_ws_token Ht), IH. reflexivity.
Qed.

Lemma split_ws_join_tokens (toks : list ustring) :
  Forall is_token toks -> split_ws (join (lit " ") toks) = toks.
Proof.
  intros F. rewrite split_ws_join_space. now apply concat_split_tokens.
Qed.

(** The swars of a cell are the tokens of the text, in all three cases of
    [set_swars]. *)
Lemma set_swars_split env cell text :
  swars (set_swars env cell text) = split_ws text.
Proof.
  unfold set_swars. cbn [swars with_swars].
  rewrite <- (split_ws_strip text).
  destruct (ustring_eqb (strip text) (lit "-")) eqn:E.
  - apply ustring_eqb_eq in E. rewrite E. reflexivity.
  - destruct (strip text); reflexivity.
Qed.

Lemma set_swars_eq env cell text :
  set_swars env cell text
  = with_swars cell (split_ws text) (_render_notation env (split_ws text)).
Proof.
  pose proof (set_swars_split env cell text) as E.
  unfold set_swars in *. cbn [swars with_swars] in E. now rewrite E.
Qed.

Lemma set_swars_meta env cell text : cell_meta (set_swars env cell text) = cell_meta cell.
Proof. reflexivity. Qed.

Lemma set_swars_cleared env cell text : cleared (set_swars env cell text) = cleared cell.
Proof. reflexivity. Qed.

(* ===================================================================== *)
(** ** What the operations of a grid keep *)
(* ===================================================================== *)

Lemma list_set_same {A} (i : nat) (x : A) (l : list A) :
  nth_error l i = Some x -> list_set i x l = l.
Proof.
  revert i. induction l as [| a r IH]; intros [| j] H; cbn in *; try discriminate.
  - now inversion H.
  - now rewrite IH.
Qed.

Lemma list_set_twice {A} (i : nat) (x y : A) (l : list A) :
  list_set i x (list_set i y l) = list_set i x l.
Proof.
  revert i. induction l as [| a r IH]; intros [| j]; cbn; try reflexivity.
  now rewrite IH.
Qed.

Lemma list_set_swap {A} (i j : nat) (x y : A) (l : list A) :
  i <> j -> list_set i x (list_set j y l) = list_set j y (list_set i x l).
Proof.
  revert i j. induction l as [| a r IH]; intros [| i] [| j] H; cbn; try reflexivity.
  - contradiction.
  - rewrite IH by lia. reflexivity.
Qed.

Lemma set_cell_at_Ok env g i text cell :
  nth_error (matras g) i = Some cell ->
  set_cell_at env g i text
  = Ok (with_matras g (list_set i (set_swars env cell text) (matras g))).
Proof. intros H. unfold set_cell_at. now rewrite H. Qed.

Lemma set_cell_at_inv env g i text g' :
  set_cell_at env g i text = Ok g' ->
  exists cell, nth_error (matras g) i = Some cell /\
               g' = with_matras g (list_set i (set_swars env cell text) (matras g)).
Proof.
  unfold set_cell_at. destruct (nth_error (matras g) i) as [cell |]; [| discriminate].
  intros H. inversion H. eauto.
Qed.

Lemma map_list_set_same {A B} (f : A -> B) (i : nat) (x y : A) (l : list A) :
  nth_error l i = Some y -> f x = f y -> map f (list_set i x l) = map f l.
Proof.
  intros H E. rewrite map_list_set, E. apply list_set_same.
  now rewrite nth_error_map, H.
Qed.

Lemma same_frame_refl g : same_frame g g.
Proof. repeat split. Qed.

Lemma same_frame_trans g1 g2 g3 :
  same_frame g1 g2 -> same_frame g2 g3 -> same_frame g1 g3.
Proof.
  intros [A1 [A2 A3]] [B1 [B2 B3]]. repeat split; congruence.
Qed.

Lemma set_cell_at_frame env g i text g' :
  set_cell_at env g i text = Ok g' -> same_frame g g'.
Proof.
  intros H. apply set_cell_at_inv in H as [cell [Hc ->]].
  repeat split. cbn [matras with_matras].
  apply (map_list_set_same cleared _ _ _ Hc). apply set_swars_cleared.
Qed.

Lemma fill_loop_frame env parts : forall g i g',
  fill_loop env g i parts = Ok g' -> same_frame g g'.
Proof.
  induction parts as [| p ps IH]; intros g i g' H; cbn [fill_loop] in H.
  - inversion H. apply same_frame_refl.
  - destruct (Z.of_nat i <? total_matras (taal g)).
    + destruct (set_cell_at env g i p) as [g1 | e] eqn:E; [| discriminate].
      cbn [bind] in H. apply set_cell_at_frame in E. apply IH in H.
      eapply same_frame_trans; eassumption.
    + cbn [bind] in H. now apply IH in H.
Qed.

Lemma clear_grid_frame g : same_frame g (clear_grid g).
Proof.
  repeat split. unfold clear_grid. cbn [matras with_matras].
  rewrite map_map. apply map_ext. reflexivity.
Qed.

Lemma set_matra_swars_frame env g beat text g' flag :
  set_matra_swars env g beat text = Ok (g', flag) -> same_frame g g'.
Proof.
  unfold set_matra_swars. destruct (_ || _).
  - intros H. inversion H. apply same_frame_refl.
  - destruct (set_cell_at env g (Z.to_nat (beat - 1)) text) as [g1 | e] eqn:E;
      [| discriminate].
    cbn [bind]. intros H. inversion H; subst. now apply set_cell_at_frame in E.
Qed.

Lemma fill_from_sequence_frame env g text g' r :
  fill_from_sequence env g text = Ok (g', r) -> same_frame g g'.
Proof.
  unfold fill_from_sequence. destruct (split_ws (strip text)) as [| t0 ts].
  - intros H. inversion H. apply clear_grid_frame.
  - destruct (_ >? _).
    + intros H. inversion H. apply clear_grid_frame.
    + destruct (fill_loop env (clear_grid g) 0 (t0 :: ts)) as [g1 | e] eqn:E;
        [| discriminate].
      cbn [bind]. intros H. inversion H; subst. apply fill_loop_frame in E.
      eapply same_frame_trans; [apply clear_grid_frame | exact E].
Qed.

Lemma same_frame_clear g g' : same_frame g g' -> clear_grid g' = clear_grid g.
Proof.
  intros [T [V M]]. unfold clear_grid, with_matras.
  fold cleared. rewrite T, V.
  change (map (fun m => with_swars m [] []) (matras g')) with (map cleared (matras g')).
  change (map (fun m => with_swars m [] []) (matras g)) with (map cleared (matras g)).
  now rewrite M.
Qed.

Lemma same_frame_length g g' :
  same_frame g g' -> List.length (matras g') = List.length (matras g).
Proof.
  intros [_ [_ M]]. apply (f_equal (@List.length _)) in M. now rewrite !length_map in M.
Qed.

Lemma same_frame_meta g g' :
  same_frame g g' -> map cell_meta (matras g') = map cell_meta (matras g).
Proof.
  intros [_ [_ M]].
  assert (E : forall l, map cell_meta l = map cell_meta (map cleared l)).
  { intros l. rewrite map_map. apply map_ext. reflexivity. }
  rewrite (E (matras g')), (E (matras g)). now rewrite M.
Qed.

(** Every grid a program can hold has the frame of the grid its taal
    was given at construction. *)
Lemma reachable_frame env t g g0 :
  reachable env t g -> BeatGrid_init t = Ok g0 -> same_frame g0 g.
Proof.
  intros H H0. induction H as [g Ht Hg | g beat text g' flag Hr IH Hs | g Hr IH
                               | g text g' r Hr IH Hf].
  - rewrite Hg in H0. inversion H0. apply same_frame_refl.
  - eapply same_frame_trans; [exact IH | eapply set_matra_swars_frame; eassumption].
  - eapply same_frame_trans; [exact IH | apply clear_grid_frame].
  - eapply same_frame_trans; [exact IH | eapply fill_from_sequence_frame; eassumption].
Qed.

Lemma set_cell_at_Forall env (P : MatraCell -> Prop) g i text g' :
  (forall c s, P (set_swars env c s)) ->
  Forall P (matras g) -> set_cell_at env g i text = Ok g' -> Forall P (matras g').
Proof.
  intros HP F H. apply set_cell_at_inv in H as [cell [_ ->]].
  cbn [matras with_matras]. apply Forall_list_set; auto.
Qed.

Lemma fill_loop_Forall env (P : MatraCell -> Prop) parts : forall g i g',
  (forall c s, P (set_swars env c s)) ->
  Forall P (matras g) -> fill_loop env g i parts = Ok g' -> Forall P (matras g').
Proof.
  induction parts as [| p ps IH]; intros g i g' HP F H; cbn [fill_loop] in H.
  - now inversion H; subst.
  - destruct (Z.of_nat i <? total_matras (taal g)).
    + destruct (set_cell_at env g i p) as [g1 | e] eqn:E; [| discriminate].
      cbn [bind] in H. eapply IH; [exact HP | | exact H].
      eapply set_cell_at_Forall; eassumption.
    + cbn [bind] in H. eapply IH; eassumption.
Qed.

Lemma reachable_Forall env (P : MatraCell -> Prop) t g :
  (forall c s, P (set_swars env c s)) ->
  (forall c, P (cleared c)) ->
  (forall c, swars c = [] /\ rendered_notation c = [] -> P c) ->
  reachable env t g -> Forall P (matras g).
Proof.
  intros Hset Hclear Hempty H.
  assert (Fclear : forall g1, Forall P (matras (clear_grid g1))).
  { intros g1. unfold clear_grid. cbn [matras with_matras].
    apply Forall_forall. intros m Hm. apply in_map_iff in Hm as [m0 [<- _]].
    apply Hclear. }
  induction H as [g Ht Hg | g beat text g' flag Hr IH Hs | g Hr IH
                  | g text g' r Hr IH Hf].
  - unfold BeatGrid_init in Hg. apply Taal_init_Ok_iff in Ht as [_ [_ Ft]].
    destruct (init_vibhags_ok t (vibhag_structure t) 0 1 0 Ft) as [x [E [_ [_ Fe]]]].
    rewrite E in Hg. cbn [bind] in Hg. inversion Hg; subst. cbn [matras].
    eapply Forall_impl; [| exact Fe]. exact Hempty.
  - unfold set_matra_swars in Hs. destruct (_ || _).
    + now inversion Hs; subst.
    + destruct (set_cell_at env g (Z.to_nat (beat - 1)) text) as [g1 | e] eqn:E;
        [| discriminate].
      cbn [bind] in Hs. inversion Hs; subst.
      eapply set_cell_at_Forall; eassumption.
  - apply Fclear.
  - unfold fill_from_sequence in Hf. destruct (split_ws (strip text)) as [| t0 ts].
    + inversion Hf; subst. apply Fclear.
    + destruct (_ >? _).
      * inversion Hf; subst. apply Fclear.
      * destruct (fill_loop env (clear_grid g) 0 (t0 :: ts)) as [g1 | e] eqn:E;
          [| discriminate].
        cbn [bind] in Hf. inversion Hf; subst.
        eapply fill_loop_Forall; [exact Hset | apply Fclear | exact E].
Qed.

Lemma reachable_tokens env t g :
  reachable env t g -> Forall (fun m => Forall is_token (swars m)) (matras g).
Proof.
  apply reachable_Forall.
  - intros c s. rewrite set_swars_split. apply split_ws_tokens.
  - intros c. constructor.
  - intros c [H _]. rewrite H. constructor.
Qed.

(* ===================================================================== *)
(** ** Cells and their text *)
(* ===================================================================== *)

Lemma with_swars_same (m : MatraCell) : with_swars m (swars m) (rendered_notation m) = m.
Proof. destruct m. reflexivity. Qed.

Lemma with_matras_same (g : BeatGrid) : with_matras g (matras g) = g.
Proof. destruct g. reflexivity. Qed.

Lemma in_range_bools (g : BeatGrid) (beat : Z) :
  1 <= beat <= total_matras (taal g) ->
  (beat <? 1) || (beat >? total_matras (taal g)) = false.
Proof.
  intros [H1 H2]. apply orb_false_iff. split.
  - apply Z.ltb_ge. lia.
  - destruct (Z.gtb_spec beat (total_matras (taal g))); [lia | reflexivity].
Qed.

Lemma out_of_range_bools (g : BeatGrid) (beat : Z) :
  ~ 1 <= beat <= total_matras (taal g) ->
  (beat <? 1) || (beat >? total_matras (taal g)) = true.
Proof.
  intros H. apply orb_true_iff.
  destruct (Z.ltb_spec beat 1); [now left | right].
  apply Z.gtb_lt. lia.
Qed.

Lemma swars_text_split (m : MatraCell) :
  Forall is_token (swars m) -> split_ws (swars_text m) = swars m.
Proof.
  intros F. unfold swars_text. destruct (swars m) as [| t r] eqn:E; [reflexivity |].
  now apply split_ws_join_tokens.
Qed.

Lemma join_nonempty (sep : ustring) (xs : list ustring) :
  xs <> [] -> Forall (fun x => x <> []) xs -> join sep xs <> [].
Proof.
  intros Hne F. destruct F as [| x r Hx F]; [contradiction |].
  destruct r; cbn [join]; [exact Hx |].
  destruct x; [contradiction | discriminate].
Qed.

Lemma render_spec_head (n : Note) (c : N) (r : ustring) :
  base n = c :: r -> exists r', render_spec n = c :: r'.
Proof.
  intros E. unfold render_spec. rewrite E.
  destruct (komal n), (tivra n), (octave n =? 0); cbn; eauto.
Qed.

Lemma render_spec_nonempty (n : Note) : validate n = [] -> render_spec n <> [].
Proof.
  intros V. apply validate_nil_iff in V. destruct V as [Hb _].
  apply valid_base_nonempty in Hb. destruct (base n) as [| c r] eqn:E; [contradiction |].
  destruct (render_spec_head n E) as [r' ->]. discriminate.
Qed.

Lemma render_token_nonempty env tok : tok <> [] -> render_token_spec env tok <> [].
Proof.
  intros Hne. unfold render_token_spec.
  destruct (ustring_eqb tok (lit "-")); [discriminate |].
  pose proof (notes_of_tokens_valid env (split_ws tok)) as F.
  destruct (notes_of_tokens env (split_ws tok)) as [| n ns]; [exact Hne |].
  apply join_nonempty; [discriminate |].
  apply Forall_map. eapply Forall_impl; [| exact F].
  intros a Ha. now apply render_spec_nonempty.
Qed.

Lemma render_notation_empty_iff env sw :
  Forall is_token sw -> (_render_notation env sw = [] <-> sw = []).
Proof.
  intros F. split; [| intros ->; reflexivity].
  intros E. destruct sw as [| t r]; [reflexivity |]. exfalso.
  rewrite _render_notation_spec in E. revert E. apply join_nonempty; [discriminate |].
  apply Forall_map. eapply Forall_impl; [| exact F].
  intros a [Ha _]. now apply render_token_nonempty.
Qed.

(** X1: a cell set from a text holds exactly the white-space tokens of
    that text, rendered one by one; two texts with the same tokens give
    the same grid. *)
Theorem X1_set_matra_swars_by_tokens env g beat text g' :
  set_matra_swars env g beat text = Ok (g', true) ->
  exists cell',
    nth_error (matras g') (Z.to_nat (beat - 1)) = Some cell' /\
    swars cell' = split_ws text /\
    rendered_notation cell'
    = join (lit " ") (map (render_token_spec env) (split_ws text)) /\
    forall text', split_ws text' = split_ws text ->
                  set_matra_swars env g beat text' = Ok (g', true).
Proof.
  unfold set_matra_swars. destruct (_ || _) eqn:R; [discriminate |].
  destruct (set_cell_at env g (Z.to_nat (beat - 1)) text) as [g1 | e] eqn:E;
    [| discriminate].
  cbn [bind]. intros H. inversion H; subst g1.
  apply set_cell_at_inv in E as [cell [Hc ->]].
  exists (set_swars env cell text). cbn [matras with_matras].
  split; [apply nth_error_list_set_eq, nth_error_Some; now rewrite Hc |].
  split; [apply set_swars_split |].
  split; [rewrite set_swars_eq; cbn [rendered_notation with_swars];
          apply _render_notation_spec |].
  intros text' Ht. rewrite (set_cell_at_Ok env g _ text' Hc). cbn [bind].
  now rewrite (set_swars_eq env cell text'), Ht, <- set_swars_eq.
Qed.

(** X2: on a grid a program can hold, giving a cell of the cycle the
    space-joined text of its own swars changes nothing. *)
Theorem X2_set_matra_swars_own_text env t g beat :
  reachable env t g ->
  1 <= beat <= total_matras t ->
  exists cell,
    get_matra g beat = Ok (Some cell) /\
    set_matra_swars env g beat (swars_text cell) = Ok (g, true).
Proof.
  intros Hr Hb. destruct (reachable_inv Hr) as [Ht [Hl Hf]].
  rewrite <- Ht in Hb. destruct (nth_error_in_range g Hl Hb) as [cell Hc].
  exists cell. unfold get_matra, set_matra_swars.
  rewrite (in_range_bools g Hb), Hc. split; [reflexivity |].
  rewrite (set_cell_at_Ok env g _ _ Hc). cbn [bind].
  assert (Tk : Forall is_token (swars cell)).
  { pose proof (reachable_tokens Hr) as F. rewrite Forall_forall in F.
    apply F. eapply nth_error_In. exact Hc. }
  assert (Fr : cache_fresh env cell).
  { rewrite Forall_forall in Hf. apply Hf. eapply nth_error_In. exact Hc. }
  rewrite set_swars_eq, (swars_text_split cell Tk), <- Fr, with_swars_same.
  now rewrite (list_set_same _ _ Hc), with_matras_same.
Qed.

(** X3: on a grid a program can hold, the display text of a cell is
    empty exactly when the cell is empty. *)
Theorem X3_display_empty_iff env t g :
  reachable env t g ->
  Forall (fun m => get_display_text m = [] <-> is_empty m = true) (matras g).
Proof.
  intros Hr. pose proof (reachable_tokens Hr) as Ft.
  destruct (reachable_inv Hr) as [_ [_ Hf]].
  rewrite Forall_forall in *. intros m Hm.
  specialize (Ft m Hm). specialize (Hf m Hm). unfold cache_fresh in Hf.
  unfold get_display_text, is_empty.
  assert (E : rendered_notation m = [] <-> swars m = []).
  { rewrite Hf. now apply render_notation_empty_iff. }
  destruct (rendered_notation m) eqn:R, (swars m) eqn:S; cbn; split; intros H;
    try reflexivity; try discriminate;
    destruct E as [E1 E2];
    first [specialize (E1 eq_refl); discriminate | specialize (E2 eq_refl); discriminate].
Qed.


(* ===================================================================== *)
(** ** How the operations of a grid compose *)
(* ===================================================================== *)

Lemma set_swars_twice env cell text1 text2 :
  set_swars env (set_swars env cell text1) text2 = set_swars env cell text2.
Proof. now rewrite !set_swars_eq. Qed.

Lemma set_matra_swars_true env g beat text g' :
  set_matra_swars env g beat text = Ok (g', true) ->
  1 <= beat <= total_matras (taal g) /\
  exists cell,
    nth_error (matras g) (Z.to_nat (beat - 1)) = Some cell /\
    g' = with_matras g (list_set (Z.to_nat (beat - 1)) (set_swars env cell text) (matras g)).
Proof.
  unfold set_matra_swars. destruct (_ || _) eqn:R; [discriminate |].
  apply orb_false_iff in R as [R1 R2]. apply Z.ltb_ge in R1.
  assert (R3 : beat <= total_matras (taal g)).
  { destruct (Z.gtb_spec beat (total_matras (taal g))); [discriminate | lia]. }
  destruct (set_cell_at env g (Z.to_nat (beat - 1)) text) as [g1 | e] eqn:E;
    [| discriminate].
  cbn [bind]. intros H. inversion H; subst g1.
  split; [lia |]. now apply set_cell_at_inv in E.
Qed.

(** X5: setting the same beat twice keeps the last text only, and setting
    two different beats of the cycle gives the same grid in either
    order. *)
Theorem X5_set_matra_swars_compose env g b1 text1 g1 :
  set_matra_swars env g b1 text1 = Ok (g1, true) ->
  (forall text2,
     set_matra_swars env g1 b1 text2 = set_matra_swars env g b1 text2) /\
  (forall b2 text2 g2,
     b2 <> b1 -> set_matra_swars env g b2 text2 = Ok (g2, true) ->
     exists g12,
       set_matra_swars env g1 b2 text2 = Ok (g12, true) /\
       set_matra_swars env g2 b1 text1 = Ok (g12, true)).
Proof.
  intros H. apply set_matra_swars_true in H as [Hb1 [c1 [Hc1 ->]]].
  set (i1 := Z.to_nat (b1 - 1)) in *.
  assert (Hi1 : (i1 < List.length (matras g))%nat).
  { apply nth_error_Some. now rewrite Hc1. }
  split.
  - intros text2. unfold set_matra_swars. cbn [taal with_matras].
    rewrite (in_range_bools g Hb1). fold i1.
    rewrite (set_cell_at_Ok env g i1 text2 Hc1).
    assert (Hc : nth_error (matras (with_matras g
                  (list_set i1 (set_swars env c1 text1) (matras g)))) i1
                 = Some (set_swars env c1 text1)).
    { cbn [matras with_matras]. now apply nth_error_list_set_eq. }
    rewrite (set_cell_at_Ok env _ i1 text2 Hc). cbn [bind matras with_matras].
    rewrite set_swars_twice, list_set_twice. reflexivity.
  - intros b2 text2 g2 Hne H2.
    apply set_matra_swars_true in H2 as [Hb2 [c2 [Hc2 ->]]].
    set (i2 := Z.to_nat (b2 - 1)) in *.
    assert (Hi : i2 <> i1) by (unfold i1, i2; lia).
    exists (with_matras g (list_set i2 (set_swars env c2 text2)
                             (list_set i1 (set_swars env c1 text1) (matras g)))).
    unfold set_matra_swars. cbn [taal with_matras].
    rewrite (in_range_bools g Hb1), (in_range_bools g Hb2). fold i1 i2. split.
    + assert (Hc : nth_error (matras (with_matras g
                     (list_set i1 (set_swars env c1 text1) (matras g)))) i2 = Some c2).
      { cbn [matras with_matras]. rewrite nth_error_list_set_ne by auto. exact Hc2. }
      rewrite (set_cell_at_Ok env _ i2 text2 Hc). reflexivity.
    + assert (Hc : nth_error (matras (with_matras g
                     (list_set i2 (set_swars env c2 text2) (matras g)))) i1 = Some c1).
      { cbn [matras with_matras]. rewrite nth_error_list_set_ne by auto. exact Hc1. }
      rewrite (set_cell_at_Ok env _ i1 text1 Hc). cbn [bind matras with_matras].
      rewrite (@list_set_swap _ i1 i2) by auto. reflexivity.
Qed.

Lemma fill_from_sequence_cleared env g g' text :
  clear_grid g' = clear_grid g ->
  fill_from_sequence env g' text = fill_from_sequence env g text.
Proof. intros E. unfold fill_from_sequence. now rewrite E. Qed.

(** X6: [fill_from_sequence] forgets what the grid held: after any
    [set_matra_swars], [fill_from_sequence] or [clear_grid] it gives the
    grid and the answer it gives on the grid before; on a blank text it
    is [clear_grid]. *)
Theorem X6_fill_forgets env g text :
  (forall beat s g1 f, set_matra_swars env g beat s = Ok (g1, f) ->
     fill_from_sequence env g1 text = fill_from_sequence env g text) /\
  (forall s g1 r, fill_from_sequence env g s = Ok (g1, r) ->
     fill_from_sequence env g1 text = fill_from_sequence env g text) /\
  fill_from_sequence env (clear_grid g) text = fill_from_sequence env g text /\
  clear_grid (clear_grid g) = clear_grid g /\
  (forallb py_isspace text = true ->
     fill_from_sequence env g text = Ok (clear_grid g, (true, lit "Grid cleared"))).
Proof.
  split; [| split; [| split; [| split]]].
  - intros beat s g1 f H. apply fill_from_sequence_cleared, same_frame_clear.
    eapply set_matra_swars_frame. exact H.
  - intros s g1 r H. apply fill_from_sequence_cleared, same_frame_clear.
    eapply fill_from_sequence_frame. exact H.
  - apply fill_from_sequence_cleared, same_frame_clear, clear_grid_frame.
  - apply same_frame_clear, clear_grid_frame.
  - intros H. unfold fill_from_sequence.
    rewrite split_ws_strip, (split_ws_all_space text H). reflexivity.
Qed.

Lemma filter_length_all {A} (p : A -> bool) (l : list A) :
  (List.length (filter p l) <= List.length l)%nat /\
  (forallb p l = true <-> List.length (filter p l) = List.length l) /\
  (List.length (filter p l) = 0%nat <-> forallb (fun a => negb (p a)) l = true).
Proof.
  induction l as [| a r [IH1 [IH2 IH3]]]; cbn [filter forallb List.length].
  - repeat split; auto.
  - destruct (p a); cbn [List.length negb andb].
    + split; [lia |]. split.
      * rewrite IH2. lia.
      * split; [lia | discriminate].
    + split; [lia |]. split.
      * split; [discriminate | lia].
      * exact IH3.
Qed.

Lemma forallb_negb_negb {A} (p : A -> bool) (l : list A) :
  forallb p l = forallb (fun a => negb (negb (p a))) l.
Proof.
  induction l as [| a r IH]; cbn [forallb]; [reflexivity |].
  now rewrite negb_involutive, IH.
Qed.

(** X7: a grid is complete exactly when the count of filled cells is the
    number of its cells; the count lies between 0 and that number and is
    0 exactly when every cell is empty; a fill with as many tokens as the
    grid has cells makes it complete. *)
Theorem X7_is_complete_iff_count env g :
  (is_complete g = true <-> get_filled_count g = Z.of_nat (List.length (matras g))) /\
  0 <= get_filled_count g <= Z.of_nat (List.length (matras g)) /\
  (get_filled_count g = 0 <-> forallb is_empty (matras g) = true) /\
  (forall text g' r,
     total_matras (taal g) = Z.of_nat (List.length (matras g)) ->
     List.length (split_ws text) = List.length (matras g) ->
     fill_from_sequence env g text = Ok (g', r) ->
     fst r = true /\ is_complete g' = true).
Proof.
  pose proof (filter_length_all (fun m => negb (is_empty m)) (matras g)) as [L1 [L2 L3]].
  rewrite filled_count_length. unfold is_complete.
  split; [rewrite L2; lia |]. split; [lia |]. split.
  - rewrite (forallb_negb_negb is_empty), <- L3. lia.
  - intros text g' r Ht Hn Hf.
    assert (Hinv : 0 <= total_matras (taal g) <= Z.of_nat (List.length (matras g))) by lia.
    pose proof (split_ws_tokens text) as Ftok.
    assert (Hl : (List.length (split_ws text)
                  <= List.length (matras (clear_grid g)))%nat).
    { rewrite clear_grid_length. lia. }
    destruct (fill_cells_swars env Ftok (clear_grid_empty g) Hl) as [_ [E2 _]].
    unfold fill_from_sequence in Hf. rewrite split_ws_strip in Hf.
    cbn [taal clear_grid with_matras] in Hf. fold (clear_grid g) in Hf.
    destruct (split_ws text) as [| t0 ts] eqn:Et.
    + inversion Hf; subst. split; [reflexivity |].
      assert (Z : matras (clear_grid g) = []).
      { apply length_zero_iff_nil. rewrite clear_grid_length. cbn [List.length] in Hn. lia. }
      now rewrite Z.
    + replace (Z.of_nat (List.length (t0 :: ts)) >? total_matras (taal g))
        with false in Hf
        by (symmetry; rewrite Ht, Hn;
            destruct (Z.gtb_spec (Z.of_nat (List.length (matras g)))
                       (Z.of_nat (List.length (matras g)))); [lia | reflexivity]).
      assert (A : Z.of_nat (List.length (@nil MatraCell) + List.length (t0 :: ts))
                  <= total_matras (taal (clear_grid g))).
      { cbn [taal clear_grid with_matras]. rewrite Ht, Hn. cbn [List.length]. lia. }
      pose proof (fill_loop_spec env (t0 :: ts) (clear_grid g) []
                    (matras (clear_grid g)) eq_refl A Hl) as E.
      cbn [List.length app] in E. cbn [List.length] in Hf. rewrite E in Hf.
      cbn [bind] in Hf. inversion Hf; subst. split; [reflexivity |].
      cbn [matras with_matras].
      apply (proj2 (proj1 (proj2 (filter_length_all (fun m => negb (is_empty m))
               (fill_cells env (matras (clear_grid g)) (t0 :: ts)))))).
      rewrite E2.
      assert (Lf : forall parts cells, (List.length parts <= List.length cells)%nat ->
                     List.length (fill_cells env cells parts) = List.length cells).
      { induction parts as [| p ps IH]; intros [| c cs] Hle; cbn in *; try reflexivity;
          try lia. rewrite IH by lia. reflexivity. }
      rewrite Lf by exact Hl. rewrite clear_grid_length. exact Hn.
Qed.

(* ===================================================================== *)
(** ** The vibhag of a beat and the first beats of the vibhags *)
(* ===================================================================== *)

Lemma sum_nil : sum [] = 0.
Proof. reflexivity. Qed.

Lemma sum_firstn_succ (vs : list Z) (k : nat) :
  (k < List.length vs)%nat ->
  sum (firstn (S k) vs) = sum (firstn k vs) + nth k vs 0.
Proof.
  revert k. induction vs as [| c r IH]; intros k H; [cbn in H; lia |].
  destruct k as [| k].
  - cbn [firstn nth]. rewrite sum_cons, sum_nil. lia.
  - rewrite (firstn_cons (S k)), (firstn_cons k). cbn [nth]. rewrite !sum_cons.
    cbn [List.length] in H. rewrite (IH k) by lia. lia.
Qed.

(** With no negative vibhag the running totals never go down, and with
    positive vibhags they go up. *)
Lemma sum_firstn_mono (vs : list Z) (j k : nat) :
  Forall (fun c => 0 <= c) vs -> (j <= k)%nat ->
  sum (firstn j vs) <= sum (firstn k vs).
Proof.
  intros F. revert j k. induction F as [| c r Hc F IH]; intros j k H.
  - rewrite !firstn_nil. lia.
  - destruct j as [| j]; destruct k as [| k]; try lia.
    + rewrite firstn_cons, sum_cons. cbn [firstn]. rewrite sum_nil.
      specialize (IH 0%nat k ltac:(lia)).
      cbn [firstn] in IH. rewrite sum_nil in IH. lia.
    + rewrite !firstn_cons, !sum_cons. specialize (IH j k ltac:(lia)). lia.
Qed.

Lemma sum_firstn_step_pos (vs : list Z) (k : nat) :
  Forall (fun c => 0 < c) vs -> (k < List.length vs)%nat ->
  sum (firstn k vs) + 1 <= sum (firstn (S k) vs).
Proof.
  intros F H. rewrite (@sum_firstn_succ vs k H).
  assert (0 < nth k vs 0).
  { rewrite Forall_forall in F. apply F. now apply nth_In. }
  lia.
Qed.

Lemma vibhag_walk_spec (m fallback : Z) (vs : list Z) : forall cum i,
  cum < m ->
  (exists k, (k < List.length vs)%nat /\ m <= cum + sum (firstn (S k) vs)) ->
  exists k,
    (k < List.length vs)%nat /\
    vibhag_walk m cum i fallback vs = i + Z.of_nat k + 1 /\
    m <= cum + sum (firstn (S k) vs) /\
    forall j, (j <= k)%nat -> cum + sum (firstn j vs) < m.
Proof.
  induction vs as [| c r IH]; intros cum i Hc [k [Hk Hm]]; [cbn in Hk; lia |].
  cbn [vibhag_walk]. destruct (Z.leb_spec m (cum + c)) as [Hle | Hgt].
  - exists 0%nat. cbn [List.length firstn]. rewrite sum_cons, sum_nil.
    split; [lia |]. split; [lia |]. split; [lia |].
    intros j Hj. replace j with 0%nat by lia. cbn [firstn]. rewrite sum_nil. lia.
  - destruct k as [| k].
    { cbn [firstn] in Hm. rewrite sum_cons, sum_nil in Hm. lia. }
    rewrite firstn_cons, sum_cons in Hm. cbn [List.length] in Hk.
    destruct (IH (cum + c) (i + 1) ltac:(lia)) as [k' [Hk' [E [Hm' Hall]]]].
    { exists k. split; [lia |]. lia. }
    exists (S k'). cbn [List.length]. split; [lia |]. rewrite E.
    split; [lia |]. split.
    + rewrite firstn_cons, sum_cons. lia.
    + intros [| j] Hj.
      * cbn [firstn]. rewrite sum_nil. lia.
      * rewrite firstn_cons, sum_cons. specialize (Hall j ltac:(lia)). lia.
Qed.

Lemma get_vibhag_spec (t : Taal) (m : Z) :
  sum (vibhag_structure t) = total_matras t ->
  1 <= m <= total_matras t ->
  exists k,
    (k < List.length (vibhag_structure t))%nat /\
    get_vibhag_for_matra t m = Ok (Z.of_nat k + 1) /\
    m <= sum (firstn (S k) (vibhag_structure t)) /\
    forall j, (j <= k)%nat -> sum (firstn j (vibhag_structure t)) < m.
Proof.
  intros Hs Hm. rewrite (get_vibhag_in_range t Hm).
  assert (Hne : vibhag_structure t <> []).
  { intros E. rewrite E, sum_nil in Hs. lia. }
  assert (Hex : exists k, (k < List.length (vibhag_structure t))%nat /\
                          m <= 0 + sum (firstn (S k) (vibhag_structure t))).
  { exists (List.length (vibhag_structure t) - 1)%nat.
    assert (0 < List.length (vibhag_structure t))%nat
      by (destruct (vibhag_structure t); [contradiction | cbn; lia]).
    split; [lia |].
    replace (S (List.length (vibhag_structure t) - 1)) with
      (List.length (vibhag_structure t)) by lia.
    rewrite firstn_all. lia. }
  assert (H0 : 0 < m) by lia.
  destruct (@vibhag_walk_spec m (Z.of_nat (List.length (vibhag_structure t)))
              (vibhag_structure t) 0 0 H0 Hex) as [k [Hk [E [H1 H2]]]].
  exists k. split; [exact Hk |]. rewrite E. split; [f_equal; lia |].
  split; [lia |]. intros j Hj. specialize (H2 j Hj). lia.
Qed.

(** With no negative vibhag, the vibhag of a beat is the only one whose
    running totals enclose the beat. *)
Lemma get_vibhag_unique (t : Taal) (m : Z) (k : nat) :
  sum (vibhag_structure t) = total_matras t ->
  Forall (fun c => 0 <= c) (vibhag_structure t) ->
  (k < List.length (vibhag_structure t))%nat ->
  sum (firstn k (vibhag_structure t)) < m <= sum (firstn (S k) (vibhag_structure t)) ->
  get_vibhag_for_matra t m = Ok (Z.of_nat k + 1).
Proof.
  intros Hs F Hk [Hlo Hhi].
  assert (H0 : 0 <= sum (firstn k (vibhag_structure t))).
  { pose proof (@sum_firstn_mono (vibhag_structure t) 0 k F ltac:(lia)) as M.
    cbn [firstn] in M.
    rewrite sum_nil in M. exact M. }
  assert (Ht : sum (firstn (S k) (vibhag_structure t)) <= total_matras t).
  { rewrite <- Hs.
    pose proof (@sum_firstn_mono (vibhag_structure t) (S k)
                  (List.length (vibhag_structure t)) F ltac:(lia)) as M.
    now rewrite firstn_all in M. }
  assert (Hm : 1 <= m <= total_matras t) by lia.
  destruct (@get_vibhag_spec t m Hs Hm) as [k' [Hk' [E [H1 H2]]]].
  rewrite E. do 2 f_equal.
  destruct (Nat.lt_trichotomy k' k) as [L | [L | L]]; [| lia |].
  - pose proof (@sum_firstn_mono (vibhag_structure t) (S k') k F ltac:(lia)). lia.
  - specialize (H2 (S k) ltac:(lia)). lia.
Qed.

(** X8: outside the cycle [get_vibhag_for_matra] raises [ValueError];
    inside the cycle of a constructed taal it returns the number of the
    first vibhag whose running total reaches the beat, a number between
    1 and the number of vibhags. *)
Theorem X8_get_vibhag_for_matra (t : Taal) (m : Z) :
  Taal_init t = Ok t ->
  (~ 1 <= m <= total_matras t ->
     exists msg, get_vibhag_for_matra t m = Raise (ValueError msg)) /\
  (1 <= m <= total_matras t ->
     exists k,
       (k < List.length (vibhag_structure t))%nat /\
       get_vibhag_for_matra t m = Ok (Z.of_nat k + 1) /\
       1 <= Z.of_nat k + 1 <= num_vibhags t /\
       m <= sum (firstn (S k) (vibhag_structure t)) /\
       forall j, (j <= k)%nat -> sum (firstn j (vibhag_structure t)) < m).
Proof.
  intros H. apply Taal_init_Ok_iff in H as [Hs _]. split.
  - intros Hout. unfold get_vibhag_for_matra.
    assert (R : (m <? 1) || (m >? total_matras t) = true).
    { apply orb_true_iff. destruct (Z.ltb_spec m 1); [now left | right].
      apply Z.gtb_lt. lia. }
    rewrite R. eauto.
  - intros Hin. destruct (@get_vibhag_spec t m Hs Hin) as [k [Hk [E [H1 H2]]]].
    exists k. unfold num_vibhags. repeat split; try assumption; lia.
Qed.

Lemma start_walk_nth (vs : list Z) : forall cum k,
  (k < List.length vs)%nat ->
  nth_error (start_walk cum vs) k = Some (cum + sum (firstn (S k) vs) + 1).
Proof.
  induction vs as [| c r IH]; intros cum k H; [cbn in H; lia |].
  destruct k as [| k]; cbn [start_walk nth_error].
  - cbn [firstn]. rewrite sum_cons, sum_nil. f_equal. lia.
  - cbn [List.length] in H. rewrite (IH (cum + c) k) by lia.
    rewrite (firstn_cons (S k)), (sum_cons c). f_equal. lia.
Qed.

Lemma start_walk_length (vs : list Z) : forall cum,
  List.length (start_walk cum vs) = List.length vs.
Proof. induction vs as [| c r IH]; intros cum; cbn; auto. Qed.

Lemma removelast_length {A} (l : list A) :
  List.length (removelast l) = (List.length l - 1)%nat.
Proof.
  rewrite removelast_firstn_len, length_firstn. lia.
Qed.

Lemma vibhag_starts_nth (t : Taal) (k : nat) :
  (k < Nat.max 1 (List.length (vibhag_structure t)))%nat ->
  nth_error (get_vibhag_start_matras t) k
  = Some (1 + sum (firstn k (vibhag_structure t))).
Proof.
  intros H. unfold get_vibhag_start_matras. destruct k as [| k].
  - cbn [nth_error firstn]. now rewrite sum_nil.
  - cbn [nth_error]. rewrite start_walk_nth by (rewrite removelast_length; lia).
    rewrite firstn_removelast by lia. f_equal. lia.
Qed.

(** X9: [get_vibhag_start_matras] gives one first beat per vibhag, and
    the lone beat 1 for a taal without vibhags; each is one more than the
    beats of the vibhags before it; with positive vibhags the beat it
    gives for a vibhag is a beat of that vibhag. *)
Theorem X9_vibhag_start_matras (t : Taal) :
  List.length (get_vibhag_start_matras t)
  = Nat.max 1 (List.length (vibhag_structure t)) /\
  (forall k, (k < Nat.max 1 (List.length (vibhag_structure t)))%nat ->
     nth_error (get_vibhag_start_matras t) k
     = Some (1 + sum (firstn k (vibhag_structure t)))) /\
  (Taal_init t = Ok t -> Forall (fun c => 0 < c) (vibhag_structure t) ->
   forall k, (k < List.length (vibhag_structure t))%nat ->
     exists s, nth_error (get_vibhag_start_matras t) k = Some s /\
               get_vibhag_for_matra t s = Ok (Z.of_nat k + 1)).
Proof.
  split; [| split].
  - unfold get_vibhag_start_matras. cbn [List.length].
    rewrite start_walk_length, removelast_length. lia.
  - apply vibhag_starts_nth.
  - intros H F k Hk. apply Taal_init_Ok_iff in H as [Hs _].
    exists (1 + sum (firstn k (vibhag_structure t))).
    split; [apply vibhag_starts_nth; lia |].
    assert (F0 : Forall (fun c => 0 <= c) (vibhag_structure t)).
    { eapply Forall_impl; [| exact F]. intros c Hc. cbv beta in *. lia. }
    apply get_vibhag_unique; try assumption.
    pose proof (@sum_firstn_step_pos (vibhag_structure t) k F Hk). lia.
Qed.

(** X10: the symbol of a beat never raises for a constructed taal,
    whatever the beat; outside the cycle it is X at [sam_position] and
    empty everywhere else. *)
Theorem X10_get_matra_symbol_total (t : Taal) (beat : Z) :
  Taal_init t = Ok t ->
  (exists s, get_matra_symbol t beat = Ok s) /\
  (~ 1 <= beat <= total_matras t ->
     get_matra_symbol t beat = Ok (if beat =? sam_position t then lit "X" else [])).
Proof.
  intros H. apply Taal_init_Ok_iff in H as [_ [Fk Ft]].
  split; [now apply get_matra_symbol_total |].
  intros Hout. unfold get_matra_symbol, taal_is_sam, taal_is_khali, taal_is_tali.
  destruct (beat =? sam_position t); [reflexivity |].
  rewrite !int_in_list_false; [reflexivity | |].
  - intros Hin. rewrite Forall_forall in Ft. apply Ft in Hin. unfold in_cycle in Hin. lia.
  - intros Hin. rewrite Forall_forall in Fk. apply Fk in Hin. unfold in_cycle in Hin. lia.
Qed.

(* ===================================================================== *)
(** ** The layout of a grid *)
(* ===================================================================== *)

Lemma cells_before_0 (vs : list Z) : cells_before vs 0 = 0%nat.
Proof. reflexivity. Qed.

Lemma cells_before_cons (c : Z) (r : list Z) (k : nat) :
  cells_before (c :: r) (S k) = (Z.to_nat c + cells_before r k)%nat.
Proof. reflexivity. Qed.

Lemma cells_before_succ (vs : list Z) (k : nat) :
  (k < List.length vs)%nat ->
  cells_before vs (S k) = (cells_before vs k + Z.to_nat (nth k vs 0%Z))%nat.
Proof.
  revert k. induction vs as [| c r IH]; intros k H; [cbn in H; lia |].
  destruct k as [| k].
  - rewrite cells_before_cons, !cells_before_0. cbn [nth]. lia.
  - rewrite !cells_before_cons. cbn [nth List.length] in *. rewrite IH by lia. lia.
Qed.

Lemma cells_before_mono (vs : list Z) (j k : nat) :
  (j <= k)%nat -> (cells_before vs j <= cells_before vs k)%nat.
Proof.
  revert j k. induction vs as [| c r IH]; intros j k H.
  - unfold cells_before. rewrite !firstn_nil. cbn. lia.
  - destruct j as [| j]; destruct k as [| k]; try lia.
    + rewrite cells_before_0. lia.
    + rewrite !cells_before_cons. specialize (IH j k ltac:(lia)). lia.
Qed.

Lemma cells_before_sum (vs : list Z) (k : nat) :
  Forall (fun c => 0 <= c) vs -> Z.of_nat (cells_before vs k) = sum (firstn k vs).
Proof.
  intros F. revert k. induction F as [| c r Hc F IH]; intros k.
  - unfold cells_before. rewrite firstn_nil. reflexivity.
  - destruct k as [| k]; [reflexivity |].
    rewrite cells_before_cons, firstn_cons, sum_cons, Nat2Z.inj_add, IH. lia.
Qed.

Lemma init_cells_nth (t : Taal) (v : Z) (k : nat) : forall m cells,
  init_cells t v m k = Ok cells ->
  List.length cells = k /\
  forall j c, nth_error cells j = Some c ->
    matra_number c = m + Z.of_nat j /\ vibhag_number c = v /\ cell_of_taal t c.
Proof.
  induction k as [| k IH]; intros m cells H; cbn [init_cells] in H.
  - inversion H; subst. split; [reflexivity |]. intros [| j] c Hc; discriminate Hc.
  - destruct (get_matra_symbol t m) as [s |] eqn:Es; [| discriminate].
    cbn [bind] in H.
    destruct (init_cells t v (m + 1) k) as [rest |] eqn:Er; [| discriminate].
    cbn [bind] in H. inversion H; subst. destruct (IH _ _ Er) as [L N].
    split; [cbn; now rewrite L |].
    intros [| j] c Hc; cbn [nth_error] in Hc.
    + inversion Hc; subst c. unfold cell_of_taal.
      cbn [matra_number vibhag_number is_sam is_khali is_tali symbol].
      split; [cbn; lia |]. split; [reflexivity |].
      split; [reflexivity |]. split; [reflexivity |]. split; [reflexivity | exact Es].
    + destruct (N j c Hc) as [N1 [N2 N3]].
      split; [lia |]. split; [exact N2 | exact N3].
Qed.

Lemma init_vibhags_nth (t : Taal) (vs : list Z) : forall vidx m done cells groups,
  init_vibhags t vidx m done vs = Ok (cells, groups) ->
  List.length cells = cells_before vs (List.length vs) /\
  List.length groups = List.length vs /\
  concat (map vg_matras groups) = seq done (List.length cells) /\
  (forall j c, nth_error cells j = Some c ->
     matra_number c = m + Z.of_nat j /\ cell_of_taal t c /\
     exists k, (k < List.length vs)%nat /\
               vibhag_number c = vidx + Z.of_nat k + 1 /\
               (cells_before vs k <= j < cells_before vs (S k))%nat) /\
  (forall k v, nth_error groups k = Some v ->
     vg_vibhag_number v = vidx + Z.of_nat k + 1 /\
     vg_start_matra v = m + Z.of_nat (cells_before vs k) /\
     vg_end_matra v = vg_start_matra v + nth k vs 0 - 1 /\
     vg_matras v = seq (done + cells_before vs k) (Z.to_nat (nth k vs 0))).
Proof.
  induction vs as [| c r IH]; intros vidx m done cells groups H; cbn [init_vibhags] in H.
  - inversion H; subst. cbn [List.length map concat seq].
    split; [reflexivity |]. split; [reflexivity |]. split; [reflexivity |]. split.
    + intros [| j] cl Hc; discriminate Hc.
    + intros [| k] v Hv; discriminate Hv.
  - destruct (init_cells t (vidx + 1) m (Z.to_nat c)) as [cells1 |] eqn:E1;
      [| discriminate].
    cbn [bind] in H.
    destruct (init_vibhags t (vidx + 1) (m + Z.of_nat (Z.to_nat c))
                (done + Z.to_nat c) r) as [[cells2 groups2] |] eqn:E2; [| discriminate].
    cbn [bind fst snd] in H. inversion H; subst. clear H.
    destruct (@init_cells_nth t (vidx + 1) (Z.to_nat c) m cells1 E1) as [L1 N1].
    destruct (IH _ _ _ _ _ E2) as [L2 [G2 [P2 [C2 D2]]]].
    cbn [List.length]. rewrite cells_before_cons, length_app, L1, L2.
    split; [reflexivity |]. split; [now rewrite G2 |]. split.
    { cbn [map concat vg_matras]. rewrite P2, L2. now rewrite <- seq_app. }
    split.
    + intros j cl Hc. destruct (Nat.lt_ge_cases j (Z.to_nat c)) as [Hj | Hj].
      * rewrite nth_error_app1 in Hc by lia.
        destruct (N1 j cl Hc) as [A1 [A2 A3]].
        split; [exact A1 |]. split; [exact A3 |].
        exists 0%nat. rewrite cells_before_0, cells_before_cons, cells_before_0.
        split; [lia |]. split; [lia | lia].
      * rewrite nth_error_app2 in Hc by lia. rewrite L1 in Hc.
        destruct (C2 _ _ Hc) as [A1 [A2 [k [Hk [A3 A4]]]]].
        split; [lia |]. split; [exact A2 |].
        exists (S k). rewrite !cells_before_cons. split; [lia |]. split; [lia | lia].
    + intros [| k] v Hv; cbn [nth_error] in Hv.
      * inversion Hv; subst. cbn [vg_vibhag_number vg_start_matra vg_end_matra
                                    vg_matras nth].
        rewrite cells_before_0. repeat split; try lia. now rewrite Nat.add_0_r.
      * destruct (D2 _ _ Hv) as [A1 [A2 [A3 A4]]]. rewrite cells_before_cons.
        cbn [nth]. split; [lia |]. split; [lia |]. split; [exact A3 |].
        rewrite A4. f_equal. lia.
Qed.

Lemma reachable_init env t g :
  reachable env t g -> Taal_init t = Ok t /\ exists g0, BeatGrid_init t = Ok g0.
Proof. induction 1; eauto. Qed.

Lemma BeatGrid_init_parts (t : Taal) (g0 : BeatGrid) :
  BeatGrid_init t = Ok g0 ->
  init_vibhags t 0 1 0 (vibhag_structure t) = Ok (matras g0, vibhags g0).
Proof.
  unfold BeatGrid_init.
  destruct (init_vibhags t 0 1 0 (vibhag_structure t)) as [[cs gs] |]; [| discriminate].
  cbn [bind fst snd]. intros H. inversion H. reflexivity.
Qed.

(** The facts of the grid at construction that hold of every grid a
    program can hold: the shape of the groups, and for each cell its
    number, its accents and the vibhag it was put in. *)
Lemma reachable_layout env t g :
  reachable env t g ->
  List.length (matras g)
  = cells_before (vibhag_structure t) (List.length (vibhag_structure t)) /\
  List.length (vibhags g) = List.length (vibhag_structure t) /\
  concat (map vg_matras (vibhags g)) = seq 0 (List.length (matras g)) /\
  (forall j c, nth_error (matras g) j = Some c ->
     matra_number c = 1 + Z.of_nat j /\ cell_of_taal t c /\
     exists k, (k < List.length (vibhag_structure t))%nat /\
               vibhag_number c = Z.of_nat k + 1 /\
               (cells_before (vibhag_structure t) k <= j
                < cells_before (vibhag_structure t) (S k))%nat) /\
  (forall k v, nth_error (vibhags g) k = Some v ->
     vg_vibhag_number v = Z.of_nat k + 1 /\
     vg_start_matra v = 1 + Z.of_nat (cells_before (vibhag_structure t) k) /\
     vg_end_matra v = vg_start_matra v + nth k (vibhag_structure t) 0 - 1 /\
     vg_matras v = seq (cells_before (vibhag_structure t) k)
                       (Z.to_nat (nth k (vibhag_structure t) 0))).
Proof.
  intros Hr. destruct (reachable_init Hr) as [_ [g0 H0]].
  pose proof (reachable_frame Hr H0) as Fr.
  pose proof (same_frame_length Fr) as Ln. pose proof (same_frame_meta Fr) as Mt.
  destruct Fr as [_ [Vg _]].
  destruct (@init_vibhags_nth t (vibhag_structure t) 0 1 0%nat (matras g0) (vibhags g0)
              (@BeatGrid_init_parts t g0 H0)) as [L [G [P [C D]]]].
  rewrite Ln, Vg. split; [exact L |]. split; [exact G |]. split; [exact P |]. split.
  - intros j c Hc.
    assert (Hm : nth_error (map cell_meta (matras g0)) j = Some (cell_meta c)).
    { rewrite <- Mt, nth_error_map, Hc. reflexivity. }
    rewrite nth_error_map in Hm.
    destruct (nth_error (matras g0) j) as [c0 |] eqn:E0; [| discriminate].
    cbn [option_map] in Hm. unfold cell_meta in Hm.
    injection Hm as M1 M2 M3 M4 M5 M6.
    destruct (C j c0 E0) as [A1 [[B1 [B2 [B3 B4]]] [k [Hk [A3 A4]]]]].
    split; [rewrite <- M1; lia |]. split.
    + unfold cell_of_taal. rewrite <- M1, <- M3, <- M4, <- M5, <- M6.
      repeat split; assumption.
    + exists k. split; [exact Hk |]. split; [rewrite <- M2; lia | exact A4].
  - intros k v Hv. destruct (D k v Hv) as [A1 [A2 [A3 A4]]].
    split; [lia |]. split; [exact A2 |]. split; [exact A3 | exact A4].
Qed.

(** X11: in every grid a program can hold the cells are numbered from 1
    in order, [get_matra] gives the cell of the beat asked for, each cell
    carries the accents and the symbol its taal gives its beat, and with
    no negative vibhag its vibhag number is the one
    [get_vibhag_for_matra] computes. *)
Theorem X11_grid_cells env t g :
  reachable env t g ->
  (forall j c, nth_error (matras g) j = Some c ->
     matra_number c = Z.of_nat j + 1 /\ cell_of_taal t c) /\
  (forall beat, 1 <= beat <= total_matras t ->
     exists c, get_matra g beat = Ok (Some c) /\ matra_number c = beat) /\
  (Forall (fun c => 0 <= c) (vibhag_structure t) ->
   Z.of_nat (List.length (matras g)) = total_matras t /\
   forall c, In c (matras g) ->
     get_vibhag_for_matra t (matra_number c) = Ok (vibhag_number c)).
Proof.
  intros Hr. destruct (reachable_layout Hr) as [L [_ [_ [C _]]]].
  destruct (reachable_inv Hr) as [Ht [Hl _]].
  destruct (reachable_init Hr) as [Hi _]. apply Taal_init_Ok_iff in Hi as [Hs _].
  split; [| split].
  - intros j c Hc. destruct (C j c Hc) as [A1 [A2 _]]. split; [lia | exact A2].
  - intros beat Hb. rewrite <- Ht in Hb.
    destruct (nth_error_in_range g Hl Hb) as [c Hc]. exists c.
    unfold get_matra. rewrite (in_range_bools g Hb), Hc. split; [reflexivity |].
    destruct (C _ c Hc) as [A1 _]. lia.
  - intros F.
    assert (Len : Z.of_nat (List.length (matras g)) = total_matras t).
    { rewrite L, (@cells_before_sum (vibhag_structure t) _ F), firstn_all. exact Hs. }
    split; [exact Len |].
    intros c Hin. apply In_nth_error in Hin as [j Hc].
    destruct (C j c Hc) as [A1 [_ [k [Hk [A3 A4]]]]].
    rewrite A3. apply get_vibhag_unique; try assumption.
    rewrite <- !(@cells_before_sum (vibhag_structure t) _ F). lia.
Qed.

(** X12: in every grid a program can hold there is one group per vibhag,
    numbered from 1, ending [count - 1] beats after its first beat; the
    groups hold every cell exactly once and in order; the cells of a
    group carry its number and lie between its first and last beat; with
    no negative vibhag the first beats are those of
    [get_vibhag_start_matras]. *)
Theorem X12_grid_groups env t g :
  reachable env t g ->
  List.length (vibhags g) = List.length (vibhag_structure t) /\
  concat (map vg_matras (vibhags g)) = seq 0 (List.length (matras g)) /\
  (forall k v, nth_error (vibhags g) k = Some v ->
     vg_vibhag_number v = Z.of_nat k + 1 /\
     vg_end_matra v = vg_start_matra v + nth k (vibhag_structure t) 0 - 1 /\
     (forall i, In i (vg_matras v) ->
        exists c, nth_error (matras g) i = Some c /\
                  vibhag_number c = vg_vibhag_number v /\
                  vg_start_matra v <= matra_number c <= vg_end_matra v) /\
     (Forall (fun c => 0 <= c) (vibhag_structure t) ->
        nth_error (get_vibhag_start_matras t) k = Some (vg_start_matra v))).
Proof.
  intros Hr. destruct (reachable_layout Hr) as [L [G [P [C D]]]].
  split; [exact G |]. split; [exact P |].
  intros k v Hv. destruct (D k v Hv) as [A1 [A2 [A3 A4]]].
  assert (Hk : (k < List.length (vibhag_structure t))%nat).
  { rewrite <- G. apply nth_error_Some. now rewrite Hv. }
  split; [exact A1 |]. split; [exact A3 |]. split.
  - intros i Hi. rewrite A4 in Hi. apply in_seq in Hi.
    pose proof (@cells_before_succ (vibhag_structure t) k Hk) as Sk.
    pose proof (@cells_before_mono (vibhag_structure t) (S k)
                  (List.length (vibhag_structure t)) ltac:(lia)) as Mk.
    destruct (nth_error (matras g) i) as [c |] eqn:Hc;
      [| apply nth_error_None in Hc; lia].
    exists c. split; [reflexivity |].
    destruct (C i c Hc) as [B1 [_ [k' [Hk' [B3 B4]]]]].
    assert (k' = k).
    { destruct (Nat.lt_trichotomy k' k) as [Lt | [Eq | Gt]]; [| exact Eq |].
      - pose proof (@cells_before_mono (vibhag_structure t) (S k') k ltac:(lia)). lia.
      - pose proof (@cells_before_mono (vibhag_structure t) (S k) k' ltac:(lia)). lia. }
    subst k'. split; [lia |]. rewrite A3, A2, B1.
    assert (0 < nth k (vibhag_structure t) 0) by lia. lia.
  - intros F. rewrite vibhag_starts_nth by lia.
    rewrite A2, (@cells_before_sum (vibhag_structure t) k F). reflexivity.
Qed.

(* ===================================================================== *)
(** ** Helpers of the notation engine *)
(* ===================================================================== *)

Lemma komal_base_valid (b : ustring) : In b komal_bases -> In b valid_bases.
Proof.
  cbn. intros [H | [H | [H | [H | []]]]]; subst; auto 10.
Qed.

Lemma create_note_Some env b k t o n :
  create_note env b k t o = Ok (Some n) <-> Note_init env b k t o = Ok n.
Proof.
  unfold create_note.
  destruct (Note_init_cases env b k t o) as [[n' E] | [msg E]]; rewrite E;
    split; intros H; inversion H; reflexivity.
Qed.

Lemma create_note_total env b k t o : exists r, create_note env b k t o = Ok r.
Proof.
  unfold create_note.
  destruct (Note_init_cases env b k t o) as [[n' E] | [msg E]]; rewrite E; eauto.
Qed.

(** X13: [can_be_komal] and [can_be_tivra] say exactly whether a komal,
    respectively tivra, note of that base can be created at an octave
    within range; no base admits both; [create_note] never raises and
    gives [None] exactly when the rules of a note are broken. *)
Theorem X13_can_be_komal_tivra env b o :
  -3 <= o <= 3 ->
  (can_be_komal env b = true <->
     exists n, create_note env b true false o = Ok (Some n)) /\
  (can_be_tivra env b = true <->
     exists n, create_note env b false true o = Ok (Some n)) /\
  ~ (can_be_komal env b = true /\ can_be_tivra env b = true) /\
  (forall k t o', exists r,
     create_note env b k t o' = Ok r /\
     (r = None <->
      ~ rules_hold {| base := py_upper env b; komal := k; tivra := t; octave := o' |})).
Proof.
  intros Ho. unfold can_be_komal, can_be_tivra.
  change get_valid_komal_notes with komal_bases.
  rewrite !str_in_list_In.
  assert (R : forall k t o', Note_init env b k t o'
                = Ok {| base := py_upper env b; komal := k; tivra := t; octave := o' |}
              <-> rules_hold {| base := py_upper env b; komal := k; tivra := t;
                                octave := o' |}).
  { intros k t o'. rewrite <- validate_nil_iff. split.
    - intros H. now apply Note_init_Ok in H.
    - apply Note_init_valid. }
  split; [| split; [| split]].
  - split.
    + intros H. eexists. apply create_note_Some, R. unfold rules_hold.
      cbn [base komal tivra octave].
      split; [now apply komal_base_valid |]. split; [intros _; exact H |].
      split; [intros D; discriminate D |]. split; [| exact Ho].
      intros [_ D]. discriminate D.
    + intros [n H]. apply create_note_Some in H. pose proof (Note_init_Ok _ _ _ _ _ H) as [-> V].
      apply validate_nil_iff in V. destruct V as [_ [V _]]. now apply V.
  - split.
    + intros H. eexists. apply create_note_Some, R. unfold rules_hold.
      cbn [base komal tivra octave].
      destruct H as [H | []].
      split; [rewrite <- H; cbn; auto 10 |]. split; [intros D; discriminate D |].
      split; [intros _; now symmetry |]. split; [| exact Ho].
      intros [D _]. discriminate D.
    + intros [n H]. apply create_note_Some in H. pose proof (Note_init_Ok _ _ _ _ _ H) as [-> V].
      apply validate_nil_iff in V. destruct V as [_ [_ [V _]]]. left. symmetry. now apply V.
  - intros [H1 H2]. cbn in H1, H2. destruct H2 as [H2 | []]. rewrite <- H2 in H1.
    destruct H1 as [D | [D | [D | [D | []]]]]; discriminate D.
  - intros k t o'. unfold create_note.
    destruct (Note_init_cases env b k t o') as [[n E] | [msg E]]; rewrite E.
    + exists (Some n). split; [reflexivity |]. split; [discriminate |].
      intros H. exfalso. apply H. apply R. rewrite E.
      now destruct (Note_init_Ok _ _ _ _ _ E) as [-> _].
    + exists None. split; [reflexivity |]. split; [| reflexivity].
      intros _ H. apply R in H. congruence.
Qed.

(* ===================================================================== *)
(** ** The shape of a rendering *)
(* ===================================================================== *)

Lemma to_notation_Ok (n : Note) (r : ustring) :
  to_notation n = Ok r ->
  r = render_spec n /\ (base n = [] -> tivra n = false /\ octave n = 0).
Proof.
  intros H. destruct (base n) as [| c s] eqn:E.
  - unfold to_notation in H. rewrite E in H.
    assert (R : (if komal n then flat_map (fun c => [c; COMBINING_UNDERLINE]) []
                 else @nil N) = []) by (destruct (komal n); reflexivity).
    rewrite R in H. destruct (tivra n) eqn:T; [discriminate H |].
    cbn [bind] in H. unfold append_to_last in H. cbn [rev] in H.
    destruct (octave n >? 0) eqn:P; [discriminate H |].
    destruct (octave n <? 0) eqn:Q; [discriminate H |].
    assert (O : octave n = 0).
    { apply Z.ltb_ge in Q. destruct (Z.gtb_spec (octave n) 0); [discriminate | lia]. }
    inversion H; subst r. unfold render_spec. rewrite E, T, O.
    split; [destruct (komal n); reflexivity | auto].
  - rewrite to_notation_render in H by (rewrite E; discriminate).
    inversion H. split; [reflexivity | discriminate].
Qed.

Lemma after_every_length (mark : N) (s : ustring) :
  List.length (after_every mark s) = (2 * List.length s)%nat.
Proof. induction s as [| c r IH]; cbn [after_every List.length]; lia. Qed.

Lemma unmarked_after_every (mark : N) (s : ustring) :
  is_mark mark = true -> unmarked (after_every mark s) = unmarked s.
Proof.
  intros M. unfold unmarked. induction s as [| c r IH]; [reflexivity |].
  cbn [after_every filter]. rewrite M. cbn [negb]. now rewrite IH.
Qed.

Lemma unmarked_after_first (mark : N) (s : ustring) :
  is_mark mark = true -> unmarked (after_first mark s) = unmarked s.
Proof.
  intros M. unfold unmarked. destruct s as [| c r]; [reflexivity |].
  cbn [after_first filter]. now rewrite M.
Qed.

Lemma unmarked_app_marks (mark : N) (s : ustring) (k : nat) :
  is_mark mark = true -> unmarked (s ++ repeat mark k) = unmarked s.
Proof.
  intros M. unfold unmarked. rewrite filter_app.
  assert (E : filter (fun c => negb (is_mark c)) (repeat mark k) = []).
  { induction k as [| k IH]; [reflexivity |]. cbn [repeat filter]. now rewrite M. }
  rewrite E. apply app_nil_r.
Qed.

(** X14: a rendering has the characters of the base, twice as many when
    komal, one more when tivra, and as many more as the octave is away
    from 0; without the four combining marks it is the base without
    them. *)
Theorem X14_rendering_shape (n : Note) (r : ustring) :
  to_notation n = Ok r ->
  List.length r
  = (List.length (base n) * (if komal n then 2 else 1)
     + (if tivra n then 1 else 0) + Z.abs_nat (octave n))%nat /\
  unmarked r = unmarked (base n).
Proof.
  intros H. apply to_notation_Ok in H as [-> He]. unfold render_spec.
  set (s1 := if komal n then after_every COMBINING_UNDERLINE (base n) else base n).
  set (s2 := if tivra n then after_first COMBINING_VERTICAL_LINE_ABOVE s1 else s1).
  assert (L1 : List.length s1 = (List.length (base n) * (if komal n then 2 else 1))%nat).
  { unfold s1. destruct (komal n); [rewrite after_every_length |]; lia. }
  assert (U1 : unmarked s1 = unmarked (base n)).
  { unfold s1. destruct (komal n); [now apply unmarked_after_every | reflexivity]. }
  assert (L2 : List.length s2 = (List.length s1 + (if tivra n then 1 else 0))%nat).
  { unfold s2. destruct (tivra n) eqn:T; [| lia].
    destruct s1 as [| c x] eqn:E1; [| cbn; lia].
    exfalso. destruct (base n) as [| c y] eqn:Eb.
    - destruct (He eq_refl) as [D _]. discriminate D.
    - unfold s1 in E1. destruct (komal n); discriminate E1. }
  assert (U2 : unmarked s2 = unmarked s1).
  { unfold s2. destruct (tivra n); [now apply unmarked_after_first | reflexivity]. }
  destruct (octave n =? 0) eqn:O.
  - apply Z.eqb_eq in O. rewrite O. cbn [Z.abs_nat]. split; [lia | congruence].
  - split.
    + rewrite length_app, repeat_length. lia.
    + rewrite unmarked_app_marks by (destruct (0 <? octave n); reflexivity). congruence.
Qed.

Lemma Forall_after_every (P : N -> Prop) (mark : N) (s : ustring) :
  P mark -> Forall P s -> Forall P (after_every mark s).
Proof.
  intros M F. induction F as [| c r Hc F IH]; cbn [after_every]; [constructor |].
  constructor; [assumption |]. constructor; assumption.
Qed.

Lemma Forall_after_first (P : N -> Prop) (mark : N) (s : ustring) :
  P mark -> Forall P s -> Forall P (after_first mark s).
Proof.
  intros M F. destruct F as [| c r Hc F]; cbn [after_first]; [constructor |].
  constructor; [assumption |]. constructor; assumption.
Qed.

Lemma render_spec_token (n : Note) : validate n = [] -> is_token (render_spec n).
Proof.
  intros V. split; [now apply render_spec_nonempty |].
  apply validate_nil_iff in V. destruct V as [Hb _].
  destruct (valid_base_upper Hb) as [_ FB].
  assert (Fb : Forall (fun c => py_isspace c = false) (base n)).
  { eapply Forall_impl; [| exact FB]. intros c H. cbv beta in H.
    apply py_isspace_printable. lia. }
  unfold render_spec.
  set (s1 := if komal n then after_every COMBINING_UNDERLINE (base n) else base n).
  assert (F1 : Forall (fun c => py_isspace c = false) s1).
  { unfold s1. destruct (komal n); [| exact Fb].
    apply Forall_after_every; [reflexivity | exact Fb]. }
  set (s2 := if tivra n then after_first COMBINING_VERTICAL_LINE_ABOVE s1 else s1).
  assert (F2 : Forall (fun c => py_isspace c = false) s2).
  { unfold s2. destruct (tivra n); [| exact F1].
    apply Forall_after_first; [reflexivity | exact F1]. }
  destruct (octave n =? 0); [exact F2 |].
  apply Forall_app. split; [exact F2 |].
  apply Forall_forall. intros c Hc. apply repeat_spec in Hc. subst c.
  destruct (0 <? octave n); reflexivity.
Qed.


(* ===================================================================== *)
(** ** The sign of a parsed octave *)
(* ===================================================================== *)

Lemma digit_value_nonneg env c d : digit_value env c = Some d -> 0 <= d.
Proof.
  unfold digit_value. destruct (c <? 127)%N.
  - destruct ((48 <=? c)%N && (c <=? 57)%N); [| discriminate].
    intros H. inversion H. lia.
  - destruct (to_decimal env c); [| discriminate]. cbn. intros H. inversion H. lia.
Qed.

Lemma int_digits_nonneg env (k : nat) : forall s acc n v n' rest,
  (List.length s <= k)%nat -> 0 <= acc ->
  int_digits env acc n s = Some (v, n', rest) -> 0 <= v.
Proof.
  induction k as [| k IH]; intros s acc n v n' rest L A H.
  - destruct s; [| cbn in L; lia]. cbn in H. inversion H. lia.
  - destruct s as [| c r]; [cbn in H; inversion H; lia |].
    cbn [int_digits] in H. cbn [List.length] in L.
    destruct (digit_value env c) as [d |] eqn:D.
    + apply digit_value_nonneg in D.
      apply (IH r (10 * acc + d) (n + 1)%N v n' rest); [lia | lia | exact H].
    + destruct (c =? 95)%N; [| inversion H; lia].
      destruct r as [| c' r']; [discriminate H |].
      destruct (digit_value env c') as [d |] eqn:D'; [| discriminate H].
      apply digit_value_nonneg in D'. cbn [List.length] in L.
      apply (IH r' (10 * acc + d) (n + 1)%N v n' rest); [lia | lia | exact H].
Qed.

Lemma dropwhile_In (p : N -> bool) (x : N) (s : ustring) :
  In x (dropwhile p s) -> In x s.
Proof.
  induction s as [| c r IH]; cbn [dropwhile]; [auto |].
  destruct (p c); [intros H; right; auto | auto].
Qed.

(** [int] of a text without "-" is not negative. *)
Lemma py_int_nonneg env (s : ustring) (v : Z) :
  py_int env s = Some v -> ~ In 45%N s -> 0 <= v.
Proof.
  unfold py_int. intros H Hm.
  assert (Hd : ~ In 45%N (dropwhile int_space s)).
  { intros I. apply Hm. eapply dropwhile_In. exact I. }
  destruct (dropwhile int_space s) as [| c r]; [discriminate H |].
  destruct (N.eqb_spec c 45) as [E | E]; [exfalso; apply Hd; left; exact E |].
  assert (G : forall s', match s' with
                         | [] => None
                         | c0 :: r0 =>
                             match digit_value env c0 with
                             | None => None
                             | Some d =>
                                 match int_digits env d 1 r0 with
                                 | None => None
                                 | Some (v0, n0, rest) =>
                                     if forallb int_space rest
                                     then if ((0 <? max_str_digits env)%N
                                              && (max_str_digits env <? n0)%N)
                                          then None else Some v0
                                     else None
                                 end
                             end
                         end = Some v -> 0 <= v).
  { intros s' H'. destruct s' as [| c0 r0]; [discriminate H' |].
    destruct (digit_value env c0) as [d |] eqn:D; [| discriminate H'].
    destruct (int_digits env d 1 r0) as [[[v0 n0] rest] |] eqn:I; [| discriminate H'].
    destruct (forallb int_space rest); [| discriminate H'].
    destruct ((0 <? max_str_digits env)%N && (max_str_digits env <? n0)%N);
      [discriminate H' |].
    inversion H'; subst v0.
    apply (@int_digits_nonneg env (List.length r0) r0 d 1%N v n0 rest);
      [lia | now apply digit_value_nonneg in D | exact I]. }
  destruct (c =? 43)%N; [apply (G r) | apply (G (c :: r))]; exact H.
Qed.

(** X16: the base [parse_note_spec] returns is a beginning of the text
    left after trimming, upper-casing and removal of the markers, and
    holds no "+"; when that text holds no "+" the octave is never above 0;
    an octave other than 0 means a suffix was cut off the base. *)
Theorem X16_spec_base_and_octave_sign env text :
  (exists rest, remaining env text = spec_base env text ++ rest) /\
  ~ In 43%N (spec_base env text) /\
  (~ In 43%N (remaining env text) -> spec_octave env text <= 0) /\
  (spec_octave env text <> 0 ->
   (List.length (spec_base env text) < List.length (remaining env text))%nat).
Proof.
  unfold spec_base, spec_octave. rewrite parse_note_spec_remaining. cbv zeta.
  set (r := remaining env text).
  destruct (has_char 43 r) eqn:P.
  - apply has_char_In in P.
    destruct (@first_occurrence 43%N r P) as [pre [post [E Hpre]]].
    rewrite E. rewrite (@split_on_app 43%N pre post Hpre). cbn [fst snd hd].
    split; [now exists (43%N :: post) |]. split; [exact Hpre |].
    split.
    + intros H. exfalso. apply H. apply in_or_app. right. now left.
    + intros _. rewrite length_app. cbn [List.length]. lia.
  - apply has_char_false in P.
    destruct (has_char 45 r && Nat.eqb (count_char 45 r) 1) eqn:M.
    + apply andb_true_iff in M as [M1 M2]. apply has_char_In in M1.
      apply Nat.eqb_eq in M2.
      destruct (@first_occurrence 45%N r M1) as [pre [post [E Hpre]]].
      assert (Hpost : ~ In 45%N post).
      { apply count_char_zero. rewrite E, count_char_app in M2.
        apply count_char_zero in Hpre. rewrite Hpre in M2.
        unfold count_char in M2 |- *. cbn [filter] in M2.
        change (45 =? 45)%N with true in M2. cbn [List.length] in M2. lia. }
      assert (Np : ~ In 43%N pre).
      { intros I. apply P. rewrite E. apply in_or_app. now left. }
      rewrite E. rewrite (@split_on_app 45%N pre post Hpre).
      rewrite (@split_on_absent 45%N post Hpost). cbn [fst snd hd].
      split; [now exists (45%N :: post) |]. split; [exact Np |].
      split.
      * intros _. unfold int_or. cbn [nth_error].
        destruct (py_int env post) as [v |] eqn:I; [| lia].
        pose proof (@py_int_nonneg env post v I Hpost). lia.
      * intros _. rewrite length_app. cbn [List.length]. lia.
    + cbn [fst snd]. split; [exists []; now rewrite app_nil_r |].
      split; [exact P |]. split; [lia |]. intros H. now contradiction H.
Qed.

(* ===================================================================== *)
(** ** Looking a taal up by name *)
(* ===================================================================== *)

Lemma dict_get_In {V} (d : list (ustring * V)) (key : ustring) (v : V) :
  dict_get d key = Some v -> In (key, v) d.
Proof.
  induction d as [| [k w] r IH]; cbn [dict_get]; [discriminate |].
  destruct (ustring_eqb k key) eqn:E.
  - apply ustring_eqb_eq in E. intros H. inversion H. subst. now left.
  - intros H. right. now apply IH.
Qed.

Lemma dict_get_None {V} (d : list (ustring * V)) (key : ustring) :
  dict_get d key = None <-> ~ In key (map fst d).
Proof.
  induction d as [| [k w] r IH]; cbn [dict_get map fst In].
  - split; [intros _ [] | reflexivity].
  - destruct (ustring_eqb k key) eqn:E.
    + apply ustring_eqb_eq in E. split; [discriminate | intros H; exfalso; apply H; now left].
    + rewrite IH. split.
      * intros H [H' | H']; [| now apply H].
        subst. rewrite ustring_eqb_refl in E. discriminate E.
      * intros H H'. apply H. now right.
Qed.

Lemma library_taal (k : ustring) (t : Taal) :
  In (k, t) TAAL_LIBRARY ->
  name t = k /\ Taal_init t = Ok t /\
  Forall (fun v => 0 < v) (vibhag_structure t) /\
  In (k, display_name t) get_taal_display_names.
Proof.
  intros H. cbn in H.
  destruct H as [H | [H | [H | [H | [H | [H | []]]]]]]; inversion H; subst;
    (split; [reflexivity |]); (split; [reflexivity |]);
    (split; [repeat constructor |]); cbn; auto 10.
Qed.

(** X17: a taal found by name is the entry of the library under the
    lower-cased name: it carries that name, passes the checks of
    construction, has only positive vibhags and is listed with its
    display name, and [create_beat_grid] then gives the empty grid of that
    taal with one cell per matra; a name is not found exactly when its
    lower-cased form is not among the available names, and then
    [create_beat_grid] gives [None]; every entry of the library is found
    under its own key, in lower or upper case. *)
Theorem X17_get_taal (lower_full : ustring -> ustring) (key : ustring) :
  (forall t, get_taal lower_full key = Some t ->
     name t = py_lower lower_full key /\ Taal_init t = Ok t /\
     Forall (fun v => 0 < v) (vibhag_structure t) /\
     In (name t, display_name t) get_taal_display_names /\
     exists g, create_beat_grid lower_full (GivenName key) = Ok (Some g) /\
               create_beat_grid lower_full (GivenTaal t) = Ok (Some g) /\
               taal g = t /\
               Z.of_nat (List.length (matras g)) = total_matras t /\
               get_filled_count g = 0) /\
  (get_taal lower_full key = None <->
   ~ In (py_lower lower_full key) get_available_taals) /\
  (get_taal lower_full key = None ->
   create_beat_grid lower_full (GivenName key) = Ok None) /\
  (forall env e, In e TAAL_LIBRARY ->
     get_taal lower_full (fst e) = Some (snd e) /\
     get_taal lower_full (py_upper env (fst e)) = Some (snd e)).
Proof.
  split; [| split; [| split]].
  - intros t H. unfold create_beat_grid. rewrite H.
    unfold get_taal in H. apply dict_get_In in H.
    destruct (@library_taal _ _ H) as [A1 [A2 [A3 A4]]].
    split; [exact A1 |]. split; [exact A2 |]. split; [exact A3 |].
    split; [rewrite A1; exact A4 |].
    destruct (@BeatGrid_init_ok t A2) as [g [B1 [B2 [_ [B4 B5]]]]].
    exists g. rewrite B1. cbn [bind].
    split; [reflexivity |]. split; [reflexivity |]. split; [exact B2 |].
    split; [| exact B5]. apply B4.
    eapply Forall_impl; [| exact A3]. intros v Hv. cbv beta in Hv. lia.
  - unfold get_taal, get_available_taals. apply dict_get_None.
  - intros H. unfold create_beat_grid. now rewrite H.
  - intros env e H. cbn in H.
    destruct H as [H | [H | [H | [H | [H | [H | []]]]]]]; subst e;
      split; reflexivity.
Qed.

(* ===================================================================== *)
(** ** The grid read back as a sequence *)
(* ===================================================================== *)

Lemma skipn_nth_cons {A} (l : list A) : forall (a : nat) (x : A),
  nth_error l a = Some x -> skipn a l = x :: skipn (S a) l.
Proof.
  induction l as [| y r IH]; intros [| a] x H; cbn [nth_error] in H; try discriminate H.
  - inversion H. reflexivity.
  - cbn [skipn]. rewrite (IH a x H). reflexivity.
Qed.

Lemma cells_at_seq {A} (l : list A) : forall (n a : nat),
  (a + n <= List.length l)%nat ->
  flat_map (fun i => match nth_error l i with
                     | Some m => [m]
                     | None => []
                     end) (seq a n)
  = firstn n (skipn a l).
Proof.
  induction n as [| n IH]; intros a H; [reflexivity |].
  cbn [seq flat_map].
  destruct (nth_error l a) as [x |] eqn:E; [| apply nth_error_None in E; lia].
  rewrite (skipn_nth_cons l a E). cbn [firstn app]. f_equal. apply IH. lia.
Qed.

Lemma concat_flat_map {A B C} (f : B -> list C) (h : A -> list B) (vs : list A) :
  concat (map (fun v => flat_map f (h v)) vs) = flat_map f (concat (map h vs)).
Proof.
  induction vs as [| v r IH]; cbn [map concat]; [reflexivity |].
  now rewrite flat_map_app, IH.
Qed.

Lemma concat_map_concat {A B C} (f : B -> list C) (h : A -> list B) (vs : list A) :
  concat (map (fun v => concat (map f (h v))) vs) = concat (map f (concat (map h vs))).
Proof.
  induction vs as [| v r IH]; cbn [map concat]; [reflexivity |].
  now rewrite map_app, concat_app, IH.
Qed.

Lemma vibhag_cells_In (g : BeatGrid) (v : VibhagGroup) (c : MatraCell) :
  In c (vibhag_cells g v) -> In c (matras g).
Proof.
  unfold vibhag_cells. intros H. apply in_flat_map in H as [i [_ H]].
  destruct (nth_error (matras g) i) as [m |] eqn:E; [| contradiction].
  destruct H as [H | []]. subst. eapply nth_error_In. exact E.
Qed.

(** The cells of the groups, one group after the other, are the cells of
    the grid. *)
Lemma vibhag_cells_all env t g :
  reachable env t g -> concat (map (vibhag_cells g) (vibhags g)) = matras g.
Proof.
  intros Hr. destruct (reachable_layout Hr) as [_ [_ [P _]]].
  unfold vibhag_cells.
  rewrite (concat_flat_map
             (fun i => match nth_error (matras g) i with
                       | Some m => [m]
                       | None => []
                       end) vg_matras (vibhags g)).
  rewrite P. rewrite cells_at_seq by lia. cbn [skipn]. apply firstn_all.
Qed.

(** The slice [parts[start-1:end]] of a group holds the texts of its
    cells. *)
Lemma group_slice env t g k v :
  reachable env t g -> Forall (fun c => 0 <= c) (vibhag_structure t) ->
  nth_error (vibhags g) k = Some v ->
  py_slice (map swars_text (matras g)) (vg_start_matra v - 1) (vg_end_matra v)
  = map swars_text (vibhag_cells g v).
Proof.
  intros Hr F Hv. destruct (reachable_layout Hr) as [L [G [_ [_ D]]]].
  destruct (D k v Hv) as [_ [St [E M]]].
  assert (Hk : (k < List.length (vibhag_structure t))%nat).
  { rewrite <- G. apply nth_error_Some. now rewrite Hv. }
  assert (Hn : 0 <= nth k (vibhag_structure t) 0).
  { rewrite Forall_forall in F. apply F. now apply nth_In. }
  pose proof (@cells_before_succ (vibhag_structure t) k Hk) as Sk.
  pose proof (@cells_before_mono (vibhag_structure t) (S k)
                (List.length (vibhag_structure t)) ltac:(lia)) as Mk.
  unfold py_slice, vibhag_cells. rewrite M, length_map.
  rewrite cells_at_seq by lia.
  set (cb := cells_before (vibhag_structure t) k) in *.
  set (len := Z.of_nat (List.length (matras g))).
  assert (Elo : slice_bound len (vg_start_matra v - 1) = Z.of_nat cb).
  { unfold slice_bound, len. destruct (Z.ltb_spec (vg_start_matra v - 1) 0); lia. }
  assert (Ehi : slice_bound len (vg_end_matra v)
                = Z.of_nat cb + nth k (vibhag_structure t) 0).
  { unfold slice_bound, len. destruct (Z.ltb_spec (vg_end_matra v) 0); lia. }
  rewrite Elo, Ehi.
  replace (Z.of_nat cb + nth k (vibhag_structure t) 0 - Z.of_nat cb)
    with (nth k (vibhag_structure t) 0) by lia.
  rewrite Nat2Z.id. rewrite skipn_map, firstn_map. reflexivity.
Qed.

Lemma split_ws_join_bar (xs : list ustring) :
  split_ws (join (lit " | ") xs) = join_lists [lit "|"] (map split_ws xs).
Proof.
  induction xs as [| x r IH]; [reflexivity |].
  destruct r as [| y r'].
  - reflexivity.
  - change (join (lit " | ") (x :: y :: r'))
      with (x ++ 32%N :: ([124%N] ++ 32%N :: join (lit " | ") (y :: r'))).
    rewrite split_ws_app_sep by reflexivity.
    rewrite split_ws_app_sep by reflexivity.
    rewrite IH. reflexivity.
Qed.

Lemma filter_join_lists {A} (p : A -> bool) (s : A) (xss : list (list A)) :
  p s = false -> Forall (Forall (fun x => p x = true)) xss ->
  filter p (join_lists [s] xss) = concat xss.
Proof.
  intros Hs F. induction F as [| xs r Hx F IH]; [reflexivity |].
  assert (E : filter p xs = xs).
  { apply forallb_filter_id. apply forallb_forall. now apply Forall_forall. }
  destruct r as [| ys r'].
  - cbn [join_lists concat]. now rewrite app_nil_r.
  - change (join_lists [s] (xs :: ys :: r'))
      with (xs ++ s :: join_lists [s] (ys :: r')).
    rewrite filter_app. cbn [filter]. rewrite Hs, E, IH. reflexivity.
Qed.

(** X18: of a grid a program can hold, over a taal without negative
    vibhag, the sequence [get_all_swars_as_sequence] gives splits at
    white space into the swars of the cells in the order of the grid,
    vibhag by vibhag, with one "|" between two vibhags; when no swar is
    itself "|", the tokens other than "|" are the swars of all the cells
    in order. *)
Theorem X18_sequence_view env t g :
  reachable env t g ->
  Forall (fun c => 0 <= c) (vibhag_structure t) ->
  split_ws (get_all_swars_as_sequence g)
  = join_lists [lit "|"]
      (map (fun v => concat (map swars (vibhag_cells g v))) (vibhags g)) /\
  (Forall (fun m => ~ In (lit "|") (swars m)) (matras g) ->
   filter (fun tok => negb (is_bar tok)) (split_ws (get_all_swars_as_sequence g))
   = concat (map swars (matras g))).
Proof.
  intros Hr F.
  pose proof (reachable_tokens Hr) as Tk. rewrite Forall_forall in Tk.
  assert (E : split_ws (get_all_swars_as_sequence g)
              = join_lists [lit "|"]
                  (map (fun v => concat (map swars (vibhag_cells g v))) (vibhags g))).
  { unfold get_all_swars_as_sequence. cbv zeta.
    rewrite split_ws_join_bar, map_map. f_equal.
    apply map_ext_in. intros v Hv. apply In_nth_error in Hv as [k Hk].
    rewrite (@group_slice env t g k v Hr F Hk).
    rewrite split_ws_join_space, map_map. f_equal.
    apply map_ext_in. intros c Hc. apply swars_text_split.
    apply Tk. eapply vibhag_cells_In. exact Hc. }
  split; [exact E |].
  intros Nb. rewrite E. rewrite Forall_forall in Nb.
  rewrite filter_join_lists.
  - rewrite (concat_map_concat swars (vibhag_cells g) (vibhags g)).
    now rewrite (@vibhag_cells_all env t g Hr).
  - reflexivity.
  - apply Forall_forall. intros xs Hxs. apply in_map_iff in Hxs as [v [<- Hv]].
    apply Forall_forall. intros tok Ht. apply in_concat in Ht as [sw [Hsw Ht]].
    apply in_map_iff in Hsw as [c [<- Hc]].
    apply negb_true_iff. unfold is_bar.
    destruct (ustring_eqb tok (lit "|")) eqn:B; [| reflexivity].
    apply ustring_eqb_eq in B. subst tok. exfalso.
    apply (Nb c); [eapply vibhag_cells_In; exact Hc | exact Ht].
Qed.

(* ===================================================================== *)
(** ** The columns of the text export *)
(* ===================================================================== *)

Lemma fmt_center_length (width : nat) (s : ustring) :
  List.length (fmt_center width s) = Nat.max width (List.length s).
Proof.
  unfold fmt_center. rewrite !length_app, !repeat_length.
  set (pad := (width - List.length s)%nat).
  pose proof (Nat.div_mod_eq pad 2) as D.
  pose proof (Nat.mod_upper_bound pad 2 ltac:(discriminate)) as U.
  unfold pad in *. lia.
Qed.

Lemma export_swar_length (m : MatraCell) : List.length (export_swar m) = 8%nat.
Proof.
  unfold export_swar. cbv zeta. rewrite fmt_center_length.
  destruct (Nat.ltb_spec 7 (List.length (display_or_dash m))) as [H | H].
  - rewrite length_app, firstn_length_le by lia. reflexivity.
  - lia.
Qed.

Lemma export_fields_fit (m : MatraCell) :
  fits_column m = true ->
  List.length (export_number m) = 8%nat /\ List.length (export_symbol m) = 8%nat.
Proof.
  unfold fits_column, cell_meta, fits_meta. intros H.
  apply andb_true_iff in H as [H1 H2]. apply Nat.leb_le in H1, H2.
  unfold export_number, export_symbol. rewrite !fmt_center_length. split; [lia |].
  destruct (symbol m) as [| c r]; [reflexivity |]. lia.
Qed.

Lemma join_length (sep : ustring) (xs : list ustring) :
  List.length (join sep xs)
  = (list_sum (map (@List.length N) xs) + List.length sep * (List.length xs - 1))%nat.
Proof.
  induction xs as [| x r IH]; [cbn; lia |].
  destruct r as [| y r'].
  - cbn [join map list_sum fold_right List.length]. rewrite Nat.sub_diag, Nat.mul_0_r. lia.
  - change (join sep (x :: y :: r')) with (x ++ sep ++ join sep (y :: r')).
    rewrite !length_app, IH. cbn [map list_sum fold_right List.length].
    replace (S (S (List.length r')) - 1)%nat with (S (List.length r')) by lia.
    replace (S (List.length r') - 1)%nat with (List.length r') by lia.
    rewrite Nat.mul_succ_r. lia.
Qed.

Lemma fields_length (field : MatraCell -> ustring) (cells : list MatraCell) :
  (forall m, In m cells -> List.length (field m) = 8%nat) ->
  List.length (join (lit " ") (map field cells)) = (9 * List.length cells - 1)%nat.
Proof.
  intros H. rewrite join_length, map_map, length_map.
  assert (E : list_sum (map (fun m => List.length (field m)) cells)
              = (8 * List.length cells)%nat).
  { induction cells as [| c r IH]; [reflexivity |].
    cbn [map List.length].
    change (list_sum (List.length (field c) :: map (fun m => List.length (field m)) r))
      with (List.length (field c) + list_sum (map (fun m => List.length (field m)) r))%nat.
    rewrite (H c (or_introl eq_refl)).
    rewrite IH by (intros m Hm; apply H; now right). lia. }
  rewrite E. change (List.length (lit " ")) with 1%nat. lia.
Qed.

Lemma export_row_aligned (field : MatraCell -> ustring) (g : BeatGrid) :
  (forall m, In m (matras g) -> List.length (field m) = 8%nat) ->
  List.length (export_row field g) = row_width g.
Proof.
  intros H. unfold export_row, row_width.
  rewrite join_length, map_map, length_map.
  change (List.length (lit " | ")) with 3%nat. f_equal. f_equal.
  apply map_ext_in. intros v _. apply fields_length.
  intros m Hm. apply H. eapply vibhag_cells_In. exact Hm.
Qed.

Lemma forallb_meta (l : list MatraCell) :
  forallb fits_column l = forallb fits_meta (map cell_meta l).
Proof. induction l as [| c r IH]; [reflexivity |]. cbn [forallb map]. now rewrite IH. Qed.

Lemma library_grid_fits (k : ustring) (t : Taal) (g0 : BeatGrid) :
  In (k, t) TAAL_LIBRARY -> BeatGrid_init t = Ok g0 ->
  forallb fits_column (matras g0) = true.
Proof.
  intros H H0. cbn in H.
  destruct H as [H | [H | [H | [H | [H | [H | []]]]]]]; inversion H; subst;
    vm_compute in H0; injection H0 as <-; vm_compute; reflexivity.
Qed.

(** X19: in the text export the swar field always takes eight columns,
    whatever the length of the swar, so the swar row has the width of a
    row of eight-column fields; when the numbers and symbols of the cells
    have at most eight characters, the matra row and the symbol row have
    that same width, so the three rows line up; this is so in every grid
    a program can hold over a taal of the library. *)
Theorem X19_text_export_columns (g : BeatGrid) :
  (forall m, List.length (export_swar m) = 8%nat) /\
  List.length (export_row export_swar g) = row_width g /\
  (forallb fits_column (matras g) = true ->
   List.length (export_row export_number g) = row_width g /\
   List.length (export_row export_symbol g) = row_width g) /\
  (forall env k t, In (k, t) TAAL_LIBRARY -> reachable env t g ->
     forallb fits_column (matras g) = true).
Proof.
  split; [exact export_swar_length |].
  split; [apply export_row_aligned; intros m _; apply export_swar_length |].
  split.
  - intros F. rewrite forallb_forall in F.
    split; apply export_row_aligned; intros m Hm;
      destruct (@export_fields_fit m (F m Hm)) as [A B]; assumption.
  - intros env k t Hk Hr. destruct (reachable_init Hr) as [_ [g0 H0]].
    pose proof (same_frame_meta (reachable_frame Hr H0)) as M.
    rewrite forallb_meta, M, <- forallb_meta.
    exact (@library_grid_fits k t g0 Hk H0).
Qed.

(* ===================================================================== *)
(** ** The rendered notation of a grid *)
(* ===================================================================== *)

Lemma render_token_spec_token env tok : is_token tok -> is_token (render_token_spec env tok).
Proof.
  intros T. unfold render_token_spec.
  destruct (ustring_eqb tok (lit "-")); [split; [discriminate | repeat constructor] |].
  pose proof (notes_of_tokens_valid env (split_ws tok)) as V.
  rewrite (split_ws_token T) in *. unfold notes_of_tokens in *. cbn [map keep_some] in *.
  destruct (note_of_token env tok) as [n |]; cbn [keep_some] in *; [| exact T].
  cbn [map join]. apply render_spec_token. now inversion V.
Qed.

Lemma display_fields env (m : MatraCell) :
  cache_fresh env m -> Forall is_token (swars m) ->
  split_ws (display_or_dash m) = cell_fields env m.
Proof.
  unfold cache_fresh, display_or_dash, cell_fields. intros C F.
  pose proof (render_notation_empty_iff env F) as E. rewrite <- C in E.
  assert (D : get_display_text m = rendered_notation m).
  { unfold get_display_text. destruct (rendered_notation m); reflexivity. }
  rewrite D.
  destruct (swars m) as [| t r] eqn:S.
  - rewrite (proj2 E eq_refl). reflexivity.
  - destruct (rendered_notation m) as [| c s] eqn:R.
    + destruct E as [E _]. discriminate (E eq_refl).
    + rewrite C, _render_notation_spec. apply split_ws_join_tokens.
      apply Forall_map. eapply Forall_impl; [| exact F].
      intros a Ha. now apply render_token_spec_token.
Qed.

(** X20: the rendered notation of a grid a program can hold splits at
    white space into, cell after cell, a dash for a cell without swar and
    else the rendering of each of its swars; so it has one field per cell
    when no cell holds more than one swar, and never fewer fields than
    cells. *)
Theorem X20_rendered_notation_fields env t g :
  reachable env t g ->
  split_ws (get_rendered_notation g) = concat (map (cell_fields env) (matras g)) /\
  (List.length (matras g) <= List.length (split_ws (get_rendered_notation g)))%nat /\
  (Forall (fun m => (List.length (swars m) <= 1)%nat) (matras g) ->
   List.length (split_ws (get_rendered_notation g)) = List.length (matras g)).
Proof.
  intros Hr. destruct (reachable_inv Hr) as [_ [_ Fc]].
  pose proof (reachable_tokens Hr) as Ft.
  assert (E : split_ws (get_rendered_notation g)
              = concat (map (cell_fields env) (matras g))).
  { unfold get_rendered_notation. rewrite split_ws_join_space, map_map. f_equal.
    apply map_ext_in. intros m Hm. rewrite Forall_forall in Fc, Ft.
    apply display_fields; [now apply Fc | now apply Ft]. }
  split; [exact E |]. rewrite E. clear E Fc Ft Hr.
  split.
  - induction (matras g) as [| m r IH]; [cbn; lia |].
    cbn [map concat]. rewrite length_app. cbn [List.length].
    assert (1 <= List.length (cell_fields env m))%nat; [| lia].
    unfold cell_fields. destruct (swars m); [cbn; lia |].
    rewrite length_map. cbn [List.length]. lia.
  - intros F. induction F as [| m r Hm F IH]; [reflexivity |].
    cbn [map concat]. rewrite length_app, IH. cbn [List.length].
    assert (List.length (cell_fields env m) = 1)%nat; [| lia].
    unfold cell_fields. destruct (swars m) as [| a [| b s]]; [reflexivity | reflexivity |].
    cbn [List.length] in Hm. lia.
Qed.

(* ===================================================================== *)
(** ** Swars distributed over matras *)
(* ===================================================================== *)

Lemma assign_each_spec (swars : list ustring) : forall (pre : list (list ustring)) (k : nat),
  (List.length swars <= k)%nat ->
  assign_each (List.length pre) swars (pre ++ repeat [] k)
  = Some (pre ++ map (fun s => [s]) swars ++ repeat [] (k - List.length swars)).
Proof.
  induction swars as [| s r IH]; intros pre k H; cbn [assign_each map List.length app].
  - now rewrite Nat.sub_0_r.
  - cbn [List.length] in H. destruct k as [| k]; [lia |].
    rewrite length_app. cbn [repeat List.length].
    replace (List.length pre <? List.length pre + S (List.length (repeat (@nil ustring) k)))%nat
      with true by (symmetry; apply Nat.ltb_lt; lia).
    rewrite list_set_app.
    change (pre ++ [s] :: repeat [] k) with (pre ++ [[s]] ++ repeat [] k).
    rewrite app_assoc.
    replace (S (List.length pre)) with (List.length (pre ++ [[s]]))
      by (rewrite length_app; cbn; lia).
    rewrite IH by lia. rewrite <- app_assoc. reflexivity.
Qed.

Lemma spread_each_length (index : Z -> Z) (swars : list ustring) (ids : list nat) :
  forall result,
    List.length (fold_left (fun r i => list_set i (py_slice swars (index (Z.of_nat i))
                                                            (index (Z.of_nat i + 1))) r)
                           ids result)
    = List.length result.
Proof.
  induction ids as [| i r IH]; intros result; cbn [fold_left]; [reflexivity |].
  now rewrite IH, length_list_set.
Qed.

(** X21: [distribute_swars_to_matras] gives each swar a matra of its own,
    in order, and leaves the other matras empty, when there are no more
    swars than matras; with swars and no matra it raises
    [ZeroDivisionError]; with swars and a negative number of matras it
    returns the empty list; it never raises [IndexError], and a list it
    returns has one entry per matra. *)
Theorem X21_distribute_swars (scaled : Z -> Z -> Z -> Z) (swars : list ustring)
    (total_matras : Z) :
  (Z.of_nat (List.length swars) <= total_matras ->
   distribute_swars_to_matras scaled swars total_matras
   = Distributed (map (fun s => [s]) swars
                  ++ repeat [] (Z.to_nat total_matras - List.length swars))) /\
  (swars = [] ->
   distribute_swars_to_matras scaled swars total_matras
   = Distributed (repeat [] (Z.to_nat total_matras))) /\
  (swars <> [] -> total_matras = 0 ->
   distribute_swars_to_matras scaled swars total_matras = DistZeroDivisionError) /\
  (swars <> [] -> total_matras < 0 ->
   distribute_swars_to_matras scaled swars total_matras = Distributed []) /\
  distribute_swars_to_matras scaled swars total_matras <> DistIndexError /\
  (forall r, distribute_swars_to_matras scaled swars total_matras = Distributed r ->
     List.length r = Z.to_nat total_matras).
Proof.
  assert (A : Z.of_nat (List.length swars) <= total_matras ->
              distribute_swars_to_matras scaled swars total_matras
              = Distributed (map (fun s => [s]) swars
                             ++ repeat [] (Z.to_nat total_matras - List.length swars))).
  { intros H. unfold distribute_swars_to_matras. cbv zeta.
    destruct swars as [| s r] eqn:E; [cbn; now rewrite Nat.sub_0_r |].
    rewrite <- E in *.
    replace (Z.of_nat (List.length swars) <=? total_matras) with true
      by (symmetry; apply Z.leb_le; exact H).
    pose proof (@assign_each_spec swars [] (Z.to_nat total_matras) ltac:(lia)) as S.
    cbn [List.length app] in S. rewrite S. reflexivity. }
  split; [exact A |]. split; [intros ->; reflexivity |].
  split; [| split; [| split]].
  - intros Hne ->. unfold distribute_swars_to_matras. cbv zeta.
    destruct swars as [| s r]; [contradiction |].
    cbn [List.length]. rewrite Nat2Z.inj_succ.
    replace (Z.succ (Z.of_nat (List.length r)) <=? 0) with false
      by (symmetry; apply Z.leb_gt; lia).
    reflexivity.
  - intros Hne Hn. unfold distribute_swars_to_matras. cbv zeta.
    destruct swars as [| s r]; [contradiction |].
    cbn [List.length]. rewrite Nat2Z.inj_succ.
    replace (Z.succ (Z.of_nat (List.length r)) <=? total_matras) with false
      by (symmetry; apply Z.leb_gt; lia).
    replace (total_matras =? 0) with false by (symmetry; apply Z.eqb_neq; lia).
    destruct total_matras; try lia. reflexivity.
  - destruct (Z.le_gt_cases (Z.of_nat (List.length swars)) total_matras) as [H | H].
    + rewrite (A H). discriminate.
    + unfold distribute_swars_to_matras. cbv zeta.
      destruct swars as [| s r]; [discriminate |].
      replace (Z.of_nat (List.length (s :: r)) <=? total_matras) with false
        by (symmetry; apply Z.leb_gt; lia).
      destruct (total_matras =? 0); discriminate.
  - intros r.
    destruct (Z.le_gt_cases (Z.of_nat (List.length swars)) total_matras) as [H | H].
    + rewrite (A H). intros E. inversion E.
      rewrite length_app, length_map, repeat_length. lia.
    + unfold distribute_swars_to_matras. cbv zeta.
      destruct swars as [| s w];
        [intros E; inversion E; now rewrite repeat_length |].
      replace (Z.of_nat (List.length (s :: w)) <=? total_matras) with false
        by (symmetry; apply Z.leb_gt; lia).
      destruct (total_matras =? 0); [discriminate |].
      intros E. inversion E. unfold spread_each.
      etransitivity;
        [apply (@spread_each_length
                  (fun i => scaled i (Z.of_nat (List.length (s :: w))) total_matras)
                  (s :: w))
        | apply repeat_length].
Qed.

(* ===================================================================== *)
(** ** The accents of the catalog *)
(* ===================================================================== *)

Lemma range_check (P : Z -> bool) (n : nat) (beat : Z) :
  forallb P (map Z.of_nat (seq 1 n)) = true ->
  1 <= beat <= Z.of_nat n -> P beat = true.
Proof.
  intros F H. rewrite forallb_forall in F. apply F.
  apply in_map_iff. exists (Z.to_nat beat). split; [lia | apply in_seq; lia].
Qed.

(** X22: in every taal of the catalog the sam is beat 1, and a beat of
    the cycle shows an accent symbol exactly when it is the first beat of
    a vibhag. *)
Theorem X22_catalog_accents (k : ustring) (t : Taal) :
  In (k, t) TAAL_LIBRARY ->
  sam_position t = 1 /\
  (forall beat, 1 <= beat <= total_matras t ->
     (In beat (get_vibhag_start_matras t) <-> has_symbol t beat = true)).
Proof.
  intros H.
  assert (G : sam_position t = 1 /\
              forallb (fun b => Bool.eqb (int_in_list b (get_vibhag_start_matras t))
                                         (has_symbol t b))
                      (map Z.of_nat (seq 1 (Z.to_nat (total_matras t)))) = true).
  { cbn in H.
    destruct H as [H | [H | [H | [H | [H | [H | []]]]]]]; inversion H; subst;
      split; vm_compute; reflexivity. }
  destruct G as [G1 G2]. split; [exact G1 |].
  intros beat Hb. rewrite <- int_in_list_In.
  pose proof (@range_check _ _ beat G2 ltac:(lia)) as E. cbv beta in E.
  apply Bool.eqb_prop in E. rewrite E. reflexivity.
Qed.

(* ===================================================================== *)
(** ** The statements on concrete inputs *)
(* ===================================================================== *)


(** C2 at komal RE one octave down. *)
Lemma C2_render_witness :
  Note_init ascii_env (lit "re") true false (-1) = Ok komal_re_low /\
  to_notation komal_re_low = Ok ([82; 818; 69; 818; 803]%N).
Proof.
  assert (H : Note_init ascii_env (lit "re") true false (-1) = Ok komal_re_low)
    by reflexivity.
  split; [exact H |].
  exact (proj1 (@C2_render ascii_env (lit "re") true false (-1) komal_re_low H)).
Defined.

(** C3 at beat 8 of JhapTaal, a tali beat of the fourth vibhag. *)
Lemma C3_symbol_precedence_witness :
  1 <= 8 <= total_matras JHAPTAAL /\
  get_matra_symbol JHAPTAAL 8 = Ok (lit "4").
Proof.
  assert (H : 1 <= 8 <= total_matras JHAPTAAL) by (cbn; lia).
  split; [exact H |].
  destruct (@C3_symbol_precedence JHAPTAAL 8 H) as [_ [_ [H3 _]]].
  destruct H3 as [v [Hv Hs]].
  - cbn. lia.
  - cbn. intros [E | []]. lia.
  - cbn. auto.
  - rewrite Hs. cbn in Hv. inversion Hv. reflexivity.
Defined.


(** C5 on the grid of Dadra: beat 9 is refused, beat 2 takes two swars. *)
Lemma C5_set_cell_swars_witness :
  total_matras (taal dadra_grid) <= Z.of_nat (List.length (matras dadra_grid)) /\
  set_matra_swars ascii_env dadra_grid 9 (lit "SA") = Ok (dadra_grid, false) /\
  exists cell',
    set_matra_swars ascii_env dadra_grid 2 (lit " sa  zz ")
    = Ok (with_matras dadra_grid (list_set 1 cell' (matras dadra_grid)), true) /\
    swars cell' = [lit "sa"; lit "zz"] /\
    rendered_notation cell' = lit "SA zz".
Proof.
  assert (H : total_matras (taal dadra_grid)
              <= Z.of_nat (List.length (matras dadra_grid)))
    by (vm_compute; try split; intros D; discriminate D).
  split; [exact H |].
  destruct (@C5_set_cell_swars ascii_env dadra_grid 9 (lit "SA") H) as [Hout _].
  split; [apply Hout; right; vm_compute; reflexivity |].
  destruct (@C5_set_cell_swars ascii_env dadra_grid 2 (lit " sa  zz ") H) as [_ Hin].
  destruct Hin as [cell [cell' [_ [E [_ [_ [Hs [_ [Hr _]]]]]]]]];
    [vm_compute; split; intros D; discriminate D |].
  exists cell'. split; [exact E |].
  assert (S : swars cell' = [lit "sa"; lit "zz"]).
  { rewrite Hs; [reflexivity | intros D; discriminate D | intros D; discriminate D]. }
  split; [exact S |]. rewrite Hr, S. reflexivity.
Defined.

(** C6 on a suffix up, a suffix down, and a text with two dashes. *)
Lemma C6_octave_suffix_witness :
  (In 43%N (remaining ascii_env (lit "pa+2")) /\
   parse_note_spec ascii_env (lit "pa+2") = (lit "PA", false, false, 2) /\
   exists pre d rest,
     remaining ascii_env (lit "pa+2") = pre ++ 43%N :: d ++ rest /\
     parse_note_spec ascii_env (lit "pa+2")
     = (pre, false, false, int_default ascii_env d 1)) /\
  (~ In 43%N (remaining ascii_env (lit "ni_k-1")) /\
   count_char 45 (remaining ascii_env (lit "ni_k-1")) = 1%nat /\
   parse_note_spec ascii_env (lit "ni_k-1") = (lit "NI", true, false, -1) /\
   exists pre d,
     remaining ascii_env (lit "ni_k-1") = pre ++ 45%N :: d /\
     parse_note_spec ascii_env (lit "ni_k-1")
     = (pre, true, false, - int_default ascii_env d 1)) /\
  (~ In 43%N (remaining ascii_env (lit "SA--2")) /\
   count_char 45 (remaining ascii_env (lit "SA--2")) <> 1%nat /\
   parse_note_spec ascii_env (lit "SA--2") = (lit "SA--2", false, false, 0)).
Proof.
  assert (U : In 43%N (remaining ascii_env (lit "pa+2"))) by (cbn; auto).
  assert (D1 : ~ In 43%N (remaining ascii_env (lit "ni_k-1"))).
  { cbn. intros [D | [D | [D | [D | []]]]]; discriminate D. }
  assert (D2 : count_char 45 (remaining ascii_env (lit "ni_k-1")) = 1%nat) by reflexivity.
  assert (M1 : ~ In 43%N (remaining ascii_env (lit "SA--2"))).
  { cbn. intros [D | [D | [D | [D | [D | []]]]]]; discriminate D. }
  assert (M2 : count_char 45 (remaining ascii_env (lit "SA--2")) <> 1%nat).
  { cbn. discriminate. }
  destruct (@C6_octave_suffix ascii_env (lit "pa+2")) as [Hup _].
  destruct (@C6_octave_suffix ascii_env (lit "ni_k-1")) as [_ [Hdown _]].
  destruct (@C6_octave_suffix ascii_env (lit "SA--2")) as [_ [_ [Hmany _]]].
  split; [| split].
  - split; [exact U |]. split; [reflexivity |].
    destruct (Hup U) as [pre [d [rest [E1 [_ [_ [_ E2]]]]]]].
    exists pre, d, rest. split; [exact E1 | exact E2].
  - split; [exact D1 |]. split; [exact D2 |]. split; [reflexivity |].
    destruct (Hdown D1 D2) as [pre [d [E1 [_ [_ E2]]]]].
    exists pre, d. split; [exact E1 | exact E2].
  - split; [exact M1 |]. split; [exact M2 |]. exact (Hmany M1 M2).
Defined.



(** C10 at beat 4 of the grid of Dadra. *)
Lemma C10_empty_vs_continuation_witness :
  total_matras (taal dadra_grid) <= Z.of_nat (List.length (matras dadra_grid)) /\
  1 <= 4 <= total_matras (taal dadra_grid) /\
  exists g1 g2,
    set_matra_swars ascii_env dadra_grid 4 [] = Ok (g1, true) /\
    set_matra_swars ascii_env dadra_grid 4 (lit "-") = Ok (g2, true) /\
    get_filled_count g1 = 0 /\ get_filled_count g2 = 1 /\
    get_rendered_notation g1 = lit "- - - - - -" /\
    get_rendered_notation g2 = lit "- - - - - -".
Proof.
  assert (H : total_matras (taal dadra_grid)
              <= Z.of_nat (List.length (matras dadra_grid)))
    by (vm_compute; try split; intros D; discriminate D).
  assert (Hb : 1 <= 4 <= total_matras (taal dadra_grid))
    by (vm_compute; split; intros D; discriminate D).
  split; [exact H |]. split; [exact Hb |].
  destruct (@C10_empty_vs_continuation ascii_env dadra_grid 4 H Hb)
    as [g1 [g2 [c1 [c2 [E1 [E2 [_ [_ [_ [_ [_ [_ [_ [_ R]]]]]]]]]]]]]].
  exists g1, g2. split; [exact E1 |]. split; [exact E2 |].
  cbn in E1, E2. inversion E1. inversion E2. subst g1 g2.
  repeat split; reflexivity.
Defined.

(** The grids of Dadra used below are grids a program can hold. *)
Lemma dadra_grid_reachable : reachable ascii_env DADRA dadra_grid.
Proof. apply reach_init; vm_compute; reflexivity. Qed.

Lemma dadra_filled_reachable : reachable ascii_env DADRA dadra_filled.
Proof.
  refine (@reach_fill ascii_env DADRA dadra_grid (lit "SA RE_k - GA") dadra_filled
            _ dadra_grid_reachable _).
  vm_compute. reflexivity.
Qed.

Lemma dadra_nonnegative : Forall (fun c => 0 <= c) (vibhag_structure DADRA).
Proof. repeat constructor; intros D; discriminate D. Qed.

(** X1 on beat 2 of Dadra: two swars between spaces. *)
Lemma X1_set_matra_swars_by_tokens_witness :
  set_matra_swars ascii_env dadra_grid 2 (lit " sa  re ") = Ok (dadra_set, true) /\
  exists cell',
    nth_error (matras dadra_set) 1 = Some cell' /\
    swars cell' = [lit "sa"; lit "re"] /\
    rendered_notation cell' = lit "SA RE" /\
    set_matra_swars ascii_env dadra_grid 2 (lit "sa re") = Ok (dadra_set, true).
Proof.
  assert (H : set_matra_swars ascii_env dadra_grid 2 (lit " sa  re ")
              = Ok (dadra_set, true)) by (vm_compute; reflexivity).
  split; [exact H |].
  destruct (@X1_set_matra_swars_by_tokens ascii_env dadra_grid 2 (lit " sa  re ")
              dadra_set H) as [cell' [A [B [C D]]]].
  exists cell'. split; [exact A |]. split; [rewrite B; reflexivity |].
  split; [rewrite C; vm_compute; reflexivity |]. apply D. reflexivity.
Defined.

(** X2 on beat 2 of a filled grid of Dadra. *)
Lemma X2_set_matra_swars_own_text_witness :
  reachable ascii_env DADRA dadra_filled /\
  1 <= 2 <= total_matras DADRA /\
  exists cell,
    get_matra dadra_filled 2 = Ok (Some cell) /\
    set_matra_swars ascii_env dadra_filled 2 (swars_text cell) = Ok (dadra_filled, true).
Proof.
  assert (R : 1 <= 2 <= total_matras DADRA)
    by (vm_compute; split; intros D; discriminate D).
  split; [exact dadra_filled_reachable |]. split; [exact R |].
  exact (@X2_set_matra_swars_own_text ascii_env DADRA dadra_filled 2
           dadra_filled_reachable R).
Defined.

(** X3 on a filled grid of Dadra. *)
Lemma X3_display_empty_iff_witness :
  reachable ascii_env DADRA dadra_filled /\
  Forall (fun m => get_display_text m = [] <-> is_empty m = true) (matras dadra_filled).
Proof.
  split; [exact dadra_filled_reachable |].
  exact (@X3_display_empty_iff ascii_env DADRA dadra_filled dadra_filled_reachable).
Defined.


(** X5 on beats 2 and 3 of Dadra. *)
Lemma X5_set_matra_swars_compose_witness :
  set_matra_swars ascii_env dadra_grid 2 (lit " sa  re ") = Ok (dadra_set, true) /\
  set_matra_swars ascii_env dadra_set 2 (lit "ga")
  = set_matra_swars ascii_env dadra_grid 2 (lit "ga") /\
  exists g12,
    set_matra_swars ascii_env dadra_set 3 (lit "pa") = Ok (g12, true) /\
    set_matra_swars ascii_env dadra_set_other 2 (lit " sa  re ") = Ok (g12, true).
Proof.
  assert (H : set_matra_swars ascii_env dadra_grid 2 (lit " sa  re ")
              = Ok (dadra_set, true)) by (vm_compute; reflexivity).
  split; [exact H |].
  destruct (@X5_set_matra_swars_compose ascii_env dadra_grid 2 (lit " sa  re ")
              dadra_set H) as [A B].
  split; [exact (A (lit "ga")) |].
  apply (B 3 (lit "pa") dadra_set_other); [intros D; discriminate D |].
  vm_compute. reflexivity.
Defined.

(** X8 on Dadra: beat 9 is outside the cycle, beat 4 is in the second
    vibhag. *)
Lemma X8_get_vibhag_for_matra_witness :
  Taal_init DADRA = Ok DADRA /\
  (exists msg, get_vibhag_for_matra DADRA 9 = Raise (ValueError msg)) /\
  (exists k, (k < List.length (vibhag_structure DADRA))%nat /\
             get_vibhag_for_matra DADRA 4 = Ok (Z.of_nat k + 1) /\
             4 <= sum (firstn (S k) (vibhag_structure DADRA))).
Proof.
  assert (H : Taal_init DADRA = Ok DADRA) by reflexivity.
  split; [exact H |]. split.
  - destruct (@X8_get_vibhag_for_matra DADRA 9 H) as [A _]. apply A.
    intros [_ D]. apply D. reflexivity.
  - destruct (@X8_get_vibhag_for_matra DADRA 4 H) as [_ B].
    destruct B as [k [B1 [B2 [_ [B4 _]]]]];
      [vm_compute; split; intros D; discriminate D |].
    exists k. split; [exact B1 |]. split; [exact B2 | exact B4].
Defined.

(** X10 on Dadra: beat 9 is outside the cycle and is not the sam. *)
Lemma X10_get_matra_symbol_total_witness :
  Taal_init DADRA = Ok DADRA /\
  (exists s, get_matra_symbol DADRA 9 = Ok s) /\
  get_matra_symbol DADRA 9 = Ok [].
Proof.
  assert (H : Taal_init DADRA = Ok DADRA) by reflexivity.
  split; [exact H |].
  destruct (@X10_get_matra_symbol_total DADRA 9 H) as [A B].
  split; [exact A |]. apply B. intros [_ D]. apply D. reflexivity.
Defined.

(** X11 on a filled grid of Dadra: beat 4 and the number of cells. *)
Lemma X11_grid_cells_witness :
  reachable ascii_env DADRA dadra_filled /\
  (exists c, get_matra dadra_filled 4 = Ok (Some c) /\ matra_number c = 4) /\
  Z.of_nat (List.length (matras dadra_filled)) = total_matras DADRA.
Proof.
  split; [exact dadra_filled_reachable |].
  destruct (@X11_grid_cells ascii_env DADRA dadra_filled dadra_filled_reachable)
    as [_ [A B]].
  split.
  - apply A. vm_compute. split; intros D; discriminate D.
  - exact (proj1 (B dadra_nonnegative)).
Defined.

(** X12 on a filled grid of Dadra: two groups that hold the six cells. *)
Lemma X12_grid_groups_witness :
  reachable ascii_env DADRA dadra_filled /\
  List.length (vibhags dadra_filled) = 2%nat /\
  concat (map vg_matras (vibhags dadra_filled)) = seq 0 6.
Proof.
  split; [exact dadra_filled_reachable |].
  destruct (@X12_grid_groups ascii_env DADRA dadra_filled dadra_filled_reachable)
    as [A [B _]].
  split; [exact A | exact B].
Defined.

(** X13 on "re" at the middle octave. *)
Lemma X13_can_be_komal_tivra_witness :
  -3 <= 0 <= 3 /\
  can_be_komal ascii_env (lit "re") = true /\
  (exists n, create_note ascii_env (lit "re") true false 0 = Ok (Some n)) /\
  can_be_tivra ascii_env (lit "re") = false.
Proof.
  assert (H : -3 <= 0 <= 3) by (split; intros D; discriminate D).
  split; [exact H |].
  destruct (@X13_can_be_komal_tivra ascii_env (lit "re") 0 H) as [[A _] _].
  split; [reflexivity |]. split; [apply A; reflexivity | reflexivity].
Defined.

(** X14 on komal RE of the lower octave: five characters for two. *)
Lemma X14_rendering_shape_witness :
  to_notation komal_re_low = Ok (render_spec komal_re_low) /\
  List.length (render_spec komal_re_low) = 5%nat /\
  unmarked (render_spec komal_re_low) = lit "RE".
Proof.
  assert (H : to_notation komal_re_low = Ok (render_spec komal_re_low))
    by (vm_compute; reflexivity).
  split; [exact H |].
  destruct (@X14_rendering_shape komal_re_low (render_spec komal_re_low) H) as [A B].
  split; [rewrite A; reflexivity | rewrite B; reflexivity].
Defined.

(** X18 on a filled grid of Dadra: three swars, the bar, one swar. *)
Lemma X18_sequence_view_witness :
  reachable ascii_env DADRA dadra_filled /\
  Forall (fun c => 0 <= c) (vibhag_structure DADRA) /\
  split_ws (get_all_swars_as_sequence dadra_filled)
  = [lit "SA"; lit "RE_k"; lit "-"; lit "|"; lit "GA"] /\
  filter (fun tok => negb (is_bar tok)) (split_ws (get_all_swars_as_sequence dadra_filled))
  = [lit "SA"; lit "RE_k"; lit "-"; lit "GA"].
Proof.
  split; [exact dadra_filled_reachable |]. split; [exact dadra_nonnegative |].
  destruct (@X18_sequence_view ascii_env DADRA dadra_filled dadra_filled_reachable
              dadra_nonnegative) as [A B].
  split; [rewrite A; vm_compute; reflexivity |].
  rewrite B; [vm_compute; reflexivity |].
  vm_compute. repeat constructor; intuition discriminate.
Defined.

(** X20 on a filled grid of Dadra: six fields for six cells. *)
Lemma X20_rendered_notation_fields_witness :
  reachable ascii_env DADRA dadra_filled /\
  split_ws (get_rendered_notation dadra_filled)
  = [lit "SA"; [82; 818; 69; 818]%N; lit "-"; lit "GA"; lit "-"; lit "-"] /\
  List.length (split_ws (get_rendered_notation dadra_filled)) = 6%nat.
Proof.
  split; [exact dadra_filled_reachable |].
  destruct (@X20_rendered_notation_fields ascii_env DADRA dadra_filled
              dadra_filled_reachable) as [A [_ C]].
  split; [rewrite A; vm_compute; reflexivity |].
  rewrite C; [reflexivity |].
  vm_compute. repeat constructor.
Defined.

(** X22 on Dadra: beat 4 opens the second vibhag and shows a symbol,
    beat 5 does neither. *)
Lemma X22_catalog_accents_witness :
  In (lit "dadra", DADRA) TAAL_LIBRARY /\
  sam_position DADRA = 1 /\
  has_symbol DADRA 4 = true /\
  (In 5 (get_vibhag_start_matras DADRA) <-> has_symbol DADRA 5 = true).
Proof.
  assert (H : In (lit "dadra", DADRA) TAAL_LIBRARY) by (right; left; reflexivity).
  split; [exact H |].
  destruct (@X22_catalog_accents (lit "dadra") DADRA H) as [A B].
  split; [exact A |]. split.
  - apply (B 4); [vm_compute; split; intros D; discriminate D |].
    right. left. reflexivity.
  - apply (B 5). vm_compute. split; intros D; discriminate D.
Defined.
